(** * Analyst-question attribution and consolidation

    A shallow embedding of the attribution pipeline of
    [server/earnings-tracker.ts]: the name and institution normalizers,
    [applyCompanyWideAnalystConsolidation], the operator-introduction
    scanner, the per-transcript question extractor and the
    prepared-statement extractor, together with the properties the
    specification states about them.

    Conventions of the embedding.
    - A JavaScript string is a [string]; its characters are taken to be
      ASCII, so [toLowerCase] and [toUpperCase] act on the letters A-Z / a-z
      and leave every other character alone, and white space is the six
      ASCII white-space characters.  A statement that would not hold of
      the code for other characters carries the condition [asciiText] on
      the texts concerned.
    - A thrown exception is a [Throw] result.  A [console.log] call prints
      nothing the functions use; what is kept of it is the evaluation of
      those of its arguments that can throw (a property read, a conversion
      to a string).
    - The question objects that consolidation mutates in place live in a
      [heap] and the arrays hold references to them.
    - [JSON.parse] is a parameter of the functions that call it. *)

From Stdlib Require Import ZArith Ascii String List Bool Lia.
From Stdlib Require Import DecimalString DecimalZ DecimalPos.
From stdpp Require Import base tactics option list functions gmap strings.

Local Open Scope string_scope.
Local Open Scope list_scope.

(** ** Results of JavaScript evaluations *)

Inductive jsError : Type := TypeError | SyntaxError.

Inductive result (A : Type) : Type :=
| Ok (a : A)
| Throw (e : jsError).
Arguments Ok {A} a.
Arguments Throw {A} e.

Global Instance result_ret : MRet result := λ A a, Ok a.
Global Instance result_bind : MBind result := λ A B k r,
  match r with
  | Ok a => k a
  | Throw e => Throw e
  end.

(** ** String primitives *)

Module Js.

Definition isSpace (c : ascii) : bool := Ascii.is_space c.

Definition lowerChar (c : ascii) : ascii :=
  let n := nat_of_ascii c in
  if (65 <=? n)%nat && (n <=? 90)%nat then ascii_of_nat (n + 32) else c.

Definition upperChar (c : ascii) : ascii :=
  let n := nat_of_ascii c in
  if (97 <=? n)%nat && (n <=? 122)%nat then ascii_of_nat (n - 32) else c.

Fixpoint toLowerCase (s : string) : string :=
  match s with
  | "" => ""
  | String c s' => String (lowerChar c) (toLowerCase s')
  end.

Fixpoint toUpperCase (s : string) : string :=
  match s with
  | "" => ""
  | String c s' => String (upperChar c) (toUpperCase s')
  end.

Fixpoint startsWith (s p : string) : bool :=
  match p, s with
  | "", _ => true
  | String _ _, "" => false
  | String a p', String b s' => if decide (a = b) then startsWith s' p' else false
  end.

(** [s.includes(p)] *)
Fixpoint includes (s p : string) : bool :=
  startsWith s p ||
  match s with
  | "" => false
  | String _ s' => includes s' p
  end.

Fixpoint trimStart (s : string) : string :=
  match s with
  | "" => ""
  | String c s' => if isSpace c then trimStart s' else s
  end.

Fixpoint trimEnd (s : string) : string :=
  match s with
  | "" => ""
  | String c s' =>
      match trimEnd s' with
      | "" => if isSpace c then "" else String c ""
      | t => String c t
      end
  end.

Definition trim (s : string) : string := trimEnd (trimStart s).

(** [s.split(/\s+/)]: [sep] tells that the previous character belonged to
    a separator, [cur] is the piece read so far. *)
Fixpoint splitSpaces_go (sep : bool) (cur s : string) : list string :=
  match s with
  | "" => [cur]
  | String c s' =>
      if isSpace c
      then (if sep then splitSpaces_go true cur s'
            else cur :: splitSpaces_go true "" s')
      else splitSpaces_go false (cur +:+ String c "") s'
  end.

Definition splitSpaces (s : string) : list string := splitSpaces_go false "" s.

(** [s.charAt(0)] and [s.slice(1)] *)
Definition charAt0 (s : string) : string :=
  match s with "" => "" | String c _ => String c "" end.

Definition slice1 (s : string) : string :=
  match s with "" => "" | String _ s' => s' end.

End Js.

(** ** Institution names: [normalizeCompanyName] *)

(** The [institutions] object literal; [Object.entries] lists its keys in
    the order they are written. *)
Definition institutions : list (string * string) :=
  [ ("jpmorgan", "JPMorgan Chase");
    ("jp morgan", "JPMorgan Chase");
    ("goldman", "Goldman Sachs");
    ("goldman sachs", "Goldman Sachs");
    ("morgan stanley", "Morgan Stanley");
    ("barclays", "Barclays");
    ("citigroup", "Citigroup");
    ("citi", "Citigroup");
    ("bank of america", "Bank of America");
    ("bofa", "Bank of America");
    ("wells fargo", "Wells Fargo");
    ("deutsche bank", "Deutsche Bank");
    ("credit suisse", "Credit Suisse");
    ("ubs", "UBS");
    ("hsbc", "HSBC");
    ("rbc", "Royal Bank of Canada");
    ("royal bank", "Royal Bank of Canada");
    ("scotia", "Scotiabank");
    ("scotiabank", "Scotiabank");
    ("td bank", "TD Bank");
    ("bmo", "Bank of Montreal");
    ("jefferies", "Jefferies");
    ("cowen", "Cowen");
    ("piper sandler", "Piper Sandler");
    ("wedbush", "Wedbush");
    ("oppenheimer", "Oppenheimer");
    ("stifel", "Stifel");
    ("raymond james", "Raymond James");
    ("baird", "Baird");
    ("mizuho", "Mizuho");
    ("evercore", "Evercore");
    ("canaccord", "Canaccord Genuity") ].

Definition normalizeCompanyName (company : string) : string :=
  let companyLower := Js.toLowerCase company in
  match find (fun kv => Js.includes companyLower kv.1) institutions with
  | Some kv => kv.2
  | None => company
  end.

(** ** Person names: [normalizeAnalystName] *)

(** The [nameVariations] object literal. *)
Definition nameVariations : list (string * string) :=
  [ ("mike", "michael"); ("mike.", "michael"); ("mich", "michael");
    ("jim", "james"); ("jimmy", "james"); ("jim.", "james");
    ("bob", "robert"); ("bobby", "robert"); ("rob", "robert");
    ("dick", "richard"); ("rick", "richard"); ("rich", "richard");
    ("bill", "william"); ("billy", "william"); ("will", "william");
    ("tom", "thomas"); ("tommy", "thomas");
    ("dan", "daniel"); ("danny", "daniel");
    ("dave", "david"); ("davey", "david");
    ("chris", "christopher");
    ("nick", "nicholas");
    ("alex", "alexander");
    ("steve", "steven");
    ("ben", "benjamin");
    ("matt", "matthew");
    ("tony", "anthony");
    ("joe", "joseph"); ("joey", "joseph");
    ("sam", "samuel"); ("sammy", "samuel");
    ("andy", "andrew");
    ("pat", "patrick");
    ("pete", "peter");
    ("ed", "edward"); ("eddie", "edward");
    ("ted", "theodore");
    ("frank", "francis");
    ("greg", "gregory");
    ("jeff", "jeffrey");
    ("ken", "kenneth"); ("kenny", "kenneth");
    ("brad", "bradley");
    ("marc", "mark");
    ("jon", "jonathan"); ("johnny", "jonathan");
    ("tim", "timothy"); ("timmy", "timothy") ].

(** [nameVariations] is a plain object, so [nameVariations[k]] also finds
    what the object inherits from [Object.prototype].  The index is a
    lower-cased string; the inherited properties with an all-lower-case name
    are [constructor] (a function) and [__proto__] (an object). *)
Definition inheritedLowerCaseKeys : list string := ["constructor"; "__proto__"].

Inductive tableEntry : Type :=
| OwnString (v : string)     (* an entry of the literal *)
| Inherited                  (* a truthy value that is not a string *)
| Undefined.

Definition lookupOwn (table : list (string * string)) (k : string) : option string :=
  snd <$> find (fun kv => bool_decide (kv.1 = k)) table.

Definition nameVariationsAt (k : string) : tableEntry :=
  match lookupOwn nameVariations k with
  | Some v => OwnString v
  | None => if bool_decide (k ∈ inheritedLowerCaseKeys) then Inherited else Undefined
  end.

Record NormalizedName : Type := mkNormalizedName {
  normalizedName : string;
  firstName : string;
  lastName : string
}.

(** [x.charAt(0).toUpperCase() + x.slice(1)] *)
Definition capitalize (x : string) : string :=
  Js.toUpperCase (Js.charAt0 x) +:+ Js.slice1 x.

(** [nameParts[0]?.toLowerCase() || ''] and the same at [length - 1] *)
Definition firstPart (nameParts : list string) : string :=
  Js.toLowerCase (default "" (head nameParts)).
Definition lastPart (nameParts : list string) : string :=
  Js.toLowerCase (default "" (last nameParts)).

Definition normalizeAnalystName (analystName : string) : result NormalizedName :=
  let nameParts := Js.splitSpaces (Js.trim analystName) in
  let firstName := firstPart nameParts in
  let lastName := lastPart nameParts in
  (* nameVariations[firstName] || firstName, then .charAt on the result *)
  normalizedFirstName ←
    match nameVariationsAt firstName with
    | OwnString v => Ok v
    | Inherited => Throw TypeError
    | Undefined => Ok firstName
    end;
  let capitalizedFirstName := capitalize normalizedFirstName in
  let capitalizedLastName := capitalize lastName in
  Ok {| normalizedName := capitalizedFirstName +:+ " " +:+ capitalizedLastName;
        firstName := capitalizedFirstName;
        lastName := capitalizedLastName |}.


(** ** Question records and the heap *)

Record AnalystQuestion : Type := mkAnalystQuestion {
  analystName : string;
  analystTitle : string;
  analystCompany : string;
  question : string;
  transcriptId : Z;
  symbol : string;
  quarter : string;
  year : Z;
  transcriptTitle : string
}.

Definition setAnalystName (q : AnalystQuestion) (v : string) : AnalystQuestion :=
  mkAnalystQuestion v (analystTitle q) (analystCompany q) (question q)
    (transcriptId q) (symbol q) (quarter q) (year q) (transcriptTitle q).

Definition setAnalystCompany (q : AnalystQuestion) (v : string) : AnalystQuestion :=
  mkAnalystQuestion (analystName q) (analystTitle q) v (question q)
    (transcriptId q) (symbol q) (quarter q) (year q) (transcriptTitle q).

(** A question object is known by its reference; arrays and group entries
    hold references, the heap holds the fields. *)
Abbreviation ref := nat (only parsing).
Abbreviation heap := (nat → AnalystQuestion) (only parsing).

(** ** Insertion-ordered maps ([Map]) *)

Section JsMap.
Context {K V : Type} `{EqDecision K}.

Fixpoint mapGet (m : list (K * V)) (k : K) : option V :=
  match m with
  | [] => None
  | (k', v) :: m' => if decide (k' = k) then Some v else mapGet m' k
  end.

(** [m.set(k, v)]: a present key keeps its place, a new key goes last. *)
Fixpoint mapSet (m : list (K * V)) (k : K) (v : V) : list (K * V) :=
  match m with
  | [] => [(k, v)]
  | (k', v') :: m' =>
      if decide (k' = k) then (k, v) :: m' else (k', v') :: mapSet m' k v
  end.
End JsMap.

(** [if (!groups.has(k)) groups.set(k, []); groups.get(k).push(q)] *)
Definition pushTo {K : Type} `{EqDecision K}
    (groups : list (K * list nat)) (k : K) (q : ref) : list (K * list nat) :=
  mapSet groups k (default [] (mapGet groups k) ++ [q]).

Definition groupByKey {K : Type} `{EqDecision K}
    (key : ref → K) (questions : list nat) : list (K * list nat) :=
  fold_left (fun groups q => pushTo groups (key q) q) questions [].

(** ** Consolidation: [applyCompanyWideAnalystConsolidation] *)

(** Body of the transcript loop for one question. *)
Definition assignOperatorCompany (operatorAnalystInfo : gmap string string)
    (h : heap) (q : ref) : heap :=
  let name := Js.trim (analystName (h q)) in
  match operatorAnalystInfo !! name with
  | Some operatorCompany =>
      let normalizedCompany := normalizeCompanyName operatorCompany in
      if decide (analystCompany (h q) ≠ normalizedCompany)
      then <[q := setAnalystCompany (h q) normalizedCompany]> h
      else h
  | None => h
  end.

Record AnalystGroup : Type := mkAnalystGroup {
  groupNormalizedName : string;
  originalNames : list string;
  knownCompany : string;
  entries : list nat
}.

(** [set.add(x)] on an insertion-ordered [Set] *)
Definition setAdd (s : list string) (x : string) : list string :=
  if bool_decide (x ∈ s) then s else s ++ [x].

(** Body of the grouping loop inside one symbol. *)
Definition addToNameGroups (h : heap)
    (analystNameGroups : list (string * AnalystGroup)) (q : ref)
    : result (list (string * AnalystGroup)) :=
  let name := Js.trim (analystName (h q)) in
  nn ← normalizeAnalystName name;
  let key := normalizedName nn in
  let company := analystCompany (h q) in
  let analystGroup :=
    match mapGet analystNameGroups key with
    | Some g => g
    | None => mkAnalystGroup key []
                (if decide (company ≠ "Unknown") then company else "") []
    end in
  Ok (mapSet analystNameGroups key
        (mkAnalystGroup (groupNormalizedName analystGroup)
           (setAdd (originalNames analystGroup) name)
           (if decide (company ≠ "Unknown") then company
            else knownCompany analystGroup)
           (entries analystGroup ++ [q]))).

Fixpoint foldResult {A B : Type} (f : B → A → result B) (l : list A) (b : B)
    : result B :=
  match l with
  | [] => Ok b
  | a :: l' => b' ← f b a; foldResult f l' b'
  end.

Definition buildNameGroups (h : heap) (symbolQuestions : list nat)
    : result (list (string * AnalystGroup)) :=
  foldResult (addToNameGroups h) symbolQuestions [].

(** Body of the loop over the entries of one identity group. *)
Definition consolidateEntry (preferredName known : string)
    (h : heap) (entry : ref) : heap :=
  let h1 :=
    if decide (analystName (h entry) ≠ preferredName)
    then <[entry := setAnalystName (h entry) preferredName]> h else h in
  if bool_decide (known ≠ "") && bool_decide (analystCompany (h1 entry) ≠ known)
  then <[entry := setAnalystCompany (h1 entry) known]> h1 else h1.

Definition consolidateGroups (analystNameGroups : list (string * AnalystGroup))
    (h : heap) (final : list nat) : (nat → AnalystQuestion) * list nat :=
  fold_left
    (fun st ng =>
       (fold_left (consolidateEntry ng.1 (knownCompany ng.2)) (entries ng.2) st.1,
        st.2 ++ entries ng.2))
    analystNameGroups (h, final).

(** What a call leaves behind: the returned array and the heap, or the
    exception and the heap as it was when it was thrown. *)
Inductive outcome : Type :=
| Returned (h : heap) (questions : list nat)
| Thrown (h : heap) (e : jsError).

Fixpoint consolidateSymbols (symbolGroups : list (string * list nat))
    (h : heap) (final : list nat) : outcome :=
  match symbolGroups with
  | [] => Returned h final
  | (_, symbolQuestions) :: rest =>
      match buildNameGroups h symbolQuestions with
      | Throw e => Thrown h e
      | Ok analystNameGroups =>
          let st := consolidateGroups analystNameGroups h final in
          consolidateSymbols rest st.1 st.2
      end
  end.

(** The first phase: the array regrouped by transcript, and the heap after
    the operator assignments. *)
Definition transcriptProcessed (h : heap) (questions : list nat) : list nat :=
  concat (map snd (groupByKey (fun q => transcriptId (h q)) questions)).

Definition applyOperatorAssignments (operatorAnalystInfo : gmap string string)
    (h : heap) (questions : list nat) : heap :=
  fold_left (assignOperatorCompany operatorAnalystInfo)
    (transcriptProcessed h questions) h.

Definition applyCompanyWideAnalystConsolidation
    (questions : list nat) (operatorAnalystInfo : gmap string string)
    (h : heap) : outcome :=
  let transcriptProcessedQuestions := transcriptProcessed h questions in
  let h1 := applyOperatorAssignments operatorAnalystInfo h questions in
  let symbolGroups :=
    groupByKey (fun q => symbol (h1 q)) transcriptProcessedQuestions in
  consolidateSymbols symbolGroups h1 [].

(** *** Concrete runs *)

Definition mkQ (name title company : string) (tid : Z) (sym : string)
    : AnalystQuestion :=
  mkAnalystQuestion name title company "Can you comment on margins"
    tid sym "Q1" 2024 "Earnings Call".

Definition heapOf (l : list AnalystQuestion) : heap :=
  fun r => default (mkQ "" "" "Unknown" 0 "") (l !! r).

(** The fields of the listed records after a run ([None] when it threw). *)
Definition fieldsAfter (o : outcome) (rs : list nat)
    : option (list (string * string)) :=
  match o with
  | Returned h _ => Some (map (fun r => (analystName (h r), analystCompany (h r))) rs)
  | Thrown _ _ => None
  end.

Definition scenarioB : list AnalystQuestion :=
  [ mkQ "Mike Ng" "Analyst" "Unknown" 1 "MSFT";
    mkQ "Michael Ng" "Analyst" "Unknown" 2 "MSFT" ].

(** *** The two phases, record by record *)

(** What the transcript loop does to one record. *)
Definition attributeOperator (operatorAnalystInfo : gmap string string)
    (x : AnalystQuestion) : AnalystQuestion :=
  match operatorAnalystInfo !! Js.trim (analystName x) with
  | Some operatorCompany => setAnalystCompany x (normalizeCompanyName operatorCompany)
  | None => x
  end.

(** What the entry loop does to one record of a group. *)
Definition mergeIdentity (preferredName known : string)
    (x : AnalystQuestion) : AnalystQuestion :=
  let x1 := setAnalystName x preferredName in
  if bool_decide (known ≠ "") then setAnalystCompany x1 known else x1.

Definition isOk {A : Type} (r : result A) : bool :=
  match r with Ok _ => true | Throw _ => false end.

(** The key under which the grouping loop files a record. *)
Definition normalizes (x : AnalystQuestion) : bool :=
  isOk (normalizeAnalystName (Js.trim (analystName x))).

Definition personKey (x : AnalystQuestion) : string :=
  match normalizeAnalystName (Js.trim (analystName x)) with
  | Ok nn => normalizedName nn
  | Throw _ => ""
  end.

(** [knownCompany] of a group whose entries carry [companies], in order. *)
Definition lastKnown (companies : list string) : string :=
  fold_left (fun known c => if decide (c ≠ "Unknown") then c else known)
    companies "".

(** The identity group of [x]: the processed questions with the symbol
    and the person key of [x]. *)
Definition sameIdentity (x y : AnalystQuestion) : Prop :=
  symbol y = symbol x ∧ personKey y = personKey x.

Global Instance sameIdentity_dec x y : Decision (sameIdentity x y).
Proof. unfold sameIdentity. apply _. Defined.

(** The fields consolidation has no business with. *)
Definition sameFrame (x y : AnalystQuestion) : Prop :=
  question y = question x ∧ analystTitle y = analystTitle x ∧
  transcriptId y = transcriptId x ∧ symbol y = symbol x ∧
  quarter y = quarter x ∧ year y = year x ∧
  transcriptTitle y = transcriptTitle x.

(** The group the grouping loop has built once the entries [es] were filed
    under the key [n]. *)
Definition nameGroupOf (h : heap) (n : string) (es : list nat) : AnalystGroup :=
  mkAnalystGroup n
    (fold_left setAdd (map (fun q => Js.trim (analystName (h q))) es) [])
    (lastKnown (map (fun q => analystCompany (h q)) es))
    es.

Definition nameGroupsOf (h : heap) (symbolQuestions : list nat)
    : list (string * AnalystGroup) :=
  map (fun kv => (kv.1, nameGroupOf h kv.1 kv.2))
    (groupByKey (fun q => personKey (h q)) symbolQuestions).

(** [knownCompany] of the identity group of [x] among the questions [l]
    of the heap [h]. *)
Definition groupCompany (h : heap) (l : list nat) (x : AnalystQuestion) : string :=
  lastKnown
    (map (fun q => analystCompany (h q)) (filter (fun q => sameIdentity x (h q)) l)).

(** The record the identity merge leaves for [x]. *)
Definition mergedRecord (h : heap) (l : list nat) (x : AnalystQuestion)
    : AnalystQuestion :=
  mergeIdentity (personKey x) (groupCompany h l x) x.

(** The heap with the operator assignment made on every record. *)
Definition afterOperator (operatorAnalystInfo : gmap string string) (h : heap)
    : heap :=
  fun r => attributeOperator operatorAnalystInfo (h r).

(** *** Predicates on strings used in the statements *)

Fixpoint noSpaces (s : string) : bool :=
  match s with
  | "" => true
  | String c s' => negb (Js.isSpace c) && noSpaces s'
  end.

(** The heap a call leaves behind, however it ended. *)
Definition finalHeap (o : outcome) : heap :=
  match o with
  | Returned h _ => h
  | Thrown h _ => h
  end.

(** What the code requires of an entry of [nameVariations] for a normalized
    name to be stable: the long form is a lower-case word that is not itself
    a short form. *)
Definition longFormOk (kv : string * string) : bool :=
  match nameVariationsAt kv.2 with Undefined => true | _ => false end
  && noSpaces kv.2
  && negb (bool_decide (kv.2 = ""))
  && bool_decide (Js.toLowerCase kv.2 = kv.2).

Definition returnedQuestions (o : outcome) : list nat :=
  match o with
  | Returned _ qs => qs
  | Thrown _ _ => []
  end.

(** *** Record sets of the concrete runs *)



Definition threeRecords : list AnalystQuestion :=
  [ mkQ "Mike Ng" "Analyst" "Unknown" 1 "MSFT";
    mkQ "Michael Ng" "Analyst" "Goldman Sachs" 2 "MSFT";
    mkQ "Michael Ng" "Analyst" "Barclays" 3 "MSFT" ].

Definition titleOnlyRecords : list AnalystQuestion :=
  [ mkQ "Mike Ng" "Goldman Sachs Analyst" "Goldman Sachs" 1 "MSFT" ].





(** ** Regular expressions

    A backtracking matcher for the constructs the patterns of the source
    use, with the choices taken in the order of the ECMAScript matcher:
    the left alternative first, a greedy quantifier for as many rounds as
    possible first, a lazy one for as few.  A round of a star that consumes
    nothing is rejected, as the language prescribes. *)

Module Regex.

Inductive t : Type :=
| Char (p : ascii → bool)      (* one character of a class *)
| Empty
| Seq (r1 r2 : t)
| Alt (r1 r2 : t)
| Star (greedy : bool) (r : t)
| Group (i : nat) (r : t)      (* capturing group number [i] *)
| Bol                          (* ^ *)
| Eol                          (* $ *)
| WordBoundary.                (* \b *)

(** Where the matcher stands: [pos] characters are behind it, the last of
    them is [prev], [rest] lies ahead; [caps] are the groups closed so
    far, as pairs of positions. *)
Record state : Type := mkState {
  pos : nat;
  prev : option ascii;
  rest : string;
  caps : list (nat * (nat * nat))
}.

Definition isDigit (c : ascii) : bool :=
  let n := nat_of_ascii c in (48 <=? n)%nat && (n <=? 57)%nat.
Definition isLetter (c : ascii) : bool :=
  let n := nat_of_ascii c in
  ((65 <=? n)%nat && (n <=? 90)%nat) || ((97 <=? n)%nat && (n <=? 122)%nat).
(** \w *)
Definition isWordChar (c : ascii) : bool :=
  isLetter c || isDigit c || bool_decide (c = "_"%char).
(** . *)
Definition notNewline (c : ascii) : bool :=
  negb (bool_decide (c = "010"%char) || bool_decide (c = "013"%char)).

Definition wordBefore (st : state) : bool :=
  match prev st with Some c => isWordChar c | None => false end.
Definition wordAhead (st : state) : bool :=
  match rest st with String c _ => isWordChar c | "" => false end.

Definition orElse {A : Type} (x : option A) (y : unit → option A) : option A :=
  match x with Some a => Some a | None => y tt end.

(** [run r st k]: match [r] at [st], then continue with [k]; [None] makes
    the matcher backtrack.  The star runs on fuel: every accepted round
    moves [pos] forward, so one more than the length of [rest] is never
    used up. *)
Fixpoint run (r : t) (st : state) (k : state → option state) {struct r}
    : option state :=
  match r with
  | Char p =>
      match rest st with
      | String c s' =>
          if p c then k (mkState (S (pos st)) (Some c) s' (caps st)) else None
      | "" => None
      end
  | Empty => k st
  | Seq r1 r2 => run r1 st (fun st1 => run r2 st1 k)
  | Alt r1 r2 => orElse (run r1 st k) (fun _ => run r2 st k)
  | Star greedy r1 =>
      (fix rounds (fuel : nat) (st0 : state) {struct fuel} : option state :=
         match fuel with
         | O => None
         | S fuel' =>
             let again := fun (_ : unit) =>
               run r1 st0 (fun st1 =>
                 if (pos st0 <? pos st1)%nat then rounds fuel' st1 else None) in
             if greedy then orElse (again tt) (fun _ => k st0)
             else orElse (k st0) again
         end) (S (String.length (rest st))) st
  | Group i r1 =>
      run r1 st (fun st1 =>
        k (mkState (pos st1) (prev st1) (rest st1)
             ((i, (pos st, pos st1)) :: caps st1)))
  | Bol => if (pos st =? 0)%nat then k st else None
  | Eol => match rest st with "" => k st | _ => None end
  | WordBoundary => if xorb (wordBefore st) (wordAhead st) then k st else None
  end.

(** A match: where it starts and ends, and the text of its groups. *)
Record found : Type := mkFound {
  start : nat;
  stop : nat;
  groups : list (nat * string)
}.

Definition group (m : found) (i : nat) : option string :=
  snd <$> find (fun g => (g.1 =? i)%nat) (groups m).

Definition foundAt (input : string) (from : nat) (st : state) : found :=
  mkFound from (pos st)
    (map (fun c => (c.1, substring (c.2).1 ((c.2).2 - (c.2).1) input)) (caps st)).

(** Try every starting place from the current one to the end. *)
Fixpoint search (r : t) (input : string) (p : nat) (pv : option ascii)
    (rs : string) : option found :=
  match run r (mkState p pv rs []) Some with
  | Some st => Some (foundAt input p st)
  | None =>
      match rs with
      | String c rs' => search r input (S p) (Some c) rs'
      | "" => None
      end
  end.

Fixpoint dropChars (n : nat) (pv : option ascii) (s : string) : option ascii * string :=
  match n, s with
  | S n', String c s' => dropChars n' (Some c) s'
  | _, _ => (pv, s)
  end.

(** [r.exec(input)] with [lastIndex = from]; [from = 0] for a pattern
    without the [g] flag, for [input.match(r)] and for [r.test(input)]. *)
Definition exec (r : t) (input : string) (from : nat) : option found :=
  if (String.length input <? from)%nat then None
  else let ps := dropChars from None input in search r input from ps.1 ps.2.

Definition test (r : t) (input : string) : bool :=
  match exec r input 0 with Some _ => true | None => false end.

(** [while ((m = r.exec(input)) !== null)] for a pattern with the [g]
    flag: the matches in order.  The patterns used with it match no empty
    string, so [lastIndex] grows with every match and the fuel (one more
    than the length of the input) is not used up. *)
Fixpoint execAll_go (fuel : nat) (r : t) (input : string) (lastIndex : nat)
    : list found :=
  match fuel with
  | O => []
  | S fuel' =>
      match exec r input lastIndex with
      | None => []
      | Some m =>
          if (lastIndex <? stop m)%nat then m :: execAll_go fuel' r input (stop m)
          else [m]
      end
  end.

Definition execAll (r : t) (input : string) : list found :=
  execAll_go (S (String.length input)) r input 0.

(** [input.replace(r, '')]: once without the [g] flag, everywhere with
    it (again for patterns that match no empty string). *)
Definition cut (input : string) (m : found) : string * string :=
  (substring 0 (start m) input,
   substring (stop m) (String.length input - stop m) input).

Definition removeFirst (r : t) (input : string) : string :=
  match exec r input 0 with
  | None => input
  | Some m => (cut input m).1 +:+ (cut input m).2
  end.

Fixpoint removeRanges (ms : list found) (input : string) (p : nat) : string :=
  match ms with
  | [] => substring p (String.length input - p) input
  | m :: ms' => substring p (start m - p) input +:+ removeRanges ms' input (stop m)
  end.

Definition removeAll (r : t) (input : string) : string :=
  removeRanges (execAll r input) input 0.

(** *** Notation of patterns *)

Definition any : t := Char (fun _ => true).                 (* [\s\S] *)
Definition dot : t := Char notNewline.                      (* . *)
Definition space : t := Char Js.isSpace.                    (* \s *)
Definition word : t := Char isWordChar.                     (* \w *)
Definition chr (c : ascii) : t := Char (fun x => bool_decide (x = c)).
(** a letter under the [i] flag *)
Definition chrI (c : ascii) : t :=
  Char (fun x => bool_decide (Js.lowerChar x = Js.lowerChar c)).

Fixpoint lit (s : string) : t :=
  match s with
  | "" => Empty
  | String c "" => chr c
  | String c s' => Seq (chr c) (lit s')
  end.
Fixpoint litI (s : string) : t :=
  match s with
  | "" => Empty
  | String c "" => chrI c
  | String c s' => Seq (chrI c) (litI s')
  end.

Definition plus (r : t) : t := Seq r (Star true r).         (* r+ *)
Definition plusLazy (r : t) : t := Seq r (Star false r).    (* r+? *)
Definition star (r : t) : t := Star true r.                 (* r* *)
Definition starLazy (r : t) : t := Star false r.            (* r*? *)
Definition opt (r : t) : t := Alt r Empty.                  (* r? *)

Fixpoint alts (rs : list t) : t :=
  match rs with
  | [] => Empty
  | [r] => r
  | r :: rs' => Alt r (alts rs')
  end.
Fixpoint seqs (rs : list t) : t :=
  match rs with
  | [] => Empty
  | [r] => r
  | r :: rs' => Seq r (seqs rs')
  end.

End Regex.


(** ** Values

    What [JSON.parse] can return, and [undefined].  A number is an integer,
    printed in decimal. *)

#[local] Unset Elimination Schemes.
Inductive jsval : Type :=
| JUndefined
| JNull
| JBool (b : bool)
| JNum (n : Z)
| JStr (s : string)
| JArr (items : list jsval)
| JObj (fields : list (string * jsval)).
#[local] Set Elimination Schemes.

Definition truthy (v : jsval) : bool :=
  match v with
  | JUndefined | JNull => false
  | JBool b => b
  | JNum n => negb (n =? 0)%Z
  | JStr s => negb (bool_decide (s = ""))
  | JArr _ | JObj _ => true
  end.

Definition nullish (v : jsval) : bool :=
  match v with JUndefined | JNull => true | _ => false end.

(** [a || b] *)
Definition orJs (a b : jsval) : jsval := if truthy a then a else b.

(** An own property of an object literal read by [JSON.parse]: the last
    binding of a repeated key wins. *)
Definition ownField (fields : list (string * jsval)) (k : string) : option jsval :=
  snd <$> find (fun kv => bool_decide (kv.1 = k)) (rev fields).

(** [v.k] for the property names the source reads: [speaker], [title],
    [content] and [length]; none of them is inherited by an object. *)
Definition getProp (v : jsval) (k : string) : result jsval :=
  match v with
  | JUndefined | JNull => Throw TypeError
  | JObj fields => Ok (default JUndefined (ownField fields k))
  | JArr items =>
      Ok (if bool_decide (k = "length") then JNum (Z.of_nat (length items))
          else JUndefined)
  | JStr s =>
      Ok (if bool_decide (k = "length") then JNum (Z.of_nat (String.length s))
          else JUndefined)
  | JBool _ | JNum _ => Ok JUndefined
  end.

(** The receiver of a string method: anything but a string has no such
    method (or none that can be called). *)
Definition asString (v : jsval) : result string :=
  match v with
  | JStr s => Ok s
  | _ => Throw TypeError
  end.

(** [String(v)], as a template literal and [RegExp.prototype.exec] apply it;
    [None] when the conversion throws: an object that carries its own
    [toString] has no callable one. *)
Fixpoint stringOf (v : jsval) : option string :=
  match v with
  | JUndefined => Some "undefined"
  | JNull => Some "null"
  | JBool b => Some (if b then "true" else "false")
  | JNum n => Some (NilZero.string_of_int (Z.to_int n))
  | JStr s => Some s
  | JArr items =>
      (fix join (l : list jsval) : option string :=
         match l with
         | [] => Some ""
         | x :: l' =>
             sx ← (if nullish x then Some "" else stringOf x);
             match l' with
             | [] => Some sx
             | _ => sr ← join l'; Some (sx +:+ "," +:+ sr)
             end
         end) items
  | JObj fields =>
      match ownField fields "toString" with
      | Some _ => None
      | None => Some "[object Object]"
      end
  end.

Definition toJsString (v : jsval) : result string :=
  match stringOf v with
  | Some s => Ok s
  | None => Throw TypeError
  end.

(** [for (const x of v)] *)
Fixpoint chars (s : string) : list jsval :=
  match s with
  | "" => []
  | String c s' => JStr (String c "") :: chars s'
  end.

Definition iterate (v : jsval) : result (list jsval) :=
  match v with
  | JArr items => Ok items
  | JStr s => Ok (chars s)
  | _ => Throw TypeError
  end.

(** ** Transcripts and turns *)

Module Transcript.
Record t : Type := make {
  id : Z;
  symbol : string;
  quarter : string;
  year : Z;
  title : string;
  content : jsval
}.
End Transcript.

(** The object literal [{ speaker, title, content }]. *)
Definition turnObject (speaker title content : string) : jsval :=
  JObj [("speaker", JStr speaker); ("title", JStr title); ("content", JStr content)].

(** [text.split('\n\n')] *)
Fixpoint splitParagraphs_go (cur s : string) : list string :=
  match s with
  | "" => [cur]
  | String c s' =>
      match s' with
      | String c' s'' =>
          if bool_decide (c = "010"%char) && bool_decide (c' = "010"%char)
          then cur :: splitParagraphs_go "" s''
          else splitParagraphs_go (cur +:+ String c "") s'
      | "" => [cur +:+ String c ""]
      end
  end.

Definition splitParagraphs (s : string) : list string := splitParagraphs_go "" s.

(** [/^(.+?)\s*\((.+?)\):\s*([\s\S]+)$/] *)
Definition speakerPattern : Regex.t :=
  Regex.seqs
    [ Regex.Bol; Regex.Group 1 (Regex.plusLazy Regex.dot); Regex.star Regex.space;
      Regex.chr "("; Regex.Group 2 (Regex.plusLazy Regex.dot); Regex.lit "):";
      Regex.star Regex.space; Regex.Group 3 (Regex.plus Regex.any); Regex.Eol ].

Definition groupOr (m : Regex.found) (i : nat) : string :=
  default "" (Regex.group m i).

(** The text fallback of the two question extractors: a paragraph that does
    not match is dropped. *)
Definition textSegments (text : string) : list jsval :=
  omap (fun line =>
          (fun m => turnObject (groupOr m 1) (groupOr m 2) (groupOr m 3))
            <$> Regex.exec speakerPattern line 0)
       (splitParagraphs text).

(** The text branch of the prepared-statement extractor trims the pieces. *)
Definition textSpeakers (text : string) : list jsval :=
  omap (fun line =>
          (fun m => turnObject (Js.trim (groupOr m 1)) (Js.trim (groupOr m 2))
                      (Js.trim (groupOr m 3)))
            <$> Regex.exec speakerPattern line 0)
       (splitParagraphs text).

Section Extraction.

(** [JSON.parse]: the value, or [SyntaxError]. *)
Variable JSON_parse : string → result jsval.

(** The opening lines shared by [extractOperatorAnalystInfo] and
    [extractAnalystQuestionsFromSingleTranscript]. *)
Definition segmentsOf (transcript : Transcript.t) : jsval :=
  match Transcript.content transcript with
  | JArr items => JArr items
  | JStr text =>
      match JSON_parse text with
      | Ok v => v
      | Throw _ => JArr (textSegments text)
      end
  | _ => JArr []
  end.

(** *** Operator introductions: [extractOperatorAnalystInfo] *)

(** [[A-Za-z\s\.'-]] and [[A-Za-z\s&\.\-]] *)
Definition nameChar (c : ascii) : bool :=
  Regex.isLetter c || Js.isSpace c || bool_decide (c = "."%char)
  || bool_decide (c = "'"%char) || bool_decide (c = "-"%char).
Definition companyChar (c : ascii) : bool :=
  Regex.isLetter c || Js.isSpace c || bool_decide (c = "&"%char)
  || bool_decide (c = "."%char) || bool_decide (c = "-"%char).

Definition nameGroup : Regex.t := Regex.Group 1 (Regex.plusLazy (Regex.Char nameChar)).
Definition companyGroup : Regex.t :=
  Regex.Group 2 (Regex.plusLazy (Regex.Char companyChar)).
Definition spaces : Regex.t := Regex.plus Regex.space.
Definition withFromAt : Regex.t :=
  Regex.alts [Regex.litI "with"; Regex.litI "from"; Regex.litI "at"].
(** [(?:\.|,|please|go ahead|\s*$)] *)
Definition introEnd : Regex.t :=
  Regex.alts [ Regex.chr "."; Regex.chr ","; Regex.litI "please";
               Regex.litI "go ahead"; Regex.Seq (Regex.star Regex.space) Regex.Eol ].
(** [(?:\.|please|go ahead|\s*$)] *)
Definition introEndNoComma : Regex.t :=
  Regex.alts [ Regex.chr "."; Regex.litI "please"; Regex.litI "go ahead";
               Regex.Seq (Regex.star Regex.space) Regex.Eol ].

(** The four patterns of the [patterns] array, all with the flags [gi]. *)
Definition operatorPatterns : list Regex.t :=
  [ (* (?:first|next|following)\s+question\s+(?:is\s+from|comes\s+from)\s+
       (name)\s+(?:with|from|at)\s+(company)(end) *)
    Regex.seqs
      [ Regex.alts [Regex.litI "first"; Regex.litI "next"; Regex.litI "following"];
        spaces; Regex.litI "question"; spaces;
        Regex.alts [ Regex.seqs [Regex.litI "is"; spaces; Regex.litI "from"];
                     Regex.seqs [Regex.litI "comes"; spaces; Regex.litI "from"] ];
        spaces; nameGroup; spaces; withFromAt; spaces; companyGroup; introEnd ];
    (* (\w+\s+\w+(?:\s+\w+)?)\s+(?:with|from|at)\s+(company)(end) *)
    Regex.seqs
      [ Regex.Group 1
          (Regex.seqs [ Regex.plus Regex.word; spaces; Regex.plus Regex.word;
                        Regex.opt (Regex.Seq spaces (Regex.plus Regex.word)) ]);
        spaces; withFromAt; spaces; companyGroup; introEnd ];
    (* (name),\s*(company)(?:\.|please|go ahead|\s*$) *)
    Regex.seqs
      [ nameGroup; Regex.chr ","; Regex.star Regex.space; companyGroup;
        introEndNoComma ];
    (* (name)\s+from\s+(company)(end) *)
    Regex.seqs
      [ nameGroup; spaces; Regex.litI "from"; spaces; companyGroup; introEnd ] ].

(** [/^(the line of|line of)\s+/gi] *)
Definition lineOfPattern : Regex.t :=
  Regex.seqs [ Regex.Bol;
               Regex.Group 1 (Regex.alts [Regex.litI "the line of"; Regex.litI "line of"]);
               spaces ].
(** [/\b(please go ahead|go ahead|your question)\b/gi] *)
Definition fillerPattern : Regex.t :=
  Regex.seqs [ Regex.WordBoundary;
               Regex.Group 1 (Regex.alts [ Regex.litI "please go ahead";
                                           Regex.litI "go ahead";
                                           Regex.litI "your question" ]);
               Regex.WordBoundary ].
(** [/[.,;]$/] *)
Definition trailingPunctuation : Regex.t :=
  Regex.Seq
    (Regex.Char (fun c => bool_decide (c = "."%char) || bool_decide (c = ","%char)
                          || bool_decide (c = ";"%char)))
    Regex.Eol.

(** Body of the [while] loop for one match. *)
Definition recordIntroduction (info : list (string * string)) (m : Regex.found)
    : list (string * string) :=
  let analystName := Js.trim (groupOr m 1) in
  let company := Js.trim (groupOr m 2) in
  let analystName := Js.trim (Regex.removeAll lineOfPattern analystName) in
  let company := Js.trim (Regex.removeAll fillerPattern company) in
  let company := Js.trim (Regex.removeFirst trailingPunctuation company) in
  if (0 <? String.length analystName)%nat && (0 <? String.length company)%nat
  then mapSet info analystName company
  else info.

Definition scanIntroductions (info : list (string * string)) (text : string)
    : list (string * string) :=
  fold_left
    (fun info pattern => fold_left recordIntroduction (Regex.execAll pattern text) info)
    operatorPatterns info.

(** Body of the loop over the segments. *)
Definition scanSegment (info : list (string * string)) (segment : jsval)
    : result (list (string * string)) :=
  speaker ← getProp segment "speaker";
  (* segment.speaker?.toLowerCase().includes('operator') *)
  isOperator ←
    (if nullish speaker then Ok false
     else s ← asString speaker; Ok (Js.includes (Js.toLowerCase s) "operator"));
  if isOperator : bool then
    c ← getProp segment "content";
    text ← toJsString (orJs c (JStr ""));
    Ok (scanIntroductions info text)
  else Ok info.

Definition extractOperatorAnalystInfo (transcript : Transcript.t)
    : result (list (string * string)) :=
  segments ← iterate (segmentsOf transcript);
  foldResult scanSegment segments [].

(** *** Questions of one transcript:
        [extractAnalystQuestionsFromSingleTranscript] *)

(** [/\b(what|how|...|is there)\b/i] *)
Definition questionWords : Regex.t :=
  Regex.seqs
    [ Regex.WordBoundary;
      Regex.Group 1
        (Regex.alts
           (map Regex.litI
              [ "what"; "how"; "when"; "where"; "why"; "can you"; "could you";
                "would you"; "do you"; "are you"; "will you"; "is there" ]));
      Regex.WordBoundary ].

Definition titleCompany : Regex.t :=
  Regex.Group 1 (Regex.plusLazy (Regex.Char companyChar)).
(** [(?:\s|$|,|\.|;)] *)
Definition titleEnd : Regex.t :=
  Regex.alts [ Regex.space; Regex.Eol; Regex.chr ","; Regex.chr "."; Regex.chr ";" ].
Definition spaces0 : Regex.t := Regex.star Regex.space.
(** [(?:\s*X\s*analyst|\s*analyst)] *)
Definition beforeAnalyst (x : ascii) : Regex.t :=
  Regex.alts [ Regex.seqs [spaces0; Regex.chr x; spaces0; Regex.litI "analyst"];
               Regex.Seq spaces0 (Regex.litI "analyst") ].

(** The seven patterns of [extractCompany], all with the flag [i]. *)
Definition titlePatterns : list Regex.t :=
  [ Regex.seqs [withFromAt; spaces; titleCompany; titleEnd];
    Regex.seqs [ titleCompany; spaces0;
                 Regex.alts [Regex.litI "analyst"; Regex.litI "research";
                             Regex.litI "equity"] ];
    Regex.seqs [ Regex.litI "analyst"; Regex.starLazy Regex.dot;
                 Regex.alts [Regex.litI "with"; Regex.litI "at"; Regex.litI "from"];
                 spaces; titleCompany; titleEnd ];
    Regex.Seq titleCompany (beforeAnalyst "-");
    Regex.Seq titleCompany (beforeAnalyst ",");
    Regex.Seq titleCompany (beforeAnalyst "|");
    Regex.seqs [Regex.Bol; titleCompany; spaces0; Regex.litI "analyst"] ].

(** [/\b(analyst|research|equity)\b/gi] *)
Definition roleWords : Regex.t :=
  Regex.seqs [ Regex.WordBoundary;
               Regex.Group 1 (Regex.alts [Regex.litI "analyst"; Regex.litI "research";
                                          Regex.litI "equity"]);
               Regex.WordBoundary ].

Fixpoint extractCompany_go (patterns : list Regex.t) (title : string) : string :=
  match patterns with
  | [] => "Unknown"
  | pattern :: rest =>
      match Regex.exec pattern title 0 with
      | Some m =>
          if negb (bool_decide (groupOr m 1 = "")) then
            let company := Js.trim (groupOr m 1) in
            let company := Js.trim (Regex.removeAll roleWords company) in
            if (2 <? String.length company)%nat
               && negb (Js.includes (Js.toLowerCase company) "unknown")
            then normalizeCompanyName company
            else extractCompany_go rest title
          else extractCompany_go rest title
      | None => extractCompany_go rest title
      end
  end.

Definition extractCompany (title : string) : string :=
  extractCompany_go titlePatterns title.

Definition isAnalystTitle (speakerTitle : string) : bool :=
  let t := Js.toLowerCase speakerTitle in
  (Js.includes t "analyst" || Js.includes t "research" || Js.includes t "equity")
  && negb (Js.includes t "operator")
  && negb (Js.includes t "ceo")
  && negb (Js.includes t "cfo")
  && negb (Js.includes t "investor relations").

(** [content.includes('?')]: a string method, and an array method too. *)
Definition includesQuestionMark (content : jsval) : result bool :=
  match content with
  | JStr s => Ok (Js.includes s "?")
  | JArr items =>
      Ok (existsb (fun x => match x with
                            | JStr s => bool_decide (s = "?")
                            | _ => false
                            end) items)
  | _ => Throw TypeError
  end.

Definition hasQuestion (content : jsval) : result bool :=
  mark ← includesQuestionMark content;
  if mark : bool then Ok true
  else text ← toJsString content; Ok (Regex.test questionWords text).

(** [operatorAnalystInfo.get(speakerName)]: the keys are strings. *)
Definition operatorInfoFor (operatorAnalystInfo : gmap string string)
    (speakerName : jsval) : option string :=
  match speakerName with
  | JStr s => operatorAnalystInfo !! s
  | _ => None
  end.

(** Body of the loop over the segments. *)
Definition questionOfSegment (transcript : Transcript.t)
    (operatorAnalystInfo : gmap string string)
    (questions : list AnalystQuestion) (segment : jsval)
    : result (list AnalystQuestion) :=
  speakerName ← getProp segment "speaker";
  speakerTitle ← getProp segment "title";
  content ← getProp segment "content";
  titleText ← asString speakerTitle;
  if isAnalystTitle titleText then
    asks ← hasQuestion content;
    if asks : bool then
      analystCompany ←
        match operatorInfoFor operatorAnalystInfo speakerName with
        | Some company => Ok (normalizeCompanyName company)
        | None =>
            (* the log line prints speakerName *)
            _ ← toJsString speakerName;
            Ok (extractCompany titleText)
        end;
      name ← asString speakerName;
      text ← asString content;
      Ok (questions ++
            [ mkAnalystQuestion (Js.trim name) (Js.trim titleText) analystCompany
                (Js.trim text) (Transcript.id transcript)
                (Transcript.symbol transcript) (Transcript.quarter transcript)
                (Transcript.year transcript) (Transcript.title transcript) ])
    else Ok questions
  else Ok questions.

Definition extractAnalystQuestionsFromSingleTranscript (transcript : Transcript.t)
    (operatorAnalystInfo : gmap string string) : result (list AnalystQuestion) :=
  let segments := segmentsOf transcript in
  (* the log line prints segments.length *)
  len ← getProp segments "length";
  _ ← toJsString len;
  items ← iterate segments;
  foldResult (questionOfSegment transcript operatorAnalystInfo) items [].

(** *** A batch: [extractAnalystQuestionsFromMultipleTranscripts] *)

(** First pass: every entry of every transcript goes into one map. *)
Definition mergeOperatorInfo (global : gmap string string) (transcript : Transcript.t)
    : result (gmap string string) :=
  operatorInfo ← extractOperatorAnalystInfo transcript;
  Ok (fold_left (fun g kv => <[kv.1 := kv.2]> g) operatorInfo global).

Definition collectQuestions (global : gmap string string)
    (allQuestions : list AnalystQuestion) (transcript : Transcript.t)
    : result (list AnalystQuestion) :=
  questions ← extractAnalystQuestionsFromSingleTranscript transcript global;
  Ok (allQuestions ++ questions).

(** The objects the second pass created are the heap of the consolidation,
    in the order of their creation. *)
Definition extractAnalystQuestionsFromMultipleTranscripts
    (transcripts : list Transcript.t) : result (list AnalystQuestion) :=
  globalOperatorAnalystInfo ← foldResult mergeOperatorInfo transcripts ∅;
  allQuestions ← foldResult (collectQuestions globalOperatorAnalystInfo) transcripts [];
  match applyCompanyWideAnalystConsolidation (seq 0 (length allQuestions))
          globalOperatorAnalystInfo (heapOf allQuestions) with
  | Returned h consolidatedQuestions => Ok (map h consolidatedQuestions)
  | Thrown _ e => Throw e
  end.

End Extraction.

(** ** Prepared statements: [extractPreparedStatements] *)

Module PreparedStatement.
Record t : Type := make {
  speakerName : jsval;          (* [speaker.speaker || 'Unknown'] *)
  speakerTitle : string;
  statement : string;
  transcriptId : Z;
  symbol : string;
  quarter : string;
  year : Z;
  transcriptTitle : string
}.
End PreparedStatement.

Definition executiveTitles : list string :=
  [ "CEO"; "CFO"; "COO"; "CTO"; "CRO"; "CMO"; "Chief Executive Officer";
    "Chief Financial Officer"; "Chief Operating Officer"; "Chief Technology Officer";
    "President"; "Vice President"; "VP"; "Senior Vice President"; "SVP";
    "Executive Vice President"; "EVP"; "Vice-Chairman"; "Vice Chairman";
    "Chairman"; "Founder"; "Co-Founder"; "Managing Director"; "Director" ].

(** The tests of the [forEach] callback on the title. *)
Definition isExecutive (title : string) : bool :=
  existsb (fun execTitle => Js.includes (Js.toLowerCase title) (Js.toLowerCase execTitle))
    executiveTitles.

Definition isInvestorRelations (title : string) : bool :=
  let t := Js.toLowerCase title in
  Js.includes t "investor relations"
  || Js.includes t "head of investor relations"
  || Js.includes t "director of investor relations"
  || Js.includes t "vp investor relations"
  || Js.includes t "vice president investor relations".

(** [(speaker.k || '').toLowerCase()] *)
Definition lowerField (speaker : jsval) (k : string) : result string :=
  v ← getProp speaker k;
  s ← asString (orJs v (JStr ""));
  Ok (Js.toLowerCase s).

(** The words that make an operator turn a question-session turn. *)
Definition questionSessionWords (content : string) : bool :=
  Js.includes content "question"
  || Js.includes content "next question"
  || Js.includes content "first question"
  || Js.includes content "our next caller".

(** The log line printed when the boundary is found. *)
Definition logSpeaker (speaker : jsval) : result unit :=
  name ← getProp speaker "speaker";
  _ ← toJsString name;
  t ← getProp speaker "title";
  _ ← toJsString t;
  Ok tt.

(** Body of the loop that looks for the start of the question session:
    does the turn at index [i] start it? *)
Definition startsQuestionSession (i : nat) (speaker : jsval) : result bool :=
  title ← lowerField speaker "title";
  content ← lowerField speaker "content";
  let isOperator := Js.includes title "operator" in
  let isAnalyst := Js.includes title "analyst" in
  if isAnalyst then _ ← logSpeaker speaker; Ok true
  else if isOperator && (0 <? i)%nat && questionSessionWords content
  then _ ← logSpeaker speaker; Ok true
  else Ok false.

(** The loop from index [i] on; [None] stands for [qaStartIndex = -1]. *)
Fixpoint findQaStart_from (i : nat) (speakers : list jsval) : result (option nat) :=
  match speakers with
  | [] => Ok None
  | speaker :: rest =>
      found ← startsQuestionSession i speaker;
      if found : bool then Ok (Some i) else findQaStart_from (S i) rest
  end.

(** [qaStartIndex] after the loop and the test for [-1]. *)
Definition findQaStart (speakers : list jsval) : result nat :=
  found ← findQaStart_from 0 speakers;
  Ok (default (length speakers) found).

(** [speaker.content?.length || 0], printed by the log line of an
    executive. *)
Definition logContentLength (speaker : jsval) : result unit :=
  c ← getProp speaker "content";
  len ← (if nullish c then Ok JUndefined else getProp c "length");
  _ ← toJsString (orJs len (JNum 0));
  Ok tt.

(** The [forEach] callback: the record it pushes, if any. *)
Definition statementOfSpeaker (transcript : Transcript.t) (speaker : jsval)
    : result (option PreparedStatement.t) :=
  t ← getProp speaker "title";
  title ← asString (orJs t (JStr ""));
  let executive := isExecutive title in
  let isAnalyst := Js.includes (Js.toLowerCase title) "analyst" in
  let isOperator := Js.includes (Js.toLowerCase title) "operator" in
  let investorRelations := isInvestorRelations title in
  name ← getProp speaker "speaker";
  _ ← (if executive then _ ← toJsString name; logContentLength speaker else Ok tt);
  if executive && negb isAnalyst && negb isOperator && negb investorRelations then
    c ← getProp speaker "content";
    if truthy c then
      text ← asString c;
      if (100 <? String.length (Js.trim text))%nat then
        Ok (Some (PreparedStatement.make (orJs name (JStr "Unknown")) title
                    (Js.trim text) (Transcript.id transcript)
                    (Transcript.symbol transcript) (Transcript.quarter transcript)
                    (Transcript.year transcript) (Transcript.title transcript)))
      else Ok None
    else Ok None
  else Ok None.

(** [forEach] inside the outer [try]: an exception ends the loop and the
    statements pushed so far are returned. *)
Fixpoint collectStatements (transcript : Transcript.t) (speakers : list jsval)
    (statements : list PreparedStatement.t) : list PreparedStatement.t :=
  match speakers with
  | [] => statements
  | speaker :: rest =>
      match statementOfSpeaker transcript speaker with
      | Ok (Some st) => collectStatements transcript rest (statements ++ [st])
      | Ok None => collectStatements transcript rest statements
      | Throw _ => statements
      end
  end.

(** The log line of the JSON branch: [speakers.length] and the first three
    segments, each read for [speaker], [title] and [content?.length]. *)
Definition logSample (speakers : jsval) : result (list jsval) :=
  len ← getProp speakers "length";
  _ ← toJsString len;
  match speakers with
  | JArr items =>
      _ ← foldResult (fun (_ : unit) s =>
                        _ ← getProp s "speaker";
                        _ ← getProp s "title";
                        c ← getProp s "content";
                        _ ← (if nullish c then Ok JUndefined else getProp c "length");
                        Ok tt)
            (take 3 items) tt;
      Ok items
  | _ => Throw TypeError   (* no [slice], or a [slice] without [map] *)
  end.

Section PreparedStatements.

Variable JSON_parse : string → result jsval.

(** The speakers of the transcript, or the exception that ends the call
    with no statement. *)
Definition speakersOf (transcript : Transcript.t) : result (list jsval) :=
  (* the log line calls content.substring *)
  text ← asString (Transcript.content transcript);
  if Js.startsWith (Js.trim text) "[" || Js.startsWith (Js.trim text) "{" then
    parsed ← JSON_parse text;
    logSample parsed
  else Ok (textSpeakers text).

Definition extractPreparedStatements (transcript : Transcript.t)
    : list PreparedStatement.t :=
  match speakersOf transcript with
  | Throw _ => []
  | Ok speakers =>
      match findQaStart speakers with
      | Throw _ => []
      | Ok qaStartIndex =>
          collectStatements transcript (take qaStartIndex speakers) []
      end
  end.

End PreparedStatements.

(** *** The boundary test on a turn with text fields *)

(** [startsQuestionSession] on the turn [{ speaker, title, content }] at
    index [i]: a title with "analyst", or past index 0 a title with
    "operator" and question-session words in the content. *)
Definition boundaryTurn (i : nat) (title content : string) : bool :=
  Js.includes (Js.toLowerCase title) "analyst"
  || (Js.includes (Js.toLowerCase title) "operator" && (0 <? i)%nat
      && questionSessionWords (Js.toLowerCase content)).

Definition turnOf (t : string * string * string) : jsval :=
  turnObject t.1.1 t.1.2 t.2.

(** *** Transcripts of the concrete runs *)

Definition newline : string := String "010" "".

Definition textTranscript (text : string) : Transcript.t :=
  Transcript.make 1 "MSFT" "Q1" 2024 "Microsoft Q1 2024 Earnings Call" (JStr text).

(** A parser for runs on plain text: it rejects what it is given, as
    [JSON.parse] rejects a text that starts with a name. *)
Definition rejectAll (text : string) : result jsval := Throw SyntaxError.

Definition introductionLine : string :=
  "Our first question comes from Keith Weiss with Morgan Stanley.".

Definition questionParagraph : string :=
  "Keith Weiss (Analyst): What is your Azure growth outlook?".

(** The introduction is spoken by a turn titled Operator whose speaker field
    is a person's name ... *)
Definition titledOperatorText : string :=
  "Jane Smith (Operator): " +:+ introductionLine +:+ newline +:+ newline
  +:+ questionParagraph.

(** ... and by a turn whose speaker field says Operator under another
    title. *)
Definition namedOperatorText : string :=
  "Operator (Moderator): " +:+ introductionLine +:+ newline +:+ newline
  +:+ questionParagraph.

Definition ceoRemarks : string :=
  "Thank you for joining us today. We delivered strong results this quarter, "
  +:+ "with revenue growth across every segment and continued momentum in cloud.".

Definition irRemarks : string :=
  "Good afternoon and thank you for joining us. On the call with me are our "
  +:+ "chief executive officer and our chief financial officer, who will speak next.".

(** An operator opens the call announcing the question session to come;
    the chief executive and the head of investor relations speak after. *)
Definition openingTurns : list (string * string * string) :=
  [ ("Operator", "Operator",
     "Welcome to the call. A question and answer session will follow the remarks.");
    ("Satya Nadella", "CEO", ceoRemarks);
    ("Brett Iversen", "Director of Investor Relations", irRemarks) ].

Definition paragraphOf (t : string * string * string) : string :=
  t.1.1 +:+ " (" +:+ t.1.2 +:+ "): " +:+ t.2.

Definition openingText : string :=
  paragraphOf ("Operator", "Operator",
     "Welcome to the call. A question and answer session will follow the remarks.")
  +:+ newline +:+ newline +:+ paragraphOf ("Satya Nadella", "CEO", ceoRemarks)
  +:+ newline +:+ newline
  +:+ paragraphOf ("Brett Iversen", "Director of Investor Relations", irRemarks).

(** A batch of two transcripts: the second holds the text of a JSON object
    (what an upstream error reply looks like). *)
Definition objectText : string := "{}".

Definition parseObjectText (text : string) : result jsval :=
  if bool_decide (text = objectText) then Ok (JObj []) else Throw SyntaxError.

Definition mixedBatch : list Transcript.t :=
  [ textTranscript namedOperatorText;
    Transcript.make 2 "MSFT" "Q2" 2024 "Microsoft Q2 2024 Earnings Call" (JStr objectText) ].


(** ** More predicates used in the statements *)

(** The first word of the name, lower-cased, is a property that
    [nameVariations] inherits. *)
Definition inheritedFirstWord (name : string) : Prop :=
  firstPart (Js.splitSpaces (Js.trim name)) ∈ inheritedLowerCaseKeys.

(** An entry the operator scan keeps: a name and a company that are trimmed and not
    empty. *)
Definition cleanEntry (kv : string * string) : Prop :=
  kv.1 ≠ "" ∧ kv.2 ≠ "" ∧ Js.trim kv.1 = kv.1 ∧ Js.trim kv.2 = kv.2.


(** ** Prepared statements of turns with text fields *)

(** The index at which the scan for the question session stops on turns
    with text fields, counted from [i]; the number of turns when none
    starts the session. *)
Fixpoint boundaryIndex_from (i : nat) (turns : list (string * string * string)) : nat :=
  match turns with
  | [] => i
  | t :: rest =>
      if boundaryTurn i t.1.2 t.2 then i else boundaryIndex_from (S i) rest
  end.

(** The tests of the [forEach] callback on the turn [{ speaker, title,
    content }]. *)
Definition preparedTurn (t : string * string * string) : bool :=
  isExecutive t.1.2
  && negb (Js.includes (Js.toLowerCase t.1.2) "analyst")
  && negb (Js.includes (Js.toLowerCase t.1.2) "operator")
  && negb (isInvestorRelations t.1.2)
  && negb (bool_decide (t.2 = ""))
  && (100 <? String.length (Js.trim t.2))%nat.

(** The record the callback pushes for such a turn. *)
Definition statementOfTurn (transcript : Transcript.t) (t : string * string * string)
    : option PreparedStatement.t :=
  if preparedTurn t then
    Some (PreparedStatement.make
            (if bool_decide (t.1.1 = "") then JStr "Unknown" else JStr t.1.1)
            t.1.2 (Js.trim t.2) (Transcript.id transcript)
            (Transcript.symbol transcript) (Transcript.quarter transcript)
            (Transcript.year transcript) (Transcript.title transcript))
  else None.

Definition cfoRemarks : string :=
  "Thank you. Revenue was 62 billion dollars, up 16 percent year over year, "
  +:+ "and operating margin expanded by two points on disciplined cost control.".

(** A call with two prepared statements, a short remark, and a question
    session opened by the operator. *)
Definition callTurns : list (string * string * string) :=
  [ ("Operator", "Operator", "Welcome to the earnings call.");
    ("Satya Nadella", "CEO", ceoRemarks);
    ("Amy Hood", "CFO", cfoRemarks);
    ("Amy Hood", "CFO", "Back to you.");
    ("Operator", "Operator", "Our first question comes from Keith Weiss with Morgan Stanley.");
    ("Keith Weiss", "Analyst", "What is your Azure growth outlook?");
    ("Satya Nadella", "CEO", ceoRemarks) ].

Definition callTranscript : Transcript.t :=
  Transcript.make 7 "MSFT" "2024Q1" 2024 "Microsoft Q1 2024 Earnings Call" (JStr "[turns]").

(** The same call stored as an array of turns. *)
Definition arrayTranscript : Transcript.t :=
  Transcript.make 7 "MSFT" "2024Q1" 2024 "Microsoft Q1 2024 Earnings Call"
    (JArr (map turnOf callTurns)).


(** ** The store: [MemStorage] of [server/storage.ts]

    The two [Map]s and the two counters of the class are the state; a
    method takes the state and returns its result with the new state.  The
    time [new Date()] reads is an argument of [createTranscript]. *)

Module Storage.

Record User : Type := mkUser {
  userId : Z;
  username : string;
  password : string
}.

Record InsertUser : Type := mkInsertUser {
  insertUsername : string;
  insertPassword : string
}.

(** [InsertTranscript]; an optional text field is [None] when it is
    [undefined] or [null]. *)
Record InsertTranscript : Type := mkInsertTranscript {
  insertSymbol : string;
  insertQuarter : string;
  insertYear : Z;
  insertTitle : string;
  insertDate : string;
  insertContent : string;
  insertWordCount : Z;
  insertRevenue : option string;
  insertGrowth : option string;
  insertEps : option string;
  insertMargin : option string
}.

(** [Transcript]; a nullable text field is [None] when it is [null]. *)
Record Transcript : Type := mkTranscript {
  id : Z;
  symbol : string;
  quarter : string;
  year : Z;
  title : string;
  date : string;
  content : string;
  wordCount : Z;
  revenue : option string;
  growth : option string;
  eps : option string;
  margin : option string;
  createdAt : Z
}.

Record t : Type := mkStorage {
  users : list (Z * User);
  transcripts : list (Z * Transcript);
  currentUserId : Z;
  currentTranscriptId : Z
}.

(** The fields as the constructor sets them, before it stores the sample
    transcripts through [createTranscript]. *)
Definition empty : t := mkStorage [] [] 1 1.

(** [n++] on a counter: it starts at 1 and holds an integer up to 2^53;
    below 2^53 the sum is exact, at 2^53 it is rounded back to 2^53. *)
Definition increment (n : Z) : Z :=
  if (n <? 2 ^ 53)%Z then (n + 1)%Z else n.

(** [v || null] *)
Definition orNull (v : option string) : option string :=
  match v with
  | Some s => if bool_decide (s = "") then None else Some s
  | None => None
  end.

Definition getUser (s : t) (id : Z) : option User := mapGet (users s) id.

(** [Array.from(this.users.values()).find(...)] *)
Definition getUserByUsername (s : t) (name : string) : option User :=
  find (fun user => bool_decide (username user = name)) (map snd (users s)).

Definition createUser (s : t) (insertUser : InsertUser) : User * t :=
  let id := currentUserId s in
  let user := mkUser id (insertUsername insertUser) (insertPassword insertUser) in
  (user,
   mkStorage (mapSet (users s) id user) (transcripts s)
     (increment id) (currentTranscriptId s)).

Definition getTranscript (s : t) (id : Z) : option Transcript :=
  mapGet (transcripts s) id.

Definition getTranscriptsBySymbol (s : t) (symbol : string) : list Transcript :=
  filter (fun transcript => Storage.symbol transcript = Js.toUpperCase symbol)
    (map snd (transcripts s)).

Definition createTranscript (s : t) (insertTranscript : InsertTranscript) (now : Z)
    : Transcript * t :=
  let id := currentTranscriptId s in
  let transcript :=
    mkTranscript id
      (insertSymbol insertTranscript) (insertQuarter insertTranscript)
      (insertYear insertTranscript) (insertTitle insertTranscript)
      (insertDate insertTranscript) (insertContent insertTranscript)
      (insertWordCount insertTranscript)
      (orNull (insertRevenue insertTranscript)) (orNull (insertGrowth insertTranscript))
      (orNull (insertEps insertTranscript)) (orNull (insertMargin insertTranscript))
      now in
  (transcript,
   mkStorage (users s) (mapSet (transcripts s) id transcript)
     (currentUserId s) (increment id)).

Definition getTranscriptsByFilters (s : t) (symbol : string) (quarters : list string)
    (years : list Z) : list Transcript :=
  filter (fun transcript =>
            Storage.symbol transcript = Js.toUpperCase symbol
            ∧ Storage.quarter transcript ∈ quarters
            ∧ Storage.year transcript ∈ years)
    (map snd (transcripts s)).

(** The calls that change the store. *)
Inductive call : Type :=
| CreateUser (insertUser : InsertUser)
| CreateTranscript (insertTranscript : InsertTranscript) (now : Z).

Definition step (s : t) (c : call) : t :=
  match c with
  | CreateUser insertUser => (createUser s insertUser).2
  | CreateTranscript insertTranscript now => (createTranscript s insertTranscript now).2
  end.

(** The store after the calls, made on the store the constructor starts
    from. *)
Definition after (calls : list call) : t := fold_left step calls empty.

End Storage.

(** What holds of the transcripts of a store, whatever calls made it: the
    counter lies between 1 and 2^53, every key is the id of the transcript
    stored under it, and every key is below the counter, unless the counter
    has stopped at 2^53. *)
Definition transcriptsInvariant (s : Storage.t) : Prop :=
  (1 ≤ Storage.currentTranscriptId s ≤ 2 ^ 53)%Z ∧
  ∀ k t, mapGet (Storage.transcripts s) k = Some t →
         Storage.id t = k ∧
         (1 ≤ k)%Z ∧
         (k < Storage.currentTranscriptId s ∨ Storage.currentTranscriptId s = 2 ^ 53)%Z.

(** The record [createTranscript] builds from its argument. *)
Definition createdFrom (insertTranscript : Storage.InsertTranscript) (id now : Z)
    : Storage.Transcript :=
  Storage.mkTranscript id
    (Storage.insertSymbol insertTranscript) (Storage.insertQuarter insertTranscript)
    (Storage.insertYear insertTranscript) (Storage.insertTitle insertTranscript)
    (Storage.insertDate insertTranscript) (Storage.insertContent insertTranscript)
    (Storage.insertWordCount insertTranscript)
    (Storage.orNull (Storage.insertRevenue insertTranscript))
    (Storage.orNull (Storage.insertGrowth insertTranscript))
    (Storage.orNull (Storage.insertEps insertTranscript))
    (Storage.orNull (Storage.insertMargin insertTranscript))
    now.

(** The transcript the extraction functions are handed. *)
Definition transcriptOf (stored : Storage.Transcript) : Transcript.t :=
  Transcript.make (Storage.id stored) (Storage.symbol stored) (Storage.quarter stored)
    (Storage.year stored) (Storage.title stored) (JStr (Storage.content stored)).

(** ** The extraction routes of [registerRoutes] *)

(** What a handler answers: its status and the JSON it sends. *)
Inductive response (A : Type) : Type :=
| Status200 (payload : A)
| Status400    (* { message: "Invalid request parameters", errors } *)
| Status500.   (* { message: "Failed to extract ..." } *)
Arguments Status200 {A} payload.
Arguments Status400 {A}.
Arguments Status500 {A}.

(** [z.number()] on an element of the array *)
Definition numberOf (v : jsval) : option Z :=
  match v with JNum n => Some n | _ => None end.

(** [z.object({ transcriptIds: z.array(z.number()).min(1) }).parse(req.body)]:
    the ids, or [None] for the [ZodError]. *)
Definition parseTranscriptIds (body : jsval) : option (list Z) :=
  match body with
  | JObj fields =>
      match ownField fields "transcriptIds" with
      | Some (JArr items) =>
          ids ← mapM numberOf items;
          if bool_decide (ids = []) then None else Some ids
      | _ => None
      end
  | _ => None
  end.

(** The loop over the ids: a transcript that is not stored is passed
    over. *)
Definition storedTranscripts (s : Storage.t) (transcriptIds : list Z)
    : list Storage.Transcript :=
  omap (Storage.getTranscript s) transcriptIds.

Section Routes.

Variable JSON_parse : string → result jsval.

(** [POST /api/analyst-questions/extract] *)
Definition extractAnalystQuestionsRoute (s : Storage.t) (body : jsval)
    : response (list AnalystQuestion) :=
  match parseTranscriptIds body with
  | None => Status400
  | Some transcriptIds =>
      let transcripts := map transcriptOf (storedTranscripts s transcriptIds) in
      match extractAnalystQuestionsFromMultipleTranscripts JSON_parse transcripts with
      | Ok allQuestions => Status200 allQuestions
      | Throw _ => Status500
      end
  end.

(** [POST /api/prepared-statements/extract] *)
Definition extractPreparedStatementsRoute (s : Storage.t) (body : jsval)
    : response (list PreparedStatement.t) :=
  match parseTranscriptIds body with
  | None => Status400
  | Some transcriptIds =>
      Status200
        (concat (map (fun stored => extractPreparedStatements JSON_parse (transcriptOf stored))
                   (storedTranscripts s transcriptIds)))
  end.

End Routes.

(** The ids under which a transcript is stored. *)
Definition knownIds (s : Storage.t) (transcriptIds : list Z) : list Z :=
  filter (fun id => is_Some (Storage.getTranscript s id)) transcriptIds.

(** The body [{ transcriptIds }] *)
Definition idsBody (transcriptIds : list Z) : jsval :=
  JObj [("transcriptIds", JArr (map JNum transcriptIds))].

(** *** Stores of the concrete runs *)

Definition sampleInsert (symbol quarter content : string) : Storage.InsertTranscript :=
  Storage.mkInsertTranscript symbol quarter 2024 (symbol +:+ " " +:+ quarter) "2024-01-24"
    content 850 (Some "$62.0B") (Some "") None (Some "42.0%").

Definition sampleCalls : list Storage.call :=
  [ Storage.CreateTranscript (sampleInsert "MSFT" "2024Q1" namedOperatorText) 100;
    Storage.CreateUser (Storage.mkInsertUser "ann" "secret");
    Storage.CreateTranscript (sampleInsert "msft" "2024Q2" openingText) 200 ].


(** ** The CSV export of [POST /api/analyst-questions/download] *)

(** The double-quote character. *)
Definition quoteChar : ascii := "034"%char.
Definition quote : string := String quoteChar "".

(** [str.replace] of every double quote by two of them (a pattern with
    the flag [g]). *)
Fixpoint doubleQuotes (str : string) : string :=
  match str with
  | "" => ""
  | String c str' =>
      if bool_decide (c = quoteChar)
      then String quoteChar (String quoteChar (doubleQuotes str'))
      else String c (doubleQuotes str')
  end.

Definition escapeCSV (str : string) : string :=
  if Js.includes str "," || Js.includes str quote || Js.includes str newline
  then quote +:+ doubleQuotes str +:+ quote
  else str.

(** [`${n}`] for a number that holds an integer *)
Definition numberText (n : Z) : string := NilZero.string_of_int (Z.to_int n).

Definition csvHeader : string :=
  "Company,Quarter,Year,Analyst Name,Analyst Title,Question" +:+ newline.

(** The line added for one question. *)
Definition csvRow (q : AnalystQuestion) : string :=
  escapeCSV (symbol q) +:+ "," +:+ escapeCSV (quarter q) +:+ "," +:+
  numberText (year q) +:+ "," +:+ escapeCSV (analystName q) +:+ "," +:+
  escapeCSV (analystTitle q) +:+ "," +:+ escapeCSV (question q) +:+ newline.

(** The text sent for [format === 'csv']. *)
Definition questionsCsv (allQuestions : list AnalystQuestion) : string :=
  fold_left (fun csv q => csv +:+ csvRow q) allQuestions csvHeader.

(** The fields of a question that the export writes. *)
Definition exported (q : AnalystQuestion) : string * string * Z * string * string * string :=
  (symbol q, quarter q, year q, analystName q, analystTitle q, question q).

(** *** Reading an exported text back

    A reader of the fields of a line, used to show that the export can be
    undone: a field that starts with a quote runs to the first quote that
    is not doubled, any other field to the next comma or line feed. *)

Fixpoint readPlain (s : string) : string * string :=
  match s with
  | "" => ("", "")
  | String c s' =>
      if bool_decide (c = ","%char) || bool_decide (c = "010"%char) then ("", s)
      else let r := readPlain s' in (String c r.1, r.2)
  end.

Fixpoint readQuoted (s : string) : option (string * string) :=
  match s with
  | "" => None
  | String c s' =>
      if bool_decide (c = quoteChar) then
        match s' with
        | String c' s'' =>
            if bool_decide (c' = quoteChar)
            then r ← readQuoted s''; Some (String quoteChar r.1, r.2)
            else Some ("", s')
        | "" => Some ("", "")
        end
      else r ← readQuoted s'; Some (String c r.1, r.2)
  end.

Definition readField (s : string) : option (string * string) :=
  match s with
  | String c s' => if bool_decide (c = quoteChar) then readQuoted s' else Some (readPlain s)
  | "" => Some ("", "")
  end.

(** The character [c], then what is left. *)
Definition expect (c : ascii) (s : string) : option string :=
  match s with
  | String c' s' => if bool_decide (c' = c) then Some s' else None
  | "" => None
  end.

(** The six fields of a line and what follows the line. *)
Definition readRow (s : string)
    : option ((string * string * string * string * string * string) * string) :=
  f1 ← readField s; s ← expect "," f1.2;
  f2 ← readField s; s ← expect "," f2.2;
  f3 ← readField s; s ← expect "," f3.2;
  f4 ← readField s; s ← expect "," f4.2;
  f5 ← readField s; s ← expect "," f5.2;
  f6 ← readField s; s ← expect "010" f6.2;
  Some ((f1.1, f2.1, f3.1, f4.1, f5.1, f6.1), s).

(** *** Questions of the concrete runs *)

Definition quotedQuestion : AnalystQuestion :=
  mkAnalystQuestion "Keith Weiss" "Analyst, Morgan Stanley" "Morgan Stanley"
    ("You said " +:+ quote +:+ "strong" +:+ quote +:+ ", but how strong?")
    1 "MSFT" "2024Q1" 2024 "Microsoft Q1 2024 Earnings Call".


(** ** Question themes: [getTopQuestionThemes] *)

(** The [themePatterns] object literal: each pattern is an alternation of
    words, without flags. *)
Definition themePatterns : list (string * Regex.t) :=
  map (fun tw => (tw.1, Regex.alts (map Regex.lit tw.2)))
    [ ("Revenue", ["revenue"; "sales"; "income"]);
      ("Margins", ["margin"; "profit"; "gross"; "operating"]);
      ("Guidance", ["guidance"; "forecast"; "outlook"; "expect"]);
      ("Growth", ["growth"; "expansion"; "increase"]);
      ("Competition", ["compet"; "market share"; "rival"]);
      ("Technology", ["technology"; "ai"; "digital"; "innovation"]);
      ("Costs", ["cost"; "expense"; "efficiency"]);
      ("Market", ["market"; "demand"; "customer"]) ].

(** Body of the inner [forEach]:
    [themes.set(theme, (themes.get(theme) || 0) + 1)] when the pattern
    matches. *)
Definition countTheme (text : string) (themes : list (string * nat))
    (entry : string * Regex.t) : list (string * nat) :=
  if Regex.test entry.2 text
  then mapSet themes entry.1 (default 0%nat (mapGet themes entry.1) + 1)%nat
  else themes.

(** The [Map] after the outer [forEach]. *)
Definition themeCounts (questions : list AnalystQuestion) : list (string * nat) :=
  fold_left
    (fun themes q => fold_left (countTheme (Js.toLowerCase (question q))) themePatterns themes)
    questions [].

(** [entries.sort(([,a], [,b]) => b - a)]: the sort is stable, so the
    result is the one order with the counts descending in which entries of
    equal count stay as they were; an insertion from the right builds it. *)
Fixpoint insertByCount (e : string * nat) (sorted : list (string * nat))
    : list (string * nat) :=
  match sorted with
  | [] => [e]
  | e' :: rest =>
      if (e.2 <? e'.2)%nat then e' :: insertByCount e rest else e :: sorted
  end.

Definition sortByCount (entries : list (string * nat)) : list (string * nat) :=
  foldr insertByCount [] entries.


(** The three entries the function lists. *)
Definition topThemes (questions : list AnalystQuestion) : list (string * nat) :=
  take 3 (sortByCount (themeCounts questions)).



(** The counts never go up along the list. *)
Fixpoint descending (entries : list (string * nat)) : bool :=
  match entries with
  | [] => true
  | e :: rest => forallb (fun e' => (e'.2 <=? e.2)%nat) rest && descending rest
  end.

(** *** Questions of the concrete runs *)



(** ** Transcripts in the text format

    The three extractors read a text that is no JSON paragraph by
    paragraph, each paragraph with the pattern for
    [Name (Title): Content]. *)



Fixpoint allChars (p : ascii → bool) (s : string) : bool :=
  match s with
  | "" => true
  | String c s' => p c && allChars p s'
  end.





(** ** Texts of ASCII characters

    On a text of ASCII characters the case mapping, the white space and
    the length of the embedding are those of the code.  Outside ASCII they
    are not: [toUpperCase] maps every cased letter and can lengthen a
    text, [trim] and [\s] know more white space, and [length] counts
    UTF-16 units.  A statement that would not hold of the code for other
    characters is made for ASCII texts. *)

Definition asciiChar (c : ascii) : bool := (nat_of_ascii c <? 128)%nat.

Definition asciiText (s : string) : bool := allChars asciiChar s.

(** ** Segments read as turns *)

(** The speaker, title and content of a segment that holds a string under
    each of the three names, whatever else it holds. *)
Definition turnFields (segment : jsval) : option (string * string * string) :=
  match segment with
  | JObj fields =>
      match ownField fields "speaker", ownField fields "title",
            ownField fields "content" with
      | Some (JStr speaker), Some (JStr title), Some (JStr content) =>
          Some (speaker, title, content)
      | _, _, _ => None
      end
  | _ => None
  end.

(** [(v || '')] as the receiver of [toLowerCase]: a string stands for
    itself and a falsy value (a missing field reads [undefined]) for the
    empty string; any other value has no such method. *)
Definition textOrEmpty (v : jsval) : option string :=
  match v with
  | JStr s => Some s
  | _ => if truthy v then None else Some ""
  end.

(** The title and the content the scan for the question session reads off
    a segment. *)
Definition boundaryTexts (segment : jsval) : option (string * string) :=
  match getProp segment "title", getProp segment "content" with
  | Ok t, Ok c =>
      title ← textOrEmpty t;
      content ← textOrEmpty c;
      Some (title, content)
  | _, _ => None
  end.

(** The log line of the boundary prints the speaker field. *)
Definition speakerPrintable (segment : jsval) : bool :=
  match getProp segment "speaker" with
  | Ok name => bool_decide (is_Some (stringOf name))
  | Throw _ => false
  end.

(** *** Turns as the store holds them *)

(** A turn of a stored transcript carries a sentiment besides its three
    texts. *)
Definition storedTurn (t : string * string * string) : jsval :=
  JObj [ ("speaker", JStr t.1.1); ("title", JStr t.1.2); ("content", JStr t.2);
         ("sentiment", JStr "0.2") ].

Definition storedCall : list jsval := map storedTurn callTurns.

(** A parser for runs on the text of the stored call: it knows that one
    text. *)
Definition parseStoredCall (input : string) : result jsval :=
  if bool_decide (input = "[turns]") then Ok (JArr storedCall) else Throw SyntaxError.

Definition storedArrayTranscript : Transcript.t :=
  Transcript.make 7 "MSFT" "2024Q1" 2024 "Microsoft Q1 2024 Earnings Call"
    (JArr storedCall).

(** A call whose second turn has no title and whose third has none that
    is a text; the question session opens with the fourth. *)
Definition untitledCall : list jsval :=
  [ storedTurn ("Operator", "Operator",
      "Welcome to the call. A question and answer session will follow the remarks.");
    JObj [ ("speaker", JStr "Satya Nadella"); ("content", JStr ceoRemarks) ];
    JObj [ ("speaker", JStr "Amy Hood"); ("title", JNull); ("content", JStr cfoRemarks);
           ("sentiment", JStr "0.5") ];
    storedTurn ("Operator", "Operator",
      "Our first question comes from Keith Weiss with Morgan Stanley.");
    storedTurn ("Keith Weiss", "Analyst", "What is your Azure growth outlook?") ].

Definition untitledTexts : list (string * string) :=
  [ ("Operator",
     "Welcome to the call. A question and answer session will follow the remarks.");
    ("", ceoRemarks);
    ("", cfoRemarks);
    ("Operator", "Our first question comes from Keith Weiss with Morgan Stanley.");
    ("Analyst", "What is your Azure growth outlook?") ].

(** A call in which a speaker of equity research, an analyst for the
    question extractor, comments without a title that says "analyst". *)
Definition researchTurns : list (string * string * string) :=
  [ ("Operator", "Operator", "Welcome to the earnings call.");
    ("Jane Doe", "Equity Research", "We will publish our note after the call.");
    ("Satya Nadella", "CEO", ceoRemarks) ].

(** *** Records of two symbols in three transcripts *)





(** * Properties *)

(** ** The normalizers on examples *)

Example normalizeAnalystName_mike :
  normalizeAnalystName "Mike Ng" = Ok (mkNormalizedName "Michael Ng" "Michael" "Ng").
Proof. reflexivity. Qed.

Example normalizeAnalystName_middle :
  normalizeAnalystName "  keith  A.  WEISS " = Ok (mkNormalizedName "Keith Weiss" "Keith" "Weiss").
Proof. reflexivity. Qed.

Example normalizeAnalystName_empty :
  normalizeAnalystName "" = Ok (mkNormalizedName " " "" "").
Proof. reflexivity. Qed.

Example normalizeAnalystName_inherited :
  normalizeAnalystName "Constructor Smith" = Throw TypeError.
Proof. reflexivity. Qed.

Example normalizeCompanyName_examples :
  normalizeCompanyName "Morgan Stanley" = "Morgan Stanley" ∧
  normalizeCompanyName "goldman" = "Goldman Sachs" ∧
  normalizeCompanyName "J.P. Morgan Securities" = "J.P. Morgan Securities" ∧
  normalizeCompanyName "JPMorgan Stanley" = "JPMorgan Chase".
Proof. repeat split; reflexivity. Qed.

Example scenarioB_run :
  fieldsAfter
    (applyCompanyWideAnalystConsolidation [0; 1]%nat
       {[ "Michael Ng" := "Goldman Sachs" ]} (heapOf scenarioB)) [0; 1]%nat
  = Some [("Michael Ng", "Goldman Sachs"); ("Michael Ng", "Goldman Sachs")].
Proof. vm_compute. reflexivity. Qed.




(** ** Insertion-ordered maps and grouping *)

Section JsMapFacts.
Context {K V : Type} `{EqDecision K}.
Implicit Types (m : list (K * V)) (k : K) (v : V).

Lemma mapGet_mapSet m k v k' :
  mapGet (mapSet m k v) k' = if decide (k = k') then Some v else mapGet m k'.
Proof.
  induction m as [|[k0 v0] m IH]; simpl.
  - repeat case_decide; congruence.
  - repeat (case_decide; simpl); try congruence.
Qed.


Lemma mapGet_None m k : mapGet m k = None → k ∉ m.*1.
Proof.
  induction m as [|[k0 v0] m IH]; simpl.
  - intros _. apply not_elem_of_nil.
  - case_decide; [done|]. intros Hm [->|Hin]%elem_of_cons; [done|].
    by apply IH.
Qed.

Lemma elem_of_mapGet m k v : NoDup m.*1 → (k, v) ∈ m → mapGet m k = Some v.
Proof.
  induction m as [|[k0 v0] m IH]; simpl.
  - intros _ Hin. by apply elem_of_nil in Hin.
  - intros [Hk0 Hnd]%NoDup_cons [Heq|Hin]%elem_of_cons.
    + simplify_eq. by rewrite decide_True.
    + rewrite decide_False; [by apply IH|].
      intros ->. apply Hk0. apply list_elem_of_fmap. by exists (k, v).
Qed.

Lemma mapSet_keys m k v :
  (mapSet m k v).*1 =
    match mapGet m k with Some _ => m.*1 | None => m.*1 ++ [k] end.
Proof.
  induction m as [|[k0 v0] m IH]; csimpl; [done|].
  case_decide; csimpl; [by subst|].
  rewrite IH. by destruct (mapGet m k).
Qed.

Lemma mapSet_NoDup m k v : NoDup m.*1 → NoDup (mapSet m k v).*1.
Proof.
  intros Hnd. rewrite mapSet_keys.
  destruct (mapGet m k) eqn:Hg; [done|].
  apply NoDup_app. split_and!; [done| |apply NoDup_singleton].
  intros x Hx ->%list_elem_of_singleton. by apply mapGet_None in Hg.
Qed.

Lemma mapGet_fmap {W : Type} (f : K → V → W) m k :
  mapGet (map (fun kv => (kv.1, f kv.1 kv.2)) m) k = f k <$> mapGet m k.
Proof.
  induction m as [|[k0 v0] m IH]; simpl; [done|].
  case_decide; by subst.
Qed.

Lemma mapSet_fmap {W : Type} (f : K → V → W) m k v :
  mapSet (map (fun kv => (kv.1, f kv.1 kv.2)) m) k (f k v)
  = map (fun kv => (kv.1, f kv.1 kv.2)) (mapSet m k v).
Proof.
  induction m as [|[k0 v0] m IH]; simpl; [done|].
  case_decide; simpl; [done|]. by rewrite IH.
Qed.
End JsMapFacts.

Section Grouping.
Context {K : Type} `{EqDecision K}.
Implicit Types (key : nat → K) (l : list nat) (k : K).

Lemma groupByKey_snoc key l q :
  groupByKey key (l ++ [q]) = pushTo (groupByKey key l) (key q) q.
Proof. unfold groupByKey. by rewrite fold_left_app. Qed.

Lemma groupByKey_NoDup key l : NoDup (groupByKey key l).*1.
Proof.
  induction l as [|q l IH] using rev_ind; [apply NoDup_nil_2|].
  rewrite groupByKey_snoc. by apply mapSet_NoDup.
Qed.

(** A group holds the questions with its key, in their order. *)
Lemma groupByKey_get key l k :
  mapGet (groupByKey key l) k =
    match filter (fun q => key q = k) l with
    | [] => None
    | es => Some es
    end.
Proof.
  induction l as [|q l IH] using rev_ind; [done|].
  rewrite groupByKey_snoc. unfold pushTo. rewrite mapGet_mapSet, filter_app.
  case_decide as Hk.
  - subst k. rewrite IH.
    rewrite (filter_cons_True (fun q0 => key q0 = key q)) by done.
    rewrite filter_nil.
    by destruct (filter (fun q0 => key q0 = key q) l).
  - rewrite IH, (filter_cons_False (fun q0 => key q0 = k)) by done.
    by rewrite filter_nil, app_nil_r.
Qed.

Lemma groupByKey_elem_of key l k es :
  (k, es) ∈ groupByKey key l → es = filter (fun q => key q = k) l ∧ es ≠ [].
Proof.
  intros Hin. apply elem_of_mapGet in Hin; [|apply groupByKey_NoDup].
  rewrite groupByKey_get in Hin.
  destruct (filter (fun q => key q = k) l); by simplify_eq.
Qed.

Lemma pushTo_concat (gs : list (K * list nat)) k q :
  concat (mapSet gs k (default [] (mapGet gs k) ++ [q])).*2 ≡ₚ concat gs.*2 ++ [q].
Proof.
  induction gs as [|[k0 es0] gs IH]; simpl; [done|].
  case_decide; simpl.
  - by rewrite <-!(assoc_L (++)), (Permutation_app_comm [q]).
  - by rewrite IH, (assoc_L (++)).
Qed.

(** Regrouping keeps every question, once. *)
Lemma groupByKey_concat key l : concat (groupByKey key l).*2 ≡ₚ l.
Proof.
  induction l as [|q l IH] using rev_ind; [done|].
  rewrite groupByKey_snoc. unfold pushTo.
  by rewrite pushTo_concat, IH.
Qed.

End Grouping.


(** ** Writes to the heap, one record at a time *)

Lemma setAnalystCompany_same x : setAnalystCompany x (analystCompany x) = x.
Proof. by destruct x. Qed.

Lemma setAnalystName_same x : setAnalystName x (analystName x) = x.
Proof. by destruct x. Qed.

Lemma assignOperatorCompany_at m (h : nat → AnalystQuestion) q r :
  assignOperatorCompany m h q r
  = if decide (r = q) then attributeOperator m (h q) else h r.
Proof.
  unfold assignOperatorCompany, attributeOperator.
  destruct (m !! Js.trim (analystName (h q))) as [c|]; [|by case_decide; subst].
  destruct (decide (analystCompany (h q) ≠ normalizeCompanyName c)) as [Hc|Hc];
    destruct (decide (r = q)) as [->|Hr].
  - by rewrite fn_lookup_insert.
  - by rewrite fn_lookup_insert_ne.
  - apply dec_stable in Hc. by rewrite <-Hc, setAnalystCompany_same.
  - done.
Qed.

Lemma consolidateEntry_at n known (h : nat → AnalystQuestion) e r :
  consolidateEntry n known h e r
  = if decide (r = e) then mergeIdentity n known (h e) else h r.
Proof.
  unfold consolidateEntry, mergeIdentity.
  set (h1 := if decide (analystName (h e) ≠ n) then _ else h).
  assert (Hh1 : ∀ r', h1 r' = if decide (r' = e) then setAnalystName (h e) n else h r').
  { intros r'. unfold h1.
    destruct (decide (analystName (h e) ≠ n)) as [Hn|Hn];
      destruct (decide (r' = e)) as [->|Hr].
    - by rewrite fn_lookup_insert.
    - by rewrite fn_lookup_insert_ne.
    - apply dec_stable in Hn. by rewrite <-Hn, setAnalystName_same.
    - done. }
  clearbody h1.
  destruct (decide (known ≠ "")) as [Hk|Hk];
    [rewrite !(bool_decide_eq_true_2 (known ≠ "")) by done
    |rewrite !(bool_decide_eq_false_2 (known ≠ "")) by done]; simpl;
    [|by rewrite Hh1].
  rewrite (Hh1 e), decide_True by done.
  destruct (decide (analystCompany (setAnalystName (h e) n) ≠ known)) as [Hc|Hc].
  - rewrite bool_decide_eq_true_2 by done.
    destruct (decide (r = e)) as [->|Hne].
    + by rewrite fn_lookup_insert.
    + by rewrite fn_lookup_insert_ne, Hh1, decide_False.
  - rewrite bool_decide_eq_false_2 by done.
    apply dec_stable in Hc. rewrite Hh1.
    case_decide; [|done].
    by rewrite <-Hc, setAnalystCompany_same.
Qed.

(** A loop that rewrites the record of each reference it meets with an
    idempotent function of that record. *)
Lemma fold_left_pointwise
    (step : (nat → AnalystQuestion) → nat → (nat → AnalystQuestion))
    (F : nat → AnalystQuestion → AnalystQuestion) (l : list nat) :
  (∀ h q r, q ∈ l → step h q r = if decide (r = q) then F q (h q) else h r) →
  (∀ q x, q ∈ l → F q (F q x) = F q x) →
  ∀ h r, fold_left step l h r = if decide (r ∈ l) then F r (h r) else h r.
Proof.
  induction l as [|q l IH]; intros Hstep Hidem h r; cbn [fold_left].
  - rewrite decide_False; [done|apply not_elem_of_nil].
  - rewrite IH; [|intros; apply Hstep; by right|intros; apply Hidem; by right].
    rewrite !Hstep by (by left).
    destruct (decide (r = q)) as [->|Hne].
    + rewrite (decide_True (P := q ∈ q :: l)) by (by left).
      case_decide; [apply Hidem; by left|done].
    + destruct (decide (r ∈ l)).
      * rewrite decide_True; [done|by right].
      * rewrite decide_False; [done|]. by intros [?|?]%elem_of_cons.
Qed.

Lemma attributeOperator_idemp m x :
  attributeOperator m (attributeOperator m x) = attributeOperator m x.
Proof.
  unfold attributeOperator.
  destruct (m !! Js.trim (analystName x)) as [c|] eqn:Hm; simpl; by rewrite Hm.
Qed.

Lemma mergeIdentity_idemp n known x :
  mergeIdentity n known (mergeIdentity n known x) = mergeIdentity n known x.
Proof. unfold mergeIdentity. by case_bool_decide. Qed.

Lemma sameFrame_refl x : sameFrame x x.
Proof. by repeat split. Qed.

Lemma sameFrame_trans x y z : sameFrame x y → sameFrame y z → sameFrame x z.
Proof. unfold sameFrame. intros (?&?&?&?&?&?&?) (?&?&?&?&?&?&?). repeat split; congruence. Qed.

Lemma attributeOperator_frame m x : sameFrame x (attributeOperator m x).
Proof. unfold attributeOperator. destruct (m !! _); by repeat split. Qed.

Lemma mergeIdentity_frame n known x : sameFrame x (mergeIdentity n known x).
Proof. unfold mergeIdentity. case_bool_decide; by repeat split. Qed.


(** ** The identity groups of one symbol *)

Lemma foldResult_snoc {A B : Type} (f : B → A → result B) l a b :
  foldResult f (l ++ [a]) b = (b' ← foldResult f l b; f b' a).
Proof.
  revert b. induction l as [|x l IH]; intros b; simpl.
  - by destruct (f b a).
  - destruct (f b x) as [b1|e]; simpl; [apply IH|done].
Qed.

Lemma nameGroupOf_snoc (h : nat → AnalystQuestion) n es q :
  nameGroupOf h n (es ++ [q])
  = mkAnalystGroup n
      (setAdd (originalNames (nameGroupOf h n es)) (Js.trim (analystName (h q))))
      (if decide (analystCompany (h q) ≠ "Unknown") then analystCompany (h q)
       else knownCompany (nameGroupOf h n es))
      (es ++ [q]).
Proof.
  unfold nameGroupOf, lastKnown. simpl.
  by rewrite !map_app, !fold_left_app.
Qed.

Lemma addToNameGroups_spec (h : nat → AnalystQuestion) gs q :
  addToNameGroups h (map (fun kv => (kv.1, nameGroupOf h kv.1 kv.2)) gs) q
  = if normalizes (h q)
    then Ok (map (fun kv => (kv.1, nameGroupOf h kv.1 kv.2))
               (pushTo gs (personKey (h q)) q))
    else Throw TypeError.
Proof.
  unfold addToNameGroups, normalizes, personKey.
  destruct (normalizeAnalystName (Js.trim (analystName (h q)))) as [nn|[]] eqn:Hn;
    simpl; [|done|].
  - f_equal. unfold pushTo.
    rewrite <-(mapSet_fmap (fun k es => nameGroupOf h k es)). f_equal.
    rewrite (mapGet_fmap (fun k es => nameGroupOf h k es)).
    destruct (mapGet gs (normalizedName nn)) as [es|]; simpl.
    + by rewrite nameGroupOf_snoc.
    + unfold nameGroupOf, lastKnown, setAdd. simpl. by case_decide.
  - exfalso. revert Hn. unfold normalizeAnalystName.
    by destruct (nameVariationsAt _).
Qed.

Lemma buildNameGroups_spec (h : nat → AnalystQuestion) sqs :
  buildNameGroups h sqs
  = if forallb (fun q => normalizes (h q)) sqs
    then Ok (nameGroupsOf h sqs) else Throw TypeError.
Proof.
  unfold buildNameGroups, nameGroupsOf.
  induction sqs as [|q sqs IH] using rev_ind; [done|].
  rewrite foldResult_snoc, IH, forallb_app. simpl.
  destruct (forallb _ sqs); simpl; [|done].
  rewrite addToNameGroups_spec, groupByKey_snoc.
  by destruct (normalizes (h q)).
Qed.

Lemma buildNameGroups_ext (h h' : nat → AnalystQuestion) sqs :
  (∀ q, q ∈ sqs → h q = h' q) → buildNameGroups h sqs = buildNameGroups h' sqs.
Proof.
  unfold buildNameGroups. generalize (@nil (string * AnalystGroup)).
  induction sqs as [|q sqs IH]; intros gs Hext; simpl; [done|].
  assert (addToNameGroups h gs q = addToNameGroups h' gs q) as ->.
  { unfold addToNameGroups. rewrite Hext; [done|by left]. }
  destruct (addToNameGroups h' gs q); simpl; [|done].
  apply IH. intros; apply Hext; by right.
Qed.


(** ** The merge loops *)

Lemma filter_ext_elem {A : Type} (P Q : A → Prop)
    `{∀ x, Decision (P x)} `{∀ x, Decision (Q x)} (l : list A) :
  (∀ x, x ∈ l → P x ↔ Q x) → filter P l = filter Q l.
Proof.
  induction l as [|a l IH]; intros Hext; [done|].
  assert (filter P l = filter Q l) as Hl.
  { apply IH. intros x Hx. apply Hext. by right. }
  destruct (decide (P a)) as [Hp|Hp].
  - rewrite !filter_cons_True; [by rewrite Hl| |done].
    apply Hext; [by left|done].
  - rewrite !filter_cons_False; [done| |done].
    intros Hq. apply Hp, Hext; [by left|done].
Qed.

Lemma map_ext_elem {A B : Type} (f g : A → B) (l : list A) :
  (∀ x, x ∈ l → f x = g x) → map f l = map g l.
Proof.
  intros Hext. apply map_ext_in. intros x Hx. apply Hext. by apply list_elem_of_In.
Qed.

Lemma consolidateGroups_pointwise
    (F : nat → AnalystQuestion → AnalystQuestion)
    (gs : list (string * AnalystGroup)) (h0 : nat → AnalystQuestion) final :
  (∀ kv q x, kv ∈ gs → q ∈ entries kv.2 →
     mergeIdentity kv.1 (knownCompany kv.2) x = F q x) →
  (∀ r, (consolidateGroups gs h0 final).1 r
        = if decide (r ∈ concat (map (fun kv => entries kv.2) gs))
          then F r (h0 r) else h0 r)
  ∧ (consolidateGroups gs h0 final).2
    = final ++ concat (map (fun kv => entries kv.2) gs).
Proof.
  unfold consolidateGroups.
  revert h0 final. induction gs as [|[k g] gs IH]; intros h0 final HF;
    cbn [fold_left map concat fst snd].
  - split; [|by rewrite app_nil_r].
    intros r. by rewrite decide_False by apply not_elem_of_nil.
  - destruct (IH (fold_left (consolidateEntry k (knownCompany g)) (entries g) h0)
                 (final ++ entries g)) as [IH1 IH2].
    { intros kv q x Hkv. apply HF. by right. }
    split; [|by rewrite IH2, (assoc_L (++))].
    intros r. rewrite IH1.
    assert (Hin : ∀ r', fold_left (consolidateEntry k (knownCompany g)) (entries g) h0 r'
                  = if decide (r' ∈ entries g) then F r' (h0 r') else h0 r').
    { apply fold_left_pointwise.
      - intros h q r' Hq. rewrite consolidateEntry_at.
        case_decide; [|done]. apply (HF (k, g)); [by left|done].
      - intros q x Hq. rewrite <-!(HF (k, g) q) by (done || by left).
        apply mergeIdentity_idemp. }
    rewrite Hin.
    destruct (decide (r ∈ entries g)) as [Hg|Hg];
      destruct (decide (r ∈ concat (map (fun kv => entries kv.2) gs))) as [Hc|Hc].
    + rewrite decide_True by (apply elem_of_app; by left).
      rewrite <-!(HF (k, g) r) by (done || by left).
      apply mergeIdentity_idemp.
    + by rewrite decide_True by (apply elem_of_app; by left).
    + by rewrite decide_True by (apply elem_of_app; by right).
    + rewrite decide_False; [done|]. by intros [?|?]%elem_of_app.
Qed.

Lemma nameGroupsOf_entries (B : nat → AnalystQuestion) sqs :
  concat (map (fun kv => entries kv.2) (nameGroupsOf B sqs)) ≡ₚ sqs.
Proof.
  unfold nameGroupsOf. rewrite map_map. simpl.
  etrans; [|apply (groupByKey_concat (fun q => personKey (B q)))].
  done.
Qed.

(** Inside the symbol group [sqs] of the processed questions [l1], the
    groups the loop builds carry the known company of the identity group. *)
Lemma nameGroupsOf_known (B : nat → AnalystQuestion) l1 s sqs kv q :
  sqs = filter (fun q => symbol (B q) = s) l1 →
  kv ∈ nameGroupsOf B sqs → q ∈ entries kv.2 →
  kv.1 = personKey (B q) ∧ knownCompany kv.2 = groupCompany B l1 (B q).
Proof.
  intros Hs Hkv Hq. unfold nameGroupsOf in Hkv.
  apply list_elem_of_fmap in Hkv as ([k es] & -> & Hin). simpl in *.
  apply groupByKey_elem_of in Hin as [Hes _].
  assert (Hq' : personKey (B q) = k ∧ q ∈ sqs).
  { rewrite Hes in Hq. by apply list_elem_of_filter in Hq. }
  destruct Hq' as [Hk Hqs]. split; [done|].
  unfold groupCompany. f_equal. f_equal.
  rewrite Hes, Hs, list_filter_filter.
  rewrite Hs in Hqs. apply list_elem_of_filter in Hqs as [Hsym _].
  apply list_filter_iff. intros q'. unfold sameIdentity.
  split; [intros [? ?]|intros [? ?]]; split; congruence.
Qed.


(** ** The loop over the symbols *)

Lemma consolidateSymbols_spec (B : nat → AnalystQuestion) (l1 : list nat)
    (groups : list (string * list nat)) (hc : nat → AnalystQuestion) final :
  (∀ s sqs, (s, sqs) ∈ groups → sqs = filter (fun q => symbol (B q) = s) l1) →
  NoDup groups.*1 →
  (∀ q, q ∈ concat groups.*2 → hc q = B q) →
  if forallb (fun q => normalizes (B q)) (concat groups.*2)
  then ∃ h2 out,
    consolidateSymbols groups hc final = Returned h2 out ∧
    out ≡ₚ final ++ concat groups.*2 ∧
    ∀ r, h2 r = if decide (r ∈ concat groups.*2)
                then mergedRecord B l1 (B r) else hc r
  else ∃ h', consolidateSymbols groups hc final = Thrown h' TypeError.
Proof.
  revert hc final.
  induction groups as [|[s sqs] groups IH]; intros hc final Hgroups Hnd Hhc.
  - exists hc, final. split_and!; [done|by rewrite app_nil_r|].
    intros r. cbn [fmap list_fmap concat].
    by rewrite decide_False by apply not_elem_of_nil.
  - cbn [fmap list_fmap concat snd] in *.
    apply NoDup_cons in Hnd as [Hs Hnd].
    rewrite forallb_app.
    cbn [consolidateSymbols].
    rewrite (buildNameGroups_ext hc B)
      by (intros q Hq; apply Hhc, elem_of_app; by left).
    rewrite buildNameGroups_spec.
    destruct (forallb (fun q => normalizes (B q)) sqs) eqn:Hok1; [|by exists hc].
    assert (Hsqs : sqs = filter (fun q => symbol (B q) = s) l1)
      by (apply Hgroups; by left).
    destruct (consolidateGroups_pointwise
                (fun q x => mergeIdentity (personKey (B q)) (groupCompany B l1 (B q)) x)
                (nameGroupsOf B sqs) hc final) as [Hst1 Hst2].
    { intros kv q x Hkv Hq.
      destruct (nameGroupsOf_known B l1 s sqs kv q Hsqs Hkv Hq) as [-> ->]. done. }
    set (st := consolidateGroups (nameGroupsOf B sqs) hc final) in *.
    assert (Hmem : ∀ r, r ∈ concat (map (fun kv => entries kv.2) (nameGroupsOf B sqs))
                        ↔ r ∈ sqs).
    { intros r. by rewrite nameGroupsOf_entries. }
    assert (Hother : ∀ q, q ∈ concat groups.*2 → q ∉ sqs).
    { intros q Hq Hq'.
      apply list_elem_of_In, in_concat in Hq as (es & Hes & Hqes).
      apply list_elem_of_In, list_elem_of_fmap in Hes as ([s' es'] & -> & Hin).
      simpl in Hqes. apply list_elem_of_In in Hqes.
      rewrite (Hgroups s' es') in Hqes by (by right).
      rewrite Hsqs in Hq'.
      apply list_elem_of_filter in Hqes as [Hs' _].
      apply list_elem_of_filter in Hq' as [Hs'' _].
      apply Hs. apply list_elem_of_fmap. exists (s', es'). split; [|done].
      simpl. congruence. }
    specialize (IH st.1 st.2).
    cbn [andb].
    destruct (forallb (fun q => normalizes (B q)) (concat groups.*2)).
    + destruct IH as (h2 & out & Hrun & Hout & Hh2).
      { intros s' sqs' Hin. apply Hgroups. by right. }
      { done. }
      { intros q Hq. rewrite Hst1, decide_False by (rewrite Hmem; by apply Hother).
        apply Hhc, elem_of_app. by right. }
      exists h2, out. split_and!; [done| |].
      * by rewrite Hout, Hst2, nameGroupsOf_entries, (assoc_L (++)).
      * intros r. rewrite Hh2, Hst1.
        destruct (decide (r ∈ concat groups.*2)) as [Hr|Hr].
        -- by rewrite decide_True by (apply elem_of_app; by right).
        -- destruct (decide (r ∈ sqs)) as [Hr'|Hr'].
           ++ rewrite !decide_True by (rewrite ?Hmem; try apply elem_of_app; auto).
              unfold mergedRecord. by rewrite Hhc by (apply elem_of_app; by left).
           ++ rewrite !decide_False; [done| |by rewrite Hmem].
              by intros [?|?]%elem_of_app.
    + apply IH.
      * intros s' sqs' Hin. apply Hgroups. by right.
      * done.
      * intros q Hq. rewrite Hst1, decide_False by (rewrite Hmem; by apply Hother).
        apply Hhc, elem_of_app. by right.
Qed.

(** ** The whole consolidation *)

Lemma transcriptProcessed_perm (h : nat → AnalystQuestion) qs :
  transcriptProcessed h qs ≡ₚ qs.
Proof. apply groupByKey_concat. Qed.

Lemma applyOperatorAssignments_at m (h : nat → AnalystQuestion) qs r :
  applyOperatorAssignments m h qs r
  = if decide (r ∈ qs) then attributeOperator m (h r) else h r.
Proof.
  unfold applyOperatorAssignments.
  rewrite (fold_left_pointwise _ (fun _ => attributeOperator m)).
  - destruct (decide (r ∈ qs)) as [Hr|Hr].
    + by rewrite decide_True by (by rewrite transcriptProcessed_perm).
    + by rewrite decide_False by (by rewrite transcriptProcessed_perm).
  - intros. apply assignOperatorCompany_at.
  - intros. apply attributeOperator_idemp.
Qed.

Lemma personKey_attributeOperator m x : personKey (attributeOperator m x) = personKey x.
Proof. unfold attributeOperator, personKey. by destruct (m !! _). Qed.

Lemma normalizes_attributeOperator m x : normalizes (attributeOperator m x) = normalizes x.
Proof. unfold attributeOperator, normalizes. by destruct (m !! _). Qed.

Lemma symbol_attributeOperator m x : symbol (attributeOperator m x) = symbol x.
Proof. unfold attributeOperator. by destruct (m !! _). Qed.

Lemma groupCompany_ext (h h' : nat → AnalystQuestion) l x :
  (∀ q, q ∈ l → h q = h' q) → groupCompany h l x = groupCompany h' l x.
Proof.
  intros Hext. unfold groupCompany. f_equal.
  rewrite (filter_ext_elem (fun q => sameIdentity x (h q)) (fun q => sameIdentity x (h' q)) l)
    by (intros q Hq; by rewrite Hext).
  apply map_ext_elem. intros q Hq. rewrite Hext; [done|].
  by apply list_elem_of_filter in Hq as [_ ?].
Qed.

(** A run returns exactly when every name can be normalized, and then every
    record it was given is the merge of its operator-attributed record. *)
Lemma consolidation_outcome qs m (h : nat → AnalystQuestion) :
  if forallb (fun q => normalizes (h q)) qs
  then ∃ h2 out,
    applyCompanyWideAnalystConsolidation qs m h = Returned h2 out ∧
    out ≡ₚ qs ∧
    ∀ r, h2 r = if decide (r ∈ qs)
                then mergedRecord (afterOperator m h) (transcriptProcessed h qs)
                       (afterOperator m h r)
                else h r
  else ∃ h', applyCompanyWideAnalystConsolidation qs m h = Thrown h' TypeError.
Proof.
  unfold applyCompanyWideAnalystConsolidation.
  set (l1 := transcriptProcessed h qs).
  set (h1 := applyOperatorAssignments m h qs).
  assert (Hl1 : ∀ q, q ∈ l1 ↔ q ∈ qs).
  { intros q. unfold l1. by rewrite transcriptProcessed_perm. }
  assert (Hh1 : ∀ q, q ∈ l1 → h1 q = afterOperator m h q).
  { intros q Hq. unfold h1. rewrite applyOperatorAssignments_at.
    by rewrite decide_True by (by apply Hl1). }
  set (groups := groupByKey (fun q => symbol (h1 q)) l1).
  assert (Hcat : concat groups.*2 ≡ₚ l1) by apply groupByKey_concat.
  assert (Hsame : forallb (fun q => normalizes (h1 q)) (concat groups.*2)
                  = forallb (fun q => normalizes (h q)) qs).
  { apply eq_true_iff_eq. rewrite !forallb_forall.
    split; intros Hall q Hq%list_elem_of_In.
    - specialize (Hall q). rewrite Hh1 in Hall by (by apply Hl1).
      unfold afterOperator in Hall. rewrite normalizes_attributeOperator in Hall.
      apply Hall, list_elem_of_In. rewrite Hcat. by apply Hl1.
    - rewrite Hcat in Hq. rewrite Hh1 by done. unfold afterOperator.
      rewrite normalizes_attributeOperator. by apply Hall, list_elem_of_In, Hl1. }
  pose proof (consolidateSymbols_spec h1 l1 groups h1 []) as Hspec.
  rewrite Hsame in Hspec.
  destruct (forallb (fun q => normalizes (h q)) qs).
  - destruct Hspec as (h2 & out & Hrun & Hout & Hh2).
    + intros s sqs Hin. by apply groupByKey_elem_of in Hin as [? _].
    + apply groupByKey_NoDup.
    + done.
    + exists h2, out. split_and!; [done| |].
      * rewrite Hout, Hcat. simpl. apply transcriptProcessed_perm.
      * intros r. rewrite Hh2.
        destruct (decide (r ∈ qs)) as [Hr|Hr].
        -- rewrite decide_True by (rewrite Hcat; by apply Hl1).
           rewrite Hh1 by (by apply Hl1). unfold mergedRecord. f_equal.
           by apply groupCompany_ext.
        -- rewrite decide_False by (rewrite Hcat; by rewrite Hl1).
           unfold h1. rewrite applyOperatorAssignments_at. by rewrite decide_False.
  - apply Hspec.
    + intros s sqs Hin. by apply groupByKey_elem_of in Hin as [? _].
    + apply groupByKey_NoDup.
    + done.
Qed.

Lemma consolidation_returns qs m (h : nat → AnalystQuestion) :
  forallb (fun q => normalizes (h q)) qs = true →
  ∃ h2 out,
    applyCompanyWideAnalystConsolidation qs m h = Returned h2 out ∧
    out ≡ₚ qs ∧
    ∀ r, h2 r = if decide (r ∈ qs)
                then mergedRecord (afterOperator m h) (transcriptProcessed h qs)
                       (afterOperator m h r)
                else h r.
Proof. intros Hok. pose proof (consolidation_outcome qs m h) as H. by rewrite Hok in H. Qed.

Lemma consolidation_returned_inv qs m (h h2 : nat → AnalystQuestion) out :
  applyCompanyWideAnalystConsolidation qs m h = Returned h2 out →
  forallb (fun q => normalizes (h q)) qs = true.
Proof.
  intros Hrun. pose proof (consolidation_outcome qs m h) as H.
  destruct (forallb _ qs); [done|]. destruct H as [h' H]. congruence.
Qed.


(** ** Strings *)

Local Arguments String.append !_ _ / : simpl nomatch.

Ltac each_char c := destruct c as [[] [] [] [] [] [] [] []]; vm_compute; try done.

Lemma isSpace_lowerChar c : Js.isSpace (Js.lowerChar c) = Js.isSpace c.
Proof. each_char c. Qed.

Lemma isSpace_upperChar c : Js.isSpace (Js.upperChar c) = Js.isSpace c.
Proof. each_char c. Qed.

Lemma lowerChar_lowerChar c : Js.lowerChar (Js.lowerChar c) = Js.lowerChar c.
Proof. each_char c. Qed.

Lemma lowerChar_upperChar c : Js.lowerChar (Js.upperChar c) = Js.lowerChar c.
Proof. each_char c. Qed.

Lemma append_nil_r s : s +:+ "" = s.
Proof. induction s; simpl; by f_equal. Qed.

Lemma append_assoc s1 s2 s3 : (s1 +:+ s2) +:+ s3 = s1 +:+ (s2 +:+ s3).
Proof. induction s1; simpl; by f_equal. Qed.

Lemma toLowerCase_idemp s : Js.toLowerCase (Js.toLowerCase s) = Js.toLowerCase s.
Proof. induction s; simpl; [done|]. by rewrite lowerChar_lowerChar, IHs. Qed.

Lemma noSpaces_toLowerCase s : noSpaces (Js.toLowerCase s) = noSpaces s.
Proof. induction s; simpl; [done|]. by rewrite isSpace_lowerChar, IHs. Qed.

Lemma toLowerCase_empty s : Js.toLowerCase s = "" ↔ s = "".
Proof. by destruct s. Qed.

Lemma toLowerCase_capitalize s : Js.toLowerCase (capitalize s) = Js.toLowerCase s.
Proof. destruct s as [|c s]; simpl; [done|]. by rewrite lowerChar_upperChar. Qed.

Lemma noSpaces_capitalize s : noSpaces (capitalize s) = noSpaces s.
Proof. destruct s as [|c s]; simpl; [done|]. by rewrite isSpace_upperChar. Qed.

Lemma capitalize_empty s : capitalize s = "" ↔ s = "".
Proof. by destruct s. Qed.

Lemma noSpaces_app s t : noSpaces (s +:+ t) = noSpaces s && noSpaces t.
Proof. induction s; simpl; [done|]. by rewrite IHs, andb_assoc. Qed.

(** *** Trimming *)

Lemma trimStart_shape s :
  Js.trimStart s = "" ∨ ∃ c t, Js.trimStart s = String c t ∧ Js.isSpace c = false.
Proof.
  induction s as [|c s IH]; simpl; [by left|].
  destruct (Js.isSpace c) eqn:Hc; [done|]. right. by exists c, s.
Qed.

Lemma trimEnd_shape s :
  Js.trimEnd s = "" ∨ ∃ t c, Js.trimEnd s = t +:+ String c "" ∧ Js.isSpace c = false.
Proof.
  induction s as [|c s IH]; simpl; [by left|].
  destruct IH as [->|(t & c' & -> & Hc')].
  - destruct (Js.isSpace c) eqn:Hc; [by left|]. right. by exists "", c.
  - right. exists (String c t), c'. split; [|done]. by destruct t.
Qed.

Lemma trimEnd_head c s :
  Js.isSpace c = false → ∃ t, Js.trimEnd (String c s) = String c t.
Proof. intros Hc. simpl. rewrite Hc. destruct (Js.trimEnd s); eauto. Qed.

Lemma trim_shape s :
  Js.trim s = "" ∨
  ∃ c t d, Js.trim s = String c t ∧ Js.isSpace c = false ∧
           (∃ u, Js.trim s = u +:+ String d "") ∧ Js.isSpace d = false.
Proof.
  unfold Js.trim.
  destruct (trimStart_shape s) as [->|(c & t & -> & Hc)]; [by left|].
  destruct (trimEnd_head c t Hc) as [t' Ht']. right.
  destruct (trimEnd_shape (String c t)) as [He|(u & d & He & Hd)]; [congruence|].
  exists c, t', d. split_and!; [done|done|by exists u|done].
Qed.

Lemma trimEnd_noSpaces s : noSpaces s = true → Js.trimEnd s = s.
Proof.
  induction s as [|c s IH]; simpl; [done|].
  intros [Hc Hs]%andb_prop. rewrite IH by done.
  destruct s; [|done]. by destruct (Js.isSpace c).
Qed.

Lemma trimEnd_app s t : t ≠ "" → noSpaces t = true → Js.trimEnd (s +:+ t) = s +:+ t.
Proof.
  intros Ht Hns. induction s as [|c s IH]; simpl; [by apply trimEnd_noSpaces|].
  rewrite IH. destruct (s +:+ t) eqn:Hst; [|done].
  exfalso. destruct s; simpl in Hst; congruence.
Qed.

(** *** Splitting at white space *)

Lemma splitSpaces_go_noSpaces sep cur s :
  noSpaces s = true → Js.splitSpaces_go sep cur s = [cur +:+ s].
Proof.
  revert sep cur. induction s as [|c s IH]; intros sep cur; simpl.
  - by rewrite append_nil_r.
  - intros [Hc Hs]%andb_prop. apply negb_true_iff in Hc. rewrite Hc.
    rewrite IH by done. by rewrite append_assoc.
Qed.

Lemma splitSpaces_go_two cur f l :
  noSpaces f = true → noSpaces l = true →
  Js.splitSpaces_go false cur (f +:+ String " " l) = [cur +:+ f; l].
Proof.
  intros Hf Hl. revert cur.
  induction f as [|c f IH]; intros cur; simpl.
  - by rewrite splitSpaces_go_noSpaces, append_nil_r.
  - apply andb_prop in Hf as [Hc Hf]. apply negb_true_iff in Hc. rewrite Hc.
    rewrite IH by done. by rewrite append_assoc.
Qed.

Lemma splitSpaces_two f l :
  noSpaces f = true → noSpaces l = true →
  Js.splitSpaces (f +:+ String " " l) = [f; l].
Proof. intros. unfold Js.splitSpaces. by rewrite splitSpaces_go_two. Qed.

Lemma splitSpaces_go_pieces sep cur s :
  noSpaces cur = true → Forall (fun p => noSpaces p = true) (Js.splitSpaces_go sep cur s).
Proof.
  revert sep cur. induction s as [|c s IH]; intros sep cur Hcur; simpl.
  - by constructor.
  - destruct (Js.isSpace c) eqn:Hc.
    + destruct sep; [by apply IH|]. constructor; [done|by apply IH].
    + apply IH. rewrite noSpaces_app, Hcur. simpl. by rewrite Hc.
Qed.

Lemma splitSpaces_go_head cur c s :
  Js.isSpace c = false →
  ∃ p, head (Js.splitSpaces_go false cur (String c s)) = Some p ∧ p ≠ "".
Proof.
  intros Hc. simpl. rewrite Hc.
  assert (Hne : cur +:+ String c "" ≠ "") by (by destruct cur).
  revert Hne. generalize (cur +:+ String c ""). clear.
  induction s as [|c s IH]; intros cur Hne; simpl; [eauto|].
  destruct (Js.isSpace c); [eauto|]. apply IH. by destruct cur.
Qed.

Lemma splitSpaces_go_last sep cur s d :
  Js.isSpace d = false →
  ∃ p, last (Js.splitSpaces_go sep cur (s +:+ String d "")) = Some p ∧ p ≠ "".
Proof.
  intros Hd. revert sep cur. induction s as [|c s IH]; intros sep cur; simpl.
  - rewrite Hd. simpl. exists (cur +:+ String d ""). split; [done|by destruct cur].
  - destruct (Js.isSpace c); [|apply IH].
    destruct sep; [apply IH|].
    destruct (IH true "") as (p & Hp & Hne). exists p. split; [|done].
    destruct (Js.splitSpaces_go true "" (s +:+ String d "")); [done|].
    by rewrite last_cons_cons.
Qed.

(** The first and the last piece of a trimmed name hold no white space, and
    they are both empty or both non-empty. *)
Lemma nameParts_shape s :
  ∃ f l, head (Js.splitSpaces (Js.trim s)) = Some f ∧
         last (Js.splitSpaces (Js.trim s)) = Some l ∧
         noSpaces f = true ∧ noSpaces l = true ∧
         (f = "" ∧ l = "" ∨ f ≠ "" ∧ l ≠ "").
Proof.
  assert (Hall := splitSpaces_go_pieces false "" (Js.trim s) eq_refl).
  fold (Js.splitSpaces (Js.trim s)) in Hall.
  destruct (trim_shape s) as [Hs|(c & t & d & Hhd & Hc & [u Hlast] & Hd)].
  - rewrite Hs. exists "", "". by split_and!; [..|left].
  - destruct (splitSpaces_go_head "" c t Hc) as (f & Hf & Hfne).
    destruct (splitSpaces_go_last false "" u d Hd) as (l & Hl & Hlne).
    rewrite <-Hhd in Hf. rewrite <-Hlast in Hl.
    fold (Js.splitSpaces (Js.trim s)) in Hf, Hl.
    exists f, l. rewrite Forall_forall in Hall.
    split_and!; [done|done| | |by right].
    + apply Hall. by apply head_Some_elem_of.
    + apply Hall. by apply last_Some_elem_of.
Qed.

(** *** Normalized names are stable *)

Lemma nameVariations_longForms : forallb longFormOk nameVariations = true.
Proof. vm_compute. reflexivity. Qed.

Lemma lookupOwn_elem_of table k v : lookupOwn table k = Some v → (k, v) ∈ table.
Proof.
  unfold lookupOwn. destruct (find _ table) as [[k' v']|] eqn:Hfind; [|done].
  intros [= <-]. apply find_some in Hfind as [Hin Hk].
  apply bool_decide_eq_true in Hk. simpl in Hk. subst. by apply list_elem_of_In.
Qed.

Lemma nameVariationsAt_own k v :
  nameVariationsAt k = OwnString v →
  nameVariationsAt v = Undefined ∧ noSpaces v = true ∧ v ≠ "" ∧ Js.toLowerCase v = v.
Proof.
  unfold nameVariationsAt at 1.
  destruct (lookupOwn nameVariations k) as [v'|] eqn:Hk; [|by case_bool_decide].
  intros [= ->]. apply lookupOwn_elem_of, list_elem_of_In in Hk.
  pose proof nameVariations_longForms as Hall. rewrite forallb_forall in Hall.
  apply Hall in Hk. unfold longFormOk in Hk. simpl in Hk.
  apply andb_prop in Hk as [Hk H4]. apply andb_prop in Hk as [Hk H3].
  apply andb_prop in Hk as [H1 H2].
  split_and!.
  - by destruct (nameVariationsAt v).
  - done.
  - apply negb_true_iff, bool_decide_eq_false in H3. done.
  - by apply bool_decide_eq_true in H4.
Qed.

Lemma trimStart_head c t : Js.isSpace c = false → Js.trimStart (String c t) = String c t.
Proof. intros Hc. simpl. by rewrite Hc. Qed.

Lemma trim_two f l :
  f ≠ "" → l ≠ "" → noSpaces f = true → noSpaces l = true →
  Js.trim (f +:+ String " " l) = f +:+ String " " l.
Proof.
  intros Hf Hl Hnf Hnl. unfold Js.trim.
  destruct f as [|c f]; [done|]. simpl in Hnf.
  apply andb_prop in Hnf as [Hc%negb_true_iff _].
  change (String c f +:+ String " " l) with (String c (f +:+ String " " l)).
  rewrite trimStart_head by done.
  change (String c (f +:+ String " " l)) with ((String c f) +:+ (" " +:+ l)).
  rewrite <-append_assoc. by apply trimEnd_app.
Qed.

(** Normalizing a normalized name gives the same name. *)
Lemma normalizeAnalystName_stable s nn :
  normalizeAnalystName s = Ok nn →
  normalizeAnalystName (Js.trim (normalizedName nn)) = Ok nn.
Proof.
  unfold normalizeAnalystName at 1, firstPart, lastPart.
  destruct (nameParts_shape s) as (f0 & l0 & -> & -> & Hnf & Hnl & Hcase). simpl.
  set (f := Js.toLowerCase f0). set (l := Js.toLowerCase l0).
  assert (He : ∀ e,
    match nameVariationsAt f with
    | OwnString v => Ok v | Inherited => Throw TypeError | Undefined => Ok f
    end = Ok e →
    nameVariationsAt e = Undefined ∧ noSpaces e = true ∧ Js.toLowerCase e = e ∧
    (f0 ≠ "" → e ≠ "") ∧ (f0 = "" → e = "")).
  { intros e. destruct (nameVariationsAt f) as [v| |] eqn:Hv; [| done |].
    - intros [= ->]. destruct (nameVariationsAt_own f e Hv) as (?&?&?&?).
      split_and!; [done..|]. intros ->. by vm_compute in Hv.
    - intros [= <-]. unfold f. rewrite noSpaces_toLowerCase, toLowerCase_idemp.
      split_and!; [done..| |by intros ->]. by rewrite toLowerCase_empty. }
  destruct (match nameVariationsAt f with
            | OwnString v => Ok v | Inherited => Throw TypeError | Undefined => Ok f
            end) as [e|] eqn:Hexp; [|done].
  destruct (He e eq_refl) as (Hund & Hne & Hle & Hnonempty & Hempty). clear He.
  cbn [mbind result_bind]. intros [= <-]. cbn [normalizedName].
  destruct Hcase as [[-> ->]|[Hf0 Hl0]].
  - rewrite (Hempty eq_refl). by vm_compute.
  - assert (Hl : l ≠ "") by (unfold l; by rewrite toLowerCase_empty).
    rewrite trim_two;
      [|by rewrite capitalize_empty; auto|by rewrite capitalize_empty
       |by rewrite noSpaces_capitalize
       |by unfold l; rewrite noSpaces_capitalize, noSpaces_toLowerCase].
    unfold normalizeAnalystName, firstPart, lastPart.
    rewrite trim_two;
      [|by rewrite capitalize_empty; auto|by rewrite capitalize_empty
       |by rewrite noSpaces_capitalize
       |by unfold l; rewrite noSpaces_capitalize, noSpaces_toLowerCase].
    rewrite splitSpaces_two;
      [|by rewrite noSpaces_capitalize
       |by unfold l; rewrite noSpaces_capitalize, noSpaces_toLowerCase].
    cbn [head last default id]. rewrite !toLowerCase_capitalize, Hle, Hund.
    cbn [mbind result_bind]. unfold l. by rewrite toLowerCase_idemp.
Qed.

Lemma trim_trim s : Js.trim (Js.trim s) = Js.trim s.
Proof.
  destruct (trim_shape s) as [->|(c & t & d & Hhd & Hc & [u Hlast] & Hd)]; [done|].
  unfold Js.trim at 1. rewrite Hhd, trimStart_head by done. rewrite <-Hhd, Hlast.
  apply trimEnd_app; [done|]. simpl. by rewrite Hd.
Qed.


(** ** The known company of a group *)

Lemma lastKnown_snoc cs c :
  lastKnown (cs ++ [c]) = if decide (c ≠ "Unknown") then c else lastKnown cs.
Proof. unfold lastKnown. by rewrite fold_left_app. Qed.

Lemma lastKnown_cases cs :
  lastKnown cs = "" ∨ (lastKnown cs ∈ cs ∧ lastKnown cs ≠ "Unknown").
Proof.
  induction cs as [|c cs IH] using rev_ind; [by left|].
  rewrite lastKnown_snoc. case_decide.
  - right. split; [|done]. apply elem_of_app. right. by left.
  - destruct IH as [?|[? ?]]; [by left|right]. split; [|done].
    apply elem_of_app. by left.
Qed.

Lemma lastKnown_all_unknown cs : (∀ c, c ∈ cs → c = "Unknown") → lastKnown cs = "".
Proof.
  intros Hall. destruct (lastKnown_cases cs) as [?|[Hin Hne]]; [done|].
  by apply Hall in Hin.
Qed.


Lemma lastKnown_empty_inv cs :
  lastKnown cs = "" → (∀ c, c ∈ cs → c ≠ "") → ∀ c, c ∈ cs → c = "Unknown".
Proof.
  induction cs as [|c cs IH] using rev_ind; [by intros _ _ c ?%elem_of_nil|].
  rewrite lastKnown_snoc. intros Hk Hne c' Hc'. case_decide as Hc.
  - subst c. exfalso. apply (Hne ""); [|done]. apply elem_of_app. right. by left.
  - apply elem_of_app in Hc' as [Hc'|Hc'].
    + apply IH; [done| |done]. intros c0 Hc0. apply Hne, elem_of_app. by left.
    + apply list_elem_of_singleton in Hc'. congruence.
Qed.

(** ** Keys of merged records *)

Lemma personKey_spec x :
  normalizes x = true →
  ∃ nn, normalizeAnalystName (Js.trim (analystName x)) = Ok nn ∧
        personKey x = normalizedName nn.
Proof.
  unfold normalizes, personKey.
  destruct (normalizeAnalystName _) as [nn|]; [eauto|done].
Qed.

Lemma personKey_renamed x y :
  normalizes x = true → analystName y = personKey x →
  normalizes y = true ∧ personKey y = personKey x.
Proof.
  intros (nn & Hnn & Hkey)%personKey_spec Hy.
  unfold normalizes, personKey. rewrite Hy, Hkey.
  by rewrite (normalizeAnalystName_stable _ _ Hnn).
Qed.

Lemma analystName_mergeIdentity n known x : analystName (mergeIdentity n known x) = n.
Proof. unfold mergeIdentity. by case_bool_decide. Qed.

Lemma analystCompany_mergeIdentity n known x :
  analystCompany (mergeIdentity n known x)
  = if decide (known = "") then analystCompany x else known.
Proof.
  unfold mergeIdentity. case_bool_decide; case_decide; done.
Qed.

Lemma symbol_mergeIdentity n known x : symbol (mergeIdentity n known x) = symbol x.
Proof. unfold mergeIdentity. by case_bool_decide. Qed.

Lemma mergeIdentity_same x :
  mergeIdentity (analystName x) (analystCompany x) x = x.
Proof. unfold mergeIdentity. destruct x. by case_bool_decide. Qed.

Lemma mergeIdentity_same_name x : mergeIdentity (analystName x) "" x = x.
Proof. unfold mergeIdentity. by destruct x. Qed.

(** ** The frame of every loop *)

Lemma fold_left_frame
    (step : (nat → AnalystQuestion) → nat → (nat → AnalystQuestion)) l :
  (∀ h q r, sameFrame (h r) (step h q r)) →
  ∀ h r, sameFrame (h r) (fold_left step l h r).
Proof.
  intros Hstep. induction l as [|q l IH]; intros h r; simpl.
  - apply sameFrame_refl.
  - eapply sameFrame_trans; [apply (Hstep h q r)|apply IH].
Qed.

Lemma assignOperatorCompany_frame m (h : nat → AnalystQuestion) q r :
  sameFrame (h r) (assignOperatorCompany m h q r).
Proof.
  rewrite assignOperatorCompany_at. case_decide; subst.
  - apply attributeOperator_frame.
  - apply sameFrame_refl.
Qed.

Lemma consolidateEntry_frame n known (h : nat → AnalystQuestion) e r :
  sameFrame (h r) (consolidateEntry n known h e r).
Proof.
  rewrite consolidateEntry_at. case_decide; subst.
  - apply mergeIdentity_frame.
  - apply sameFrame_refl.
Qed.

Lemma consolidateGroups_frame gs (h : nat → AnalystQuestion) final r :
  sameFrame (h r) ((consolidateGroups gs h final).1 r).
Proof.
  unfold consolidateGroups. revert h final.
  induction gs as [|[k g] gs IH]; intros h final; simpl.
  - apply sameFrame_refl.
  - eapply sameFrame_trans; [|apply IH].
    apply fold_left_frame. intros. apply consolidateEntry_frame.
Qed.

Lemma consolidateSymbols_frame groups (h : nat → AnalystQuestion) final r :
  sameFrame (h r) (finalHeap (consolidateSymbols groups h final) r).
Proof.
  revert h final. induction groups as [|[s sqs] groups IH]; intros h final; simpl.
  - apply sameFrame_refl.
  - destruct (buildNameGroups h sqs) as [ngs|e]; simpl.
    + eapply sameFrame_trans; [|apply IH]. apply consolidateGroups_frame.
    + apply sameFrame_refl.
Qed.


(** ** Identity groups after the operator assignments *)

Lemma sameIdentity_attributeOperator m x y :
  sameIdentity (attributeOperator m x) (attributeOperator m y) ↔ sameIdentity x y.
Proof.
  unfold sameIdentity.
  by rewrite !symbol_attributeOperator, !personKey_attributeOperator.
Qed.

Lemma groupCompany_sameIdentity (h : nat → AnalystQuestion) l x y :
  sameIdentity x y → groupCompany h l y = groupCompany h l x.
Proof.
  intros [Hs Hk]. unfold groupCompany. f_equal. f_equal.
  apply list_filter_iff. intros q. unfold sameIdentity. by rewrite Hs, Hk.
Qed.

(** Every company a group knows is the company of one of its members. *)
Lemma groupCompany_member (h : nat → AnalystQuestion) l x :
  groupCompany h l x = "" ∨
  (groupCompany h l x ≠ "Unknown" ∧
   ∃ q, q ∈ l ∧ sameIdentity x (h q) ∧ analystCompany (h q) = groupCompany h l x).
Proof.
  unfold groupCompany.
  destruct (lastKnown_cases
              (map (fun q => analystCompany (h q))
                 (filter (fun q => sameIdentity x (h q)) l))) as [?|[Hin Hne]];
    [by left|right].
  split; [done|].
  apply list_elem_of_fmap in Hin as (q & Hq & Hin).
  apply list_elem_of_filter in Hin as [Hid Hin]. by exists q.
Qed.


(** ** What the specification states about consolidation *)

(** C7.  Consolidation writes only [analystName] and [analystCompany]: for
    every record, the question text, the title, the transcript id, the
    symbol, the quarter, the year and the transcript title are the same
    before the call and in the heap the call leaves behind, whether it
    returned or threw. *)
Theorem consolidation_frame qs m (h : nat → AnalystQuestion) r :
  sameFrame (h r) (finalHeap (applyCompanyWideAnalystConsolidation qs m h) r).
Proof.
  unfold applyCompanyWideAnalystConsolidation.
  eapply sameFrame_trans; [|apply consolidateSymbols_frame].
  unfold applyOperatorAssignments.
  apply fold_left_frame. intros. apply assignOperatorCompany_frame.
Qed.



(** C3, as amended.  For analyst names and operator institutions of ASCII
    characters: running consolidation again on its own output, with the
    same operator map, returns and changes no field of any record, provided
    the output holds no empty company and the operator map gives no record
    of the output (under its normalized name) an institution other than the
    one it carries.  The returned array holds the same references, possibly
    in another order.  (The names are those the first run was given: the
    capital letter the first run puts in front of a word is the one a
    second run puts there on ASCII letters, which other letters need not
    satisfy.) *)
Theorem consolidation_idempotent qs m (h h2 : nat → AnalystQuestion) out :
  (∀ q, q ∈ qs → asciiText (analystName (h q)) = true) →
  (∀ k c, m !! k = Some c → asciiText c = true) →
  applyCompanyWideAnalystConsolidation qs m h = Returned h2 out →
  (∀ r, r ∈ out → analystCompany (h2 r) ≠ "") →
  (∀ r c, r ∈ out → m !! Js.trim (analystName (h2 r)) = Some c →
          analystCompany (h2 r) = normalizeCompanyName c) →
  ∃ h3 out',
    applyCompanyWideAnalystConsolidation out m h2 = Returned h3 out' ∧
    out' ≡ₚ out ∧
    ∀ r, h3 r = h2 r.
Proof.
  intros _ _ Hrun Hnonempty Hmap.
  pose proof (consolidation_returned_inv _ _ _ _ _ Hrun) as Hok.
  destruct (consolidation_returns qs m h Hok) as (h2' & out0 & Hrun' & Hout & Hh2).
  rewrite Hrun in Hrun'. injection Hrun' as <- <-.
  set (A := afterOperator m h) in *. set (l1 := transcriptProcessed h qs) in *.
  assert (Hl1 : ∀ q, q ∈ l1 ↔ q ∈ qs).
  { intros q. unfold l1. by rewrite transcriptProcessed_perm. }
  assert (HokA : ∀ q, q ∈ qs → normalizes (A q) = true).
  { intros q Hq. unfold A, afterOperator. rewrite normalizes_attributeOperator.
    rewrite forallb_forall in Hok. by apply Hok, list_elem_of_In. }
  (* the records of the output *)
  assert (Hout2 : ∀ q, q ∈ qs →
            analystName (h2 q) = personKey (A q) ∧
            symbol (h2 q) = symbol (A q) ∧
            normalizes (h2 q) = true ∧ personKey (h2 q) = personKey (A q) ∧
            analystCompany (h2 q)
            = if decide (groupCompany A l1 (A q) = "") then analystCompany (A q)
              else groupCompany A l1 (A q)).
  { intros q Hq. rewrite Hh2, decide_True by done. unfold mergedRecord.
    rewrite analystName_mergeIdentity, symbol_mergeIdentity, analystCompany_mergeIdentity.
    destruct (personKey_renamed (A q)
                (mergeIdentity (personKey (A q)) (groupCompany A l1 (A q)) (A q)))
      as [? ?]; [by apply HokA|by rewrite analystName_mergeIdentity|done]. }
  (* the operator assignments change nothing the second time *)
  assert (HA2 : ∀ q, q ∈ out → afterOperator m h2 q = h2 q).
  { intros q Hq. unfold afterOperator, attributeOperator.
    destruct (m !! Js.trim (analystName (h2 q))) as [c|] eqn:Hc; [|done].
    by rewrite <-(Hmap q c Hq Hc), setAnalystCompany_same. }
  assert (Hok2 : forallb (fun q => normalizes (h2 q)) out = true).
  { apply forallb_forall. intros q Hq%list_elem_of_In. rewrite Hout in Hq.
    by apply Hout2. }
  destruct (consolidation_returns out m h2 Hok2) as (h3 & out' & Hrun3 & Hout' & Hh3).
  exists h3, out'. split_and!; [done..|].
  intros r. rewrite Hh3. case_decide as Hr; [|done].
  rewrite HA2 by done.
  set (l2 := transcriptProcessed h2 out).
  assert (Hl2 : ∀ q, q ∈ l2 ↔ q ∈ out).
  { intros q. unfold l2. by rewrite transcriptProcessed_perm. }
  unfold mergedRecord.
  rewrite (groupCompany_ext (afterOperator m h2) h2)
    by (intros q Hq; apply HA2; by apply Hl2).
  assert (Hrq : r ∈ qs) by (by rewrite <-Hout).
  destruct (Hout2 r Hrq) as (Hname & Hsym & _ & Hkey & Hcomp).
  rewrite Hkey, <-Hname.
  destruct (groupCompany_member h2 l2 (h2 r)) as [->|(Hne & q & Hq & Hid & Hc)];
    [apply mergeIdentity_same_name|].
  rewrite <-Hc.
  enough (analystCompany (h2 q) = analystCompany (h2 r)) as ->
    by apply mergeIdentity_same.
  apply Hl2 in Hq. assert (Hqq : q ∈ qs) by (by rewrite <-Hout).
  destruct (Hout2 q Hqq) as (_ & Hsymq & _ & Hkeyq & Hcompq).
  assert (HidA : sameIdentity (A r) (A q)).
  { destruct Hid as [Hs Hk]. split; congruence. }
  rewrite Hcompq, Hcomp, (groupCompany_sameIdentity A l1 (A r) (A q) HidA).
  destruct (decide (groupCompany A l1 (A r) = "")) as [HK1|HK1]; [|done].
  (* the group knew no company the first time: all its members are unknown *)
  exfalso. apply Hne. rewrite <-Hc, Hcompq.
  rewrite (groupCompany_sameIdentity A l1 (A r) (A q) HidA), decide_True by done.
  unfold groupCompany in HK1.
  eapply (lastKnown_empty_inv _ HK1).
  - intros c (q' & -> & Hq')%list_elem_of_fmap.
    apply list_elem_of_filter in Hq' as [Hid' Hq']. apply Hl1 in Hq'.
    destruct (Hout2 q' Hq') as (_ & _ & _ & _ & Hcompq').
    rewrite (groupCompany_sameIdentity A l1 (A r) (A q') Hid') in Hcompq'.
    unfold groupCompany in Hcompq'. rewrite decide_True in Hcompq' by done.
    rewrite <-Hcompq'. apply Hnonempty. by rewrite Hout.
  - apply list_elem_of_fmap. exists q. split; [done|].
    apply list_elem_of_filter. split; [done|by apply Hl1].
Qed.






(** ** Concrete runs of consolidation *)

Ltac in_list H :=
  repeat (apply elem_of_cons in H as [->|H]);
  [..|exact (False_ind _ (proj1 (elem_of_nil _) H))].





(** Scenario B again: a second run over the output changes nothing. *)
Lemma consolidation_idempotent_witness :
  let m : gmap string string := {[ "Michael Ng" := "Goldman Sachs" ]} in
  let o := applyCompanyWideAnalystConsolidation [0; 1]%nat m (heapOf scenarioB) in
  ∃ h3 out',
    applyCompanyWideAnalystConsolidation (returnedQuestions o) m (finalHeap o)
    = Returned h3 out' ∧
    out' ≡ₚ returnedQuestions o ∧
    ∀ r, h3 r = finalHeap o r.
Proof.
  intros m o.
  assert (Hout : returnedQuestions o = [0; 1]%nat) by (vm_compute; reflexivity).
  apply (consolidation_idempotent [0; 1]%nat m (heapOf scenarioB)).
  - intros q Hq. in_list Hq; vm_compute; reflexivity.
  - intros k c Hm. apply lookup_singleton_Some in Hm as [_ <-]. vm_compute. reflexivity.
  - vm_compute. reflexivity.
  - intros r Hr. rewrite Hout in Hr. in_list Hr; vm_compute; discriminate.
  - intros r c Hr Hm. rewrite Hout in Hr.
    in_list Hr; vm_compute in Hm; injection Hm as <-; vm_compute; reflexivity.
Defined.

(** The title gave "Mike Ng" Goldman Sachs and the operator introduced a
    "Michael Ng" of Barclays: the first run renames the record, the second
    finds the new name in the operator map. *)
Lemma second_run_changes_company :
  ¬ (∀ qs (m : gmap string string) (h h2 : nat → AnalystQuestion) out,
       applyCompanyWideAnalystConsolidation qs m h = Returned h2 out →
       ∀ r, finalHeap (applyCompanyWideAnalystConsolidation out m h2) r = h2 r).
Proof.
  intros Hall.
  pose (m := ({[ "Michael Ng" := "Barclays" ]} : gmap string string)).
  pose (o := applyCompanyWideAnalystConsolidation [0%nat] m (heapOf titleOnlyRecords)).
  specialize (Hall [0%nat] m (heapOf titleOnlyRecords)
                (finalHeap o) (returnedQuestions o)).
  assert (Hrun : applyCompanyWideAnalystConsolidation [0%nat] m (heapOf titleOnlyRecords)
                 = Returned (finalHeap o) (returnedQuestions o))
    by (vm_compute; reflexivity).
  specialize (Hall Hrun 0%nat).
  apply (f_equal analystCompany) in Hall.
  vm_compute in Hall. discriminate.
Qed.






(** ** The boundary of the question session *)

Lemma orJs_string s : asString (orJs (JStr s) (JStr "")) = Ok s.
Proof. unfold orJs. simpl. by case_bool_decide; subst. Qed.

Lemma getProp_turnObject sp ti co :
  getProp (turnObject sp ti co) "speaker" = Ok (JStr sp) ∧
  getProp (turnObject sp ti co) "title" = Ok (JStr ti) ∧
  getProp (turnObject sp ti co) "content" = Ok (JStr co).
Proof. split_and!; reflexivity. Qed.

Lemma lowerField_title sp ti co :
  lowerField (turnObject sp ti co) "title" = Ok (Js.toLowerCase ti).
Proof.
  unfold lowerField. destruct (getProp_turnObject sp ti co) as (_ & -> & _).
  cbn [mbind result_bind]. by rewrite orJs_string.
Qed.

Lemma lowerField_content sp ti co :
  lowerField (turnObject sp ti co) "content" = Ok (Js.toLowerCase co).
Proof.
  unfold lowerField. destruct (getProp_turnObject sp ti co) as (_ & _ & ->).
  cbn [mbind result_bind]. by rewrite orJs_string.
Qed.

Lemma logSpeaker_turn sp ti co : logSpeaker (turnObject sp ti co) = Ok tt.
Proof. reflexivity. Qed.

Lemma startsQuestionSession_turn i sp ti co :
  startsQuestionSession i (turnObject sp ti co) = Ok (boundaryTurn i ti co).
Proof.
  unfold startsQuestionSession, boundaryTurn.
  rewrite lowerField_title, lowerField_content.
  cbn [mbind result_bind]. rewrite logSpeaker_turn. cbn [mbind result_bind].
  destruct (Js.includes (Js.toLowerCase ti) "analyst"); [done|].
  cbn [orb].
  by destruct (Js.includes (Js.toLowerCase ti) "operator" && (0 <? i)%nat
               && questionSessionWords (Js.toLowerCase co)).
Qed.

(** *** Any segment the scan can read *)

Lemma textOrEmpty_asString v s :
  textOrEmpty v = Some s → asString (orJs v (JStr "")) = Ok s.
Proof.
  unfold textOrEmpty, orJs. destruct v as [| |b|n|s0|items|fields]; cbn [truthy].
  - by intros [= <-].
  - by intros [= <-].
  - destruct b; [done|]. by intros [= <-].
  - destruct (negb (n =? 0)%Z); [done|]. by intros [= <-].
  - intros [= <-]. case_bool_decide; by subst.
  - done.
  - done.
Qed.

Lemma textOrEmpty_printable v s : textOrEmpty v = Some s → ∃ p, toJsString v = Ok p.
Proof.
  unfold textOrEmpty, toJsString.
  destruct v as [| |b|n|s0|items|fields]; cbn [truthy stringOf]; try done; eauto.
Qed.

Lemma boundaryTexts_inv segment t :
  boundaryTexts segment = Some t →
  ∃ tv cv, getProp segment "title" = Ok tv ∧ getProp segment "content" = Ok cv ∧
           textOrEmpty tv = Some t.1 ∧ textOrEmpty cv = Some t.2.
Proof.
  unfold boundaryTexts.
  destruct (getProp segment "title") as [tv|]; [|done].
  destruct (getProp segment "content") as [cv|]; [|done].
  destruct (textOrEmpty tv) as [ti|] eqn:Hti; [|done].
  destruct (textOrEmpty cv) as [co|] eqn:Hco; [|done].
  cbn [mbind option_bind]. intros [= <-]. by exists tv, cv.
Qed.

Lemma startsQuestionSession_texts i segment t :
  boundaryTexts segment = Some t → speakerPrintable segment = true →
  startsQuestionSession i segment = Ok (boundaryTurn i t.1 t.2).
Proof.
  intros (tv & cv & Htv & Hcv & Hti & Hco)%boundaryTexts_inv Hprint.
  assert (Hlog : logSpeaker segment = Ok tt).
  { unfold logSpeaker. unfold speakerPrintable in Hprint.
    destruct (getProp segment "speaker") as [name|]; [|done].
    apply bool_decide_eq_true in Hprint as [p Hp].
    assert (Hname : toJsString name = Ok p) by (unfold toJsString; by rewrite Hp).
    cbn [mbind result_bind]. rewrite Hname. cbn [mbind result_bind]. rewrite Htv.
    cbn [mbind result_bind].
    by destruct (textOrEmpty_printable tv _ Hti) as [p' ->]. }
  unfold startsQuestionSession, boundaryTurn, lowerField.
  rewrite Htv, Hcv. cbn [mbind result_bind].
  rewrite (textOrEmpty_asString tv _ Hti), (textOrEmpty_asString cv _ Hco).
  cbn [mbind result_bind]. rewrite Hlog. cbn [mbind result_bind].
  destruct (Js.includes (Js.toLowerCase t.1) "analyst"); [done|].
  cbn [orb].
  by destruct (Js.includes (Js.toLowerCase t.1) "operator" && (0 <? i)%nat
               && questionSessionWords (Js.toLowerCase t.2)).
Qed.

Lemma findQaStart_from_texts (speakers : list jsval) (texts : list (string * string)) i :
  Forall2 (fun segment t => boundaryTexts segment = Some t) speakers texts →
  Forall (fun segment => speakerPrintable segment = true) speakers →
  ∃ found,
    findQaStart_from i speakers = Ok found ∧
    match found with
    | Some b =>
        (i ≤ b < i + length texts)%nat ∧
        (∃ t, texts !! (b - i)%nat = Some t ∧ boundaryTurn b t.1 t.2 = true) ∧
        ∀ j t, (j < b - i)%nat → texts !! j = Some t →
               boundaryTurn (i + j) t.1 t.2 = false
    | None =>
        ∀ j t, texts !! j = Some t → boundaryTurn (i + j) t.1 t.2 = false
    end.
Proof.
  intros Htexts. revert i.
  induction Htexts as [|segment t speakers texts Ht Htexts IH]; intros i Hprint.
  - exists None. split; [done|]. by intros j t ?.
  - apply Forall_cons in Hprint as [Hp Hprint].
    cbn [findQaStart_from]. rewrite (startsQuestionSession_texts i segment t Ht Hp).
    cbn [mbind result_bind].
    destruct (boundaryTurn i t.1 t.2) eqn:Hb.
    + exists (Some i). split; [done|]. split_and!.
      * lia.
      * simpl. lia.
      * exists t. rewrite Nat.sub_diag. done.
      * intros j t' Hj. lia.
    + destruct (IH (S i) Hprint) as (found & Hrun & Hfound). exists found.
      split; [done|]. destruct found as [b|].
      * destruct Hfound as ([Hlo Hhi] & (t0 & Ht0 & Htb) & Hbefore). split_and!.
        -- lia.
        -- simpl. lia.
        -- exists t0. split; [|done].
           replace (b - i)%nat with (S (b - S i)) by lia. done.
        -- intros [|j] t' Hj Ht'.
           ++ simplify_eq/=. by rewrite Nat.add_0_r.
           ++ simpl in Ht'. replace (i + S j)%nat with (S i + j)%nat by lia.
              apply Hbefore; [lia|done].
      * intros [|j] t' Ht'.
        -- simplify_eq/=. by rewrite Nat.add_0_r.
        -- simpl in Ht'. replace (i + S j)%nat with (S i + j)%nat by lia.
           by apply Hfound.
Qed.

(** C8, as amended.  The scan reads of every segment the title and the
    content, each a text or, when the field is missing or falsy, the empty
    text ([texts]); the segment may hold anything else.  It runs from
    index 0 and stops at the first segment whose title contains "analyst"
    or, from index 1 on, whose title contains "operator" and whose content
    contains "question" or "our next caller"; the opening segment is never
    taken for an operator turn of the question session.  When no segment
    qualifies the boundary is the number of segments. *)
Theorem qa_boundary_first (speakers : list jsval) (texts : list (string * string)) :
  Forall2 (fun segment t => boundaryTexts segment = Some t) speakers texts →
  Forall (fun segment => speakerPrintable segment = true) speakers →
  ∃ b,
    findQaStart speakers = Ok b ∧
    (b ≤ length speakers)%nat ∧
    (∀ j t, (j < b)%nat → texts !! j = Some t → boundaryTurn j t.1 t.2 = false) ∧
    ((b < length speakers)%nat →
     ∃ t, texts !! b = Some t ∧ boundaryTurn b t.1 t.2 = true) ∧
    (∀ t : string * string, boundaryTurn 0 t.1 t.2 = true →
          Js.includes (Js.toLowerCase t.1) "analyst" = true).
Proof.
  intros Htexts Hprint.
  pose proof (Forall2_length _ _ _ Htexts) as Hlen.
  destruct (findQaStart_from_texts speakers texts 0 Htexts Hprint)
    as (found & Hrun & Hfound).
  unfold findQaStart. rewrite Hrun. cbn [mbind result_bind].
  destruct found as [b|]; cbn [default from_option id].
  - destruct Hfound as ([_ Hhi] & (t & Ht & Htb) & Hbefore).
    rewrite Nat.sub_0_r in *. exists b. split_and!.
    + done.
    + simpl in Hhi. lia.
    + intros j t' Hj Ht'. by apply (Hbefore j t').
    + intros _. by exists t.
    + intros t'. unfold boundaryTurn.
      destruct (Js.includes (Js.toLowerCase t'.1) "analyst"); [done|].
      by rewrite andb_false_r.
  - exists (length speakers). split_and!.
    + done.
    + done.
    + intros j t _ Ht. by apply (Hfound j t).
    + lia.
    + intros t'. unfold boundaryTurn.
      destruct (Js.includes (Js.toLowerCase t'.1) "analyst"); [done|].
      by rewrite andb_false_r.
Qed.

(** A stored call whose second turn has no title and whose third has the
    title [null]: the opening operator speaks of the question session to
    come and is passed over, and the scan stops at the operator who
    introduces the first analyst. *)
Lemma qa_boundary_first_witness :
  ∃ b,
    findQaStart untitledCall = Ok b ∧
    (b ≤ length untitledCall)%nat ∧
    (∀ j t, (j < b)%nat → untitledTexts !! j = Some t → boundaryTurn j t.1 t.2 = false) ∧
    ((b < length untitledCall)%nat →
     ∃ t, untitledTexts !! b = Some t ∧ boundaryTurn b t.1 t.2 = true) ∧
    (∀ t : string * string, boundaryTurn 0 t.1 t.2 = true →
          Js.includes (Js.toLowerCase t.1) "analyst" = true).
Proof.
  apply qa_boundary_first.
  - unfold untitledCall, untitledTexts.
    repeat (constructor; [vm_compute; reflexivity|]). constructor.
  - unfold untitledCall.
    repeat (constructor; [vm_compute; reflexivity|]). constructor.
Defined.

(** Two turns the specification takes for the start of the question
    session and the scan does not.  An operator opens the call with the
    words "question and answer session": the scan passes over the turn at
    index 0.  A speaker titled "Equity Research" is an analyst for the
    question extractor: the scan looks for "analyst" in the title and
    passes over it.  With no other turn that qualifies, both scans end at
    the number of turns. *)
Lemma boundary_tests_differ :
  ¬ (∀ (turns : list (string * string * string)) b i t,
       findQaStart (map turnOf turns) = Ok b →
       turns !! i = Some t →
       Js.includes (Js.toLowerCase t.1.2) "operator" = true ∧
       questionSessionWords (Js.toLowerCase t.2) = true →
       (b ≤ i)%nat) ∧
  ¬ (∀ (turns : list (string * string * string)) b i t,
       findQaStart (map turnOf turns) = Ok b →
       turns !! i = Some t →
       isAnalystTitle t.1.2 = true →
       (b ≤ i)%nat).
Proof.
  split; intros Hall.
  - assert (Hle : (3 ≤ 0)%nat); [|lia].
    apply (Hall openingTurns 3%nat 0%nat
             ("Operator", "Operator",
              "Welcome to the call. A question and answer session will follow the remarks.")).
    + vm_compute. reflexivity.
    + reflexivity.
    + split; vm_compute; reflexivity.
  - assert (Hle : (3 ≤ 1)%nat); [|lia].
    apply (Hall researchTurns 3%nat 1%nat
             ("Jane Doe", "Equity Research", "We will publish our note after the call.")).
    + vm_compute. reflexivity.
    + reflexivity.
    + vm_compute. reflexivity.
Qed.


(** ** Prepared statements *)

Lemma bind_Ok {A B : Type} (r : result A) (k : A → result B) b :
  r ≫= k = Ok b → ∃ a, r = Ok a ∧ k a = Ok b.
Proof. destruct r as [a|e]; [eauto|done]. Qed.

(** A pushed record carries the title of its turn, and that title passed
    every test of the callback. *)
Lemma statementOfSpeaker_Some transcript speaker st :
  statementOfSpeaker transcript speaker = Ok (Some st) →
  ∃ t, getProp speaker "title" = Ok t ∧
       asString (orJs t (JStr "")) = Ok (PreparedStatement.speakerTitle st) ∧
       isExecutive (PreparedStatement.speakerTitle st) = true ∧
       isInvestorRelations (PreparedStatement.speakerTitle st) = false.
Proof.
  unfold statementOfSpeaker.
  intros (t & Ht & Hrest)%bind_Ok. exists t. split; [done|].
  apply bind_Ok in Hrest as (title & Htitle & Hrest).
  apply bind_Ok in Hrest as (name & _ & Hrest).
  apply bind_Ok in Hrest as (_ & _ & Hrest).
  destruct (isExecutive title) eqn:Hexec; [|done].
  destruct (Js.includes (Js.toLowerCase title) "analyst"); [done|].
  destruct (Js.includes (Js.toLowerCase title) "operator"); [done|].
  destruct (isInvestorRelations title) eqn:Hir; [done|].
  cbn [andb negb] in Hrest.
  apply bind_Ok in Hrest as (c & _ & Hrest).
  destruct (truthy c); [|done].
  apply bind_Ok in Hrest as (text & _ & Hrest).
  destruct (100 <? String.length (Js.trim text))%nat; [|done].
  injection Hrest as <-. done.
Qed.

Lemma collectStatements_elem_of transcript speakers statements st :
  st ∈ collectStatements transcript speakers statements →
  st ∈ statements ∨
  ∃ speaker, speaker ∈ speakers ∧ statementOfSpeaker transcript speaker = Ok (Some st).
Proof.
  revert statements. induction speakers as [|speaker speakers IH]; intros statements; simpl.
  - by left.
  - destruct (statementOfSpeaker transcript speaker) as [[st'|]|e] eqn:Hsp.
    + intros [[Hin|Hin%list_elem_of_singleton]%elem_of_app|(sp & Hsp' & Hst)]%IH.
      * by left.
      * subst st'. right. exists speaker. split; [by left|done].
      * right. exists sp. split; [by right|done].
    + intros [Hin|(sp & Hsp' & Hst)]%IH; [by left|].
      right. exists sp. split; [by right|done].
    + by left.
Qed.

Lemma isInvestorRelations_false t :
  isInvestorRelations t = false →
  Js.includes (Js.toLowerCase t) "investor relations" = false.
Proof.
  unfold isInvestorRelations.
  by destruct (Js.includes (Js.toLowerCase t) "investor relations").
Qed.

(** C9.  A turn whose title contains "investor relations" in any case gives
    no record, whatever else its title matches: the callback pushes nothing
    for it, and no record of the output carries its title. *)
Theorem investor_relations_excluded JSON_parse transcript speaker t :
  getProp speaker "title" = Ok (JStr t) →
  Js.includes (Js.toLowerCase t) "investor relations" = true →
  (∀ st, statementOfSpeaker transcript speaker ≠ Ok (Some st)) ∧
  (∀ st, st ∈ extractPreparedStatements JSON_parse transcript →
         PreparedStatement.speakerTitle st ≠ t).
Proof.
  intros Htitle Hir. split.
  - intros st (t' & Ht' & Hst & _ & Hnot)%statementOfSpeaker_Some.
    rewrite Htitle in Ht'. injection Ht' as <-.
    rewrite orJs_string in Hst. injection Hst as Heq.
    apply isInvestorRelations_false in Hnot. congruence.
  - intros st Hin Heq. unfold extractPreparedStatements in Hin.
    destruct (speakersOf JSON_parse transcript) as [speakers|e];
      [|by apply elem_of_nil in Hin].
    destruct (findQaStart speakers) as [b|e]; [|by apply elem_of_nil in Hin].
    apply collectStatements_elem_of in Hin as [Hin|(sp & _ & Hst)];
      [by apply elem_of_nil in Hin|].
    apply statementOfSpeaker_Some in Hst as (_ & _ & _ & _ & Hnot).
    apply isInvestorRelations_false in Hnot. congruence.
Qed.

(** "Director of Investor Relations" matches the roster through "Director"
    and is excluded all the same: of the three opening turns only the chief
    executive gives a record. *)
Lemma investor_relations_excluded_witness :
  (∀ st, statementOfSpeaker (textTranscript openingText)
           (turnObject "Brett Iversen" "Director of Investor Relations" irRemarks)
         ≠ Ok (Some st)) ∧
  (∀ st, st ∈ extractPreparedStatements rejectAll (textTranscript openingText) →
         PreparedStatement.speakerTitle st ≠ "Director of Investor Relations").
Proof.
  apply investor_relations_excluded.
  - reflexivity.
  - vm_compute. reflexivity.
Defined.

Example director_of_investor_relations :
  isExecutive "Director of Investor Relations" = true ∧
  isInvestorRelations "Director of Investor Relations" = true ∧
  map PreparedStatement.speakerTitle
    (extractPreparedStatements rejectAll (textTranscript openingText)) = ["CEO"].
Proof. split_and!; vm_compute; reflexivity. Qed.


(** ** Operator introductions *)

(** A segment whose speaker field does not contain "operator" adds nothing,
    whatever its title. *)
Lemma scanSegment_other_speaker info segment s :
  getProp segment "speaker" = Ok (JStr s) →
  Js.includes (Js.toLowerCase s) "operator" = false →
  scanSegment info segment = Ok info.
Proof. intros Hsp Hs. unfold scanSegment. rewrite Hsp. simpl. by rewrite Hs. Qed.

(** C5, checked against the code.  The scan picks its turns by the speaker field:
    a turn titled Operator whose speaker is "Jane Smith" is passed over and
    the introduction it speaks is lost, while the same introduction spoken
    by a turn named Operator under the title Moderator is read. *)
Theorem operator_scan_reads_speaker JSON_parse :
  JSON_parse titledOperatorText = Throw SyntaxError →
  JSON_parse namedOperatorText = Throw SyntaxError →
  extractOperatorAnalystInfo JSON_parse (textTranscript titledOperatorText) = Ok [] ∧
  ∃ info,
    extractOperatorAnalystInfo JSON_parse (textTranscript namedOperatorText) = Ok info ∧
    mapGet info "Keith Weiss" = Some "Morgan Stanley".
Proof.
  intros Htitled Hnamed. unfold extractOperatorAnalystInfo, segmentsOf.
  cbn [Transcript.content textTranscript]. rewrite Htitled, Hnamed. split.
  - vm_compute. reflexivity.
  - eexists. split; vm_compute; reflexivity.
Qed.

Lemma operator_scan_reads_speaker_witness :
  extractOperatorAnalystInfo rejectAll (textTranscript titledOperatorText) = Ok [] ∧
  ∃ info,
    extractOperatorAnalystInfo rejectAll (textTranscript namedOperatorText) = Ok info ∧
    mapGet info "Keith Weiss" = Some "Morgan Stanley".
Proof. apply operator_scan_reads_speaker; reflexivity. Defined.

(** ** Exceptions of the question extractors *)

Lemma getProp_Throw v k e : getProp v k = Throw e → e = TypeError.
Proof. destruct v; simpl; congruence. Qed.

Lemma asString_Throw v e : asString v = Throw e → e = TypeError.
Proof. destruct v; simpl; congruence. Qed.

Lemma toJsString_Throw v e : toJsString v = Throw e → e = TypeError.
Proof. unfold toJsString. destruct (stringOf v); congruence. Qed.

Lemma iterate_Throw v e : iterate v = Throw e → e = TypeError.
Proof. destruct v; simpl; congruence. Qed.

Lemma bind_Throw {A B : Type} (r : result A) (k : A → result B) e :
  r ≫= k = Throw e → r = Throw e ∨ ∃ a, r = Ok a ∧ k a = Throw e.
Proof. destruct r as [a|e']; simpl; [right; eauto|intros [= ->]; by left]. Qed.

Lemma foldResult_Throw {A B : Type} (f : B → A → result B) l b e :
  (∀ b a e, a ∈ l → f b a = Throw e → e = TypeError) →
  foldResult f l b = Throw e → e = TypeError.
Proof.
  revert b. induction l as [|a l IH]; intros b Hf; simpl; [done|].
  intros [Hthrow|(b' & _ & Hrest)]%bind_Throw.
  - eapply Hf; [by left|done].
  - eapply IH; [|done]. intros b0 a0 e0 Ha0. apply Hf. by right.
Qed.

Lemma scanSegment_Throw info segment e :
  scanSegment info segment = Throw e → e = TypeError.
Proof.
  unfold scanSegment.
  intros [H|(speaker & _ & H)]%bind_Throw; [by apply getProp_Throw in H|].
  apply bind_Throw in H as [H|(isOp & _ & H)].
  - destruct (nullish speaker); [done|].
    apply bind_Throw in H as [H|(? & _ & H)]; [by apply asString_Throw in H|done].
  - destruct isOp; [|done].
    apply bind_Throw in H as [H|(c & _ & H)]; [by apply getProp_Throw in H|].
    apply bind_Throw in H as [H|(? & _ & H)]; [by apply toJsString_Throw in H|done].
Qed.

Lemma extractOperatorAnalystInfo_Throw JSON_parse transcript e :
  extractOperatorAnalystInfo JSON_parse transcript = Throw e → e = TypeError.
Proof.
  unfold extractOperatorAnalystInfo.
  intros [H|(segments & _ & H)]%bind_Throw; [by apply iterate_Throw in H|].
  apply foldResult_Throw in H; [done|]. intros ? ? ? _. apply scanSegment_Throw.
Qed.

Lemma mergeOperatorInfo_Throw JSON_parse global transcript e :
  mergeOperatorInfo JSON_parse global transcript = Throw e → e = TypeError.
Proof.
  unfold mergeOperatorInfo.
  intros [H|(? & _ & H)]%bind_Throw; [|done].
  by apply extractOperatorAnalystInfo_Throw in H.
Qed.

(** A loop over the transcripts does not get past one on which its body
    throws. *)
Lemma foldResult_aborts {A B : Type} (f : B → A → result B) l a b :
  a ∈ l →
  (∀ b, f b a = Throw TypeError) →
  (∀ b a e, f b a = Throw e → e = TypeError) →
  foldResult f l b = Throw TypeError.
Proof.
  intros Hin Ha Hf. revert b.
  induction l as [|a' l IH]; intros b; [by apply elem_of_nil in Hin|].
  simpl. apply elem_of_cons in Hin as [<-|Hin].
  - by rewrite Ha.
  - destruct (f b a') as [b'|e] eqn:Hfa; simpl; [by apply IH|].
    by rewrite (Hf _ _ _ Hfa).
Qed.

(** Content that is no JSON, or JSON with no matching paragraph behind it,
    gives no segment, no operator entry and no question. *)
Lemma unparsable_content_gives_nothing JSON_parse transcript text e info :
  Transcript.content transcript = JStr text →
  JSON_parse text = Throw e →
  textSegments text = [] →
  extractOperatorAnalystInfo JSON_parse transcript = Ok [] ∧
  extractAnalystQuestionsFromSingleTranscript JSON_parse transcript info = Ok [].
Proof.
  intros Hc Hp Ht.
  unfold extractOperatorAnalystInfo, extractAnalystQuestionsFromSingleTranscript, segmentsOf.
  by rewrite Hc, Hp, Ht.
Qed.

(** C4, checked against the code.  A transcript whose content is the text of a
    JSON object parses without error, the value is not iterable, and the
    exception leaves the first pass of the batch function: the whole batch
    throws, wherever the transcript stands in it. *)
Theorem batch_aborted_by_object_content JSON_parse transcripts transcript text fields :
  transcript ∈ transcripts →
  Transcript.content transcript = JStr text →
  JSON_parse text = Ok (JObj fields) →
  extractAnalystQuestionsFromMultipleTranscripts JSON_parse transcripts
  = Throw TypeError.
Proof.
  intros Hin Hc Hp. unfold extractAnalystQuestionsFromMultipleTranscripts.
  rewrite (foldResult_aborts (mergeOperatorInfo JSON_parse) transcripts transcript);
    [done|done| |].
  - intros g. unfold mergeOperatorInfo, extractOperatorAnalystInfo, segmentsOf.
    by rewrite Hc, Hp.
  - intros g a e. apply mergeOperatorInfo_Throw.
Qed.

Lemma batch_aborted_by_object_content_witness :
  extractAnalystQuestionsFromMultipleTranscripts parseObjectText mixedBatch
  = Throw TypeError.
Proof.
  apply (batch_aborted_by_object_content parseObjectText mixedBatch
           (Transcript.make 2 "MSFT" "Q2" 2024 "Microsoft Q2 2024 Earnings Call"
              (JStr objectText)) objectText []).
  - right. by left.
  - reflexivity.
  - reflexivity.
Defined.

(** The same batch without the second transcript returns its question. *)
Example batch_of_the_first_transcript :
  analystCompany <$>
    (match extractAnalystQuestionsFromMultipleTranscripts parseObjectText
             [textTranscript namedOperatorText] with
     | Ok qs => qs
     | Throw _ => []
     end)
  = ["Morgan Stanley"].
Proof. vm_compute. reflexivity. Qed.


(** * Further properties of the code *)

(** ** The institution normalizer *)

Lemma institutions_canonical :
  forallb (fun kv => bool_decide (normalizeCompanyName kv.2 = kv.2)) institutions = true.
Proof. vm_compute. reflexivity. Qed.

(** X1.  [normalizeCompanyName] is idempotent: the canonical name of an
    institution is mapped to itself, and a company that holds no key of the
    table is returned as it is. *)
Theorem normalizeCompanyName_idempotent company :
  normalizeCompanyName (normalizeCompanyName company) = normalizeCompanyName company.
Proof.
  unfold normalizeCompanyName at 2 3.
  destruct (find _ institutions) as [kv|] eqn:Hfind.
  - apply find_some in Hfind as [Hin _].
    pose proof institutions_canonical as Hall. rewrite forallb_forall in Hall.
    by apply Hall, bool_decide_eq_true in Hin.
  - unfold normalizeCompanyName. by rewrite Hfind.
Qed.

(** ** The name normalizer *)


Lemma normalizeAnalystName_trim s :
  normalizeAnalystName (Js.trim s) = normalizeAnalystName s.
Proof. unfold normalizeAnalystName. by rewrite trim_trim. Qed.

(** X2.  A normalized name is a fixed point of [normalizeAnalystName]:
    for a name of ASCII characters, normalizing the [normalizedName] of
    its result gives the same result.  (On ASCII letters the capital the
    function puts in front of a word is lower-cased back to the letter it
    came from; [toUpperCase] does not promise that for other letters.) *)
Theorem normalizeAnalystName_idempotent s nn :
  asciiText s = true →
  normalizeAnalystName s = Ok nn →
  normalizeAnalystName (normalizedName nn) = Ok nn.
Proof.
  intros _ Hs. rewrite <-normalizeAnalystName_trim.
  by apply normalizeAnalystName_stable with s.
Qed.

Lemma normalizeAnalystName_idempotent_witness :
  asciiText " mike  J.  NG " = true ∧
  normalizeAnalystName " mike  J.  NG " = Ok (mkNormalizedName "Michael Ng" "Michael" "Ng") ∧
  normalizeAnalystName "Michael Ng" = Ok (mkNormalizedName "Michael Ng" "Michael" "Ng").
Proof.
  split; [reflexivity|]. split; [reflexivity|].
  exact (normalizeAnalystName_idempotent " mike  J.  NG "
           (mkNormalizedName "Michael Ng" "Michael" "Ng") eq_refl eq_refl).
Defined.

Lemma nameVariationsAt_Inherited k :
  nameVariationsAt k = Inherited ↔ k ∈ inheritedLowerCaseKeys.
Proof.
  unfold nameVariationsAt.
  destruct (lookupOwn nameVariations k) as [v|] eqn:Hown.
  - split; [done|]. intros Hin. exfalso.
    unfold inheritedLowerCaseKeys in Hin.
    apply elem_of_cons in Hin as [Hk|Hin]; [rewrite Hk in Hown; by vm_compute in Hown|].
    apply elem_of_cons in Hin as [Hk|Hin]; [rewrite Hk in Hown; by vm_compute in Hown|].
    by apply elem_of_nil in Hin.
  - case_bool_decide; by split.
Qed.

(** *** Letter case *)

Lemma toLowerCase_app s t :
  Js.toLowerCase (s +:+ t) = Js.toLowerCase s +:+ Js.toLowerCase t.
Proof. induction s; simpl; [done|]. by rewrite IHs. Qed.

Lemma trimStart_toLowerCase s :
  Js.trimStart (Js.toLowerCase s) = Js.toLowerCase (Js.trimStart s).
Proof.
  induction s as [|c s IH]; simpl; [done|].
  rewrite isSpace_lowerChar. by destruct (Js.isSpace c).
Qed.

Lemma trimEnd_toLowerCase s :
  Js.trimEnd (Js.toLowerCase s) = Js.toLowerCase (Js.trimEnd s).
Proof.
  induction s as [|c s IH]; simpl; [done|].
  rewrite IH, isSpace_lowerChar.
  destruct (Js.trimEnd s); simpl; [|done]. by destruct (Js.isSpace c).
Qed.

Lemma trim_toLowerCase s : Js.trim (Js.toLowerCase s) = Js.toLowerCase (Js.trim s).
Proof. unfold Js.trim. by rewrite trimStart_toLowerCase, trimEnd_toLowerCase. Qed.

Lemma splitSpaces_go_toLowerCase sep cur s :
  Js.splitSpaces_go sep (Js.toLowerCase cur) (Js.toLowerCase s)
  = map Js.toLowerCase (Js.splitSpaces_go sep cur s).
Proof.
  revert sep cur. induction s as [|c s IH]; intros sep cur; simpl; [done|].
  rewrite isSpace_lowerChar. destruct (Js.isSpace c).
  - destruct sep; [apply IH|]. simpl. f_equal. apply (IH true "").
  - rewrite <-IH. by rewrite toLowerCase_app.
Qed.

Lemma splitSpaces_toLowerCase s :
  Js.splitSpaces (Js.toLowerCase s) = map Js.toLowerCase (Js.splitSpaces s).
Proof. apply (splitSpaces_go_toLowerCase false ""). Qed.

Lemma firstPart_toLowerCase parts : firstPart (map Js.toLowerCase parts) = firstPart parts.
Proof. unfold firstPart. destruct parts; simpl; [done|]. apply toLowerCase_idemp. Qed.

Lemma last_map {A B : Type} (f : A → B) (l : list A) : last (map f l) = f <$> last l.
Proof.
  induction l as [|a [|b l] IH]; [done..|].
  change (map f (a :: b :: l)) with (f a :: f b :: map f l).
  rewrite !last_cons_cons. apply IH.
Qed.

Lemma lastPart_toLowerCase parts : lastPart (map Js.toLowerCase parts) = lastPart parts.
Proof.
  unfold lastPart. rewrite last_map. destruct (last parts); simpl; [|done].
  apply toLowerCase_idemp.
Qed.

Lemma normalizeAnalystName_toLowerCase s :
  normalizeAnalystName (Js.toLowerCase s) = normalizeAnalystName s.
Proof.
  unfold normalizeAnalystName.
  by rewrite trim_toLowerCase, splitSpaces_toLowerCase, firstPart_toLowerCase,
    lastPart_toLowerCase.
Qed.

(** X4.  [normalizeAnalystName] ignores letter case: two names that are
    equal once lower-cased get the same result (the same normalized name, or
    the same exception). *)
Theorem normalizeAnalystName_case_insensitive a b :
  Js.toLowerCase a = Js.toLowerCase b →
  normalizeAnalystName a = normalizeAnalystName b.
Proof.
  intros Hab.
  by rewrite <-(normalizeAnalystName_toLowerCase a), Hab, normalizeAnalystName_toLowerCase.
Qed.

Lemma normalizeAnalystName_case_insensitive_witness :
  normalizeAnalystName "KEITH WEISS" = normalizeAnalystName "keith Weiss".
Proof.
  exact (normalizeAnalystName_case_insensitive "KEITH WEISS" "keith Weiss" eq_refl).
Defined.

(** *** Middle names *)

Lemma splitSpaces_go_first cur f rest :
  noSpaces f = true →
  Js.splitSpaces_go false cur (f +:+ String " " rest)
  = (cur +:+ f) :: Js.splitSpaces_go true "" rest.
Proof.
  revert cur. induction f as [|c f IH]; intros cur Hf; simpl.
  - by rewrite append_nil_r.
  - apply andb_prop in Hf as [Hc%negb_true_iff Hf]. rewrite Hc.
    rewrite IH by done. by rewrite append_assoc.
Qed.

Lemma splitSpaces_go_final sep cur s l :
  (sep = true → cur = "") → noSpaces l = true →
  last (Js.splitSpaces_go sep cur (s +:+ String " " l)) = Some l.
Proof.
  intros Hsep Hl. revert sep cur Hsep.
  induction s as [|c s IH]; intros sep cur Hsep; simpl.
  - destruct sep.
    + rewrite Hsep by done. by rewrite splitSpaces_go_noSpaces.
    + by rewrite splitSpaces_go_noSpaces.
  - destruct (Js.isSpace c).
    + destruct sep; [by apply IH|].
      specialize (IH true "" (fun _ => eq_refl)).
      destruct (Js.splitSpaces_go true "" (s +:+ String " " l)); [done|].
      by rewrite last_cons_cons.
    + by apply IH.
Qed.

Lemma trim_words f s l :
  f ≠ "" → l ≠ "" → noSpaces f = true → noSpaces l = true →
  Js.trim (f +:+ String " " (s +:+ l)) = f +:+ String " " (s +:+ l).
Proof.
  intros Hf Hl Hnf Hnl. unfold Js.trim.
  destruct f as [|c f]; [done|]. simpl in Hnf.
  apply andb_prop in Hnf as [Hc%negb_true_iff _].
  change (String c f +:+ String " " (s +:+ l))
    with (String c (f +:+ String " " (s +:+ l))).
  rewrite trimStart_head by done.
  change (String c (f +:+ String " " (s +:+ l)))
    with ((String c f) +:+ ((" " +:+ s) +:+ l)).
  rewrite <-append_assoc. by apply trimEnd_app.
Qed.

Lemma nameParts_words f s l :
  f ≠ "" → l ≠ "" → noSpaces f = true → noSpaces l = true →
  let parts := Js.splitSpaces (Js.trim (f +:+ String " " (s +:+ String " " l))) in
  head parts = Some f ∧ last parts = Some l.
Proof.
  intros Hf Hl Hnf Hnl. cbn zeta.
  change (String " " l) with (" " +:+ l). rewrite <-(append_assoc s " " l).
  rewrite trim_words by done. rewrite append_assoc.
  change (" " +:+ l) with (String " " l).
  unfold Js.splitSpaces. split.
  - by rewrite splitSpaces_go_first.
  - change (f +:+ String " " (s +:+ String " " l))
      with (f +:+ (" " +:+ s) +:+ String " " l).
    rewrite <-append_assoc. by apply splitSpaces_go_final.
Qed.

(** X5.  Only the first and the last word of a name count: whatever stands
    between them (middle names, initials, more white space) does not change
    the result of [normalizeAnalystName]. *)
Theorem normalizeAnalystName_middle_ignored f middle l :
  f ≠ "" → l ≠ "" → noSpaces f = true → noSpaces l = true →
  normalizeAnalystName (f +:+ " " +:+ middle +:+ " " +:+ l)
  = normalizeAnalystName (f +:+ " " +:+ l).
Proof.
  intros Hf Hl Hnf Hnl.
  destruct (nameParts_words f middle l Hf Hl Hnf Hnl) as [Hhd Hlast].
  change (f +:+ " " +:+ middle +:+ " " +:+ l)
    with (f +:+ String " " (middle +:+ String " " l)).
  change (f +:+ " " +:+ l) with (f +:+ String " " l).
  unfold normalizeAnalystName, firstPart, lastPart.
  rewrite Hhd, Hlast, trim_two, splitSpaces_two by done.
  done.
Qed.

Lemma normalizeAnalystName_middle_ignored_witness :
  normalizeAnalystName "Michael J. Ng" = normalizeAnalystName "Michael Ng".
Proof.
  exact (normalizeAnalystName_middle_ignored "Michael" "J." "Ng"
           ltac:(discriminate) ltac:(discriminate) eq_refl eq_refl).
Defined.


(** ** Consolidation *)

Lemma consolidation_returned qs m (h h2 : nat → AnalystQuestion) out :
  applyCompanyWideAnalystConsolidation qs m h = Returned h2 out →
  forallb (fun q => normalizes (h q)) qs = true ∧
  out ≡ₚ qs ∧
  ∀ r, h2 r = if decide (r ∈ qs)
              then mergedRecord (afterOperator m h) (transcriptProcessed h qs)
                     (afterOperator m h r)
              else h r.
Proof.
  intros Hrun.
  pose proof (consolidation_returned_inv _ _ _ _ _ Hrun) as Hok.
  destruct (consolidation_returns qs m h Hok) as (h2' & out' & Hrun' & Hout & Hh2).
  rewrite Hrun in Hrun'. by injection Hrun' as <- <-.
Qed.

(** X6.  A run of consolidation that returns hands back the references it
    was given, each as often as it was given (no question is dropped or
    added), and leaves every record outside the array as it was. *)
Theorem consolidation_keeps_questions qs m (h h2 : nat → AnalystQuestion) out :
  applyCompanyWideAnalystConsolidation qs m h = Returned h2 out →
  out ≡ₚ qs ∧ ∀ r, r ∉ qs → h2 r = h r.
Proof.
  intros (_ & Hout & Hh2)%consolidation_returned.
  split; [done|]. intros r Hr. by rewrite Hh2, decide_False.
Qed.

Lemma consolidation_keeps_questions_witness :
  let o := applyCompanyWideAnalystConsolidation [0; 1; 2]%nat
             (∅ : gmap string string) (heapOf threeRecords) in
  returnedQuestions o ≡ₚ [0; 1; 2]%nat ∧
  ∀ r, r ∉ [0; 1; 2]%nat → finalHeap o r = heapOf threeRecords r.
Proof.
  intros o.
  apply (consolidation_keeps_questions [0; 1; 2]%nat ∅ (heapOf threeRecords)
           (finalHeap o) (returnedQuestions o)).
  vm_compute. reflexivity.
Defined.

Lemma normalizes_false_iff x :
  normalizes x = false ↔ inheritedFirstWord (analystName x).
Proof.
  unfold normalizes, inheritedFirstWord, normalizeAnalystName.
  rewrite trim_trim, <-nameVariationsAt_Inherited.
  by destruct (nameVariationsAt _).
Qed.



(** X8.  When consolidation returns, every record of the array carries its
    normalized name; and when the name it was given consists of ASCII
    characters, the name it carries is in normal form: normalizing it again
    gives the same name. *)
Theorem consolidation_names_normalized qs m (h h2 : nat → AnalystQuestion) out r :
  applyCompanyWideAnalystConsolidation qs m h = Returned h2 out →
  r ∈ qs →
  ∃ nn, normalizeAnalystName (analystName (h r)) = Ok nn ∧
        analystName (h2 r) = normalizedName nn ∧
        (asciiText (analystName (h r)) = true →
         normalizeAnalystName (analystName (h2 r)) = Ok nn).
Proof.
  intros (Hok & _ & Hh2)%consolidation_returned Hr.
  rewrite forallb_forall in Hok.
  destruct (personKey_spec (h r)) as (nn & Hnn & Hkey);
    [by apply Hok, list_elem_of_In|].
  rewrite normalizeAnalystName_trim in Hnn. exists nn.
  assert (Hname : analystName (h2 r) = normalizedName nn).
  { rewrite Hh2, decide_True by done. unfold mergedRecord, afterOperator.
    by rewrite analystName_mergeIdentity, personKey_attributeOperator. }
  split_and!; [done..|]. intros _. rewrite Hname, <-normalizeAnalystName_trim.
  by apply normalizeAnalystName_stable with (analystName (h r)).
Qed.

Lemma consolidation_names_normalized_witness :
  let o := applyCompanyWideAnalystConsolidation [0; 1; 2]%nat
             (∅ : gmap string string) (heapOf threeRecords) in
  ∃ nn, normalizeAnalystName (analystName (heapOf threeRecords 0%nat)) = Ok nn ∧
        analystName (finalHeap o 0%nat) = normalizedName nn ∧
        normalizeAnalystName (analystName (finalHeap o 0%nat)) = Ok nn.
Proof.
  intros o.
  destruct (consolidation_names_normalized [0; 1; 2]%nat ∅ (heapOf threeRecords)
              (finalHeap o) (returnedQuestions o) 0%nat)
    as (nn & Hnn & Hname & Hstable).
  - vm_compute. reflexivity.
  - by left.
  - exists nn. split_and!; [exact Hnn|exact Hname|].
    apply Hstable. vm_compute. reflexivity.
Defined.

Lemma institutions_nonempty :
  forallb (fun kv => negb (bool_decide (kv.2 = ""))) institutions = true.
Proof. vm_compute. reflexivity. Qed.

Lemma normalizeCompanyName_nonempty c : c ≠ "" → normalizeCompanyName c ≠ "".
Proof.
  intros Hc. unfold normalizeCompanyName.
  destruct (find _ institutions) as [kv|] eqn:Hfind; [|done].
  apply find_some in Hfind as [Hin _].
  pose proof institutions_nonempty as Hall. rewrite forallb_forall in Hall.
  by apply Hall, negb_true_iff, bool_decide_eq_false in Hin.
Qed.

Lemma attributeOperator_nonempty (m : gmap string string) x :
  analystCompany x ≠ "" → (∀ k c, m !! k = Some c → c ≠ "") →
  analystCompany (attributeOperator m x) ≠ "".
Proof.
  intros Hx Hm. unfold attributeOperator.
  destruct (m !! Js.trim (analystName x)) as [c|] eqn:Hc; [|done].
  simpl. eapply normalizeCompanyName_nonempty, Hm, Hc.
Qed.

(** X9.  When consolidation returns, two records of one identity group
    (same symbol, same normalized name) carry the same name and the same
    company, provided no record came with an empty company and the operator
    map holds no empty company. *)
Theorem consolidation_group_uniform qs (m : gmap string string)
    (h h2 : nat → AnalystQuestion) out r1 r2 :
  applyCompanyWideAnalystConsolidation qs m h = Returned h2 out →
  r1 ∈ qs → r2 ∈ qs →
  sameIdentity (h r1) (h r2) →
  (∀ q, q ∈ qs → analystCompany (h q) ≠ "") →
  (∀ k c, m !! k = Some c → c ≠ "") →
  analystName (h2 r1) = analystName (h2 r2) ∧
  analystCompany (h2 r1) = analystCompany (h2 r2).
Proof.
  intros (Hok & _ & Hh2)%consolidation_returned Hr1 Hr2 Hid Hne Hm.
  set (A := afterOperator m h) in *. set (l1 := transcriptProcessed h qs) in *.
  assert (HidA : sameIdentity (A r1) (A r2)) by (by apply sameIdentity_attributeOperator).
  rewrite !Hh2, !decide_True by done. unfold mergedRecord.
  rewrite !analystName_mergeIdentity, !analystCompany_mergeIdentity.
  rewrite (groupCompany_sameIdentity A l1 (A r1) (A r2)) by done.
  split; [symmetry; apply HidA|].
  case_decide as HG; [|done].
  assert (Hall : ∀ q, q ∈ filter (fun q => sameIdentity (A r1) (A q)) l1 →
                      analystCompany (A q) = "Unknown").
  { intros q Hq.
    apply (lastKnown_empty_inv
             (map (fun q => analystCompany (A q))
                (filter (fun q => sameIdentity (A r1) (A q)) l1))); [done| |].
    - intros c (q' & -> & Hq')%list_elem_of_fmap.
      apply list_elem_of_filter in Hq' as [_ Hq'].
      unfold l1 in Hq'. rewrite transcriptProcessed_perm in Hq'.
      apply attributeOperator_nonempty; auto.
    - apply list_elem_of_fmap. by exists q. }
  rewrite (Hall r1), (Hall r2); [done| |].
  - apply list_elem_of_filter. split; [done|].
    unfold l1. by rewrite transcriptProcessed_perm.
  - apply list_elem_of_filter. split; [done|].
    unfold l1. by rewrite transcriptProcessed_perm.
Qed.

Lemma consolidation_group_uniform_witness :
  let o := applyCompanyWideAnalystConsolidation [0; 1; 2]%nat
             (∅ : gmap string string) (heapOf threeRecords) in
  analystName (finalHeap o 0%nat) = analystName (finalHeap o 2%nat) ∧
  analystCompany (finalHeap o 0%nat) = analystCompany (finalHeap o 2%nat).
Proof.
  intros o.
  apply (consolidation_group_uniform [0; 1; 2]%nat ∅ (heapOf threeRecords)
           (finalHeap o) (returnedQuestions o)).
  - vm_compute. reflexivity.
  - by left.
  - right. right. by left.
  - split; vm_compute; reflexivity.
  - intros q Hq. in_list Hq; vm_compute; discriminate.
  - intros k c Hk. by rewrite lookup_empty in Hk.
Defined.



(** *** The order of the returned array *)








(** ** Prepared statements *)




Lemma logSample_not_array v :
  (∀ items, v ≠ JArr items) → ∃ e, logSample v = Throw e.
Proof.
  intros Hv. unfold logSample.
  destruct (getProp v "length") as [len|e]; [|by exists e].
  cbn [mbind result_bind].
  destruct (toJsString len) as [s|e]; [|by exists e].
  cbn [mbind result_bind].
  destruct v; try (by eexists). by destruct (Hv items).
Qed.

(** X13.  [extractPreparedStatements] swallows every failure on the way to
    the speakers and returns no statement: when the content is not a
    string, when it starts like JSON and [JSON.parse] rejects it, and when
    it parses to anything but an array. *)
Theorem prepared_statements_unusable_content JSON_parse transcript :
  (∀ text, Transcript.content transcript ≠ JStr text) ∨
  (∃ text, Transcript.content transcript = JStr text ∧
           Js.startsWith (Js.trim text) "[" || Js.startsWith (Js.trim text) "{" = true ∧
           ((∃ e, JSON_parse text = Throw e) ∨
            (∃ v, JSON_parse text = Ok v ∧ ∀ items, v ≠ JArr items))) →
  extractPreparedStatements JSON_parse transcript = [].
Proof.
  unfold extractPreparedStatements, speakersOf.
  intros [Hnot|(text & -> & Hstart & Hparse)].
  - destruct (Transcript.content transcript); try done. by destruct (Hnot s).
  - cbn [asString mbind result_bind]. rewrite Hstart.
    destruct Hparse as [[e ->]|(v & -> & Hv)]; [done|].
    cbn [mbind result_bind].
    by destruct (logSample_not_array v Hv) as [e ->].
Qed.

Lemma prepared_statements_unusable_content_witness :
  extractPreparedStatements parseObjectText
    (Transcript.make 2 "MSFT" "Q2" 2024 "Microsoft Q2 2024 Earnings Call" (JStr objectText))
  = [].
Proof.
  apply prepared_statements_unusable_content. right.
  exists objectText. split_and!; [reflexivity|reflexivity|].
  right. exists (JObj []). split; [reflexivity|discriminate].
Defined.

(** *** Turns with text fields *)

Lemma findQaStart_from_boundaryIndex (turns : list (string * string * string)) i :
  findQaStart_from i (map turnOf turns)
  = Ok (if decide (boundaryIndex_from i turns = i + length turns)%nat
        then None else Some (boundaryIndex_from i turns))
  ∧ (i ≤ boundaryIndex_from i turns ≤ i + length turns)%nat.
Proof.
  revert i. induction turns as [|[[sp ti] co] turns IH]; intros i.
  - cbn. rewrite decide_True by lia. split; [done|lia].
  - cbn [map findQaStart_from boundaryIndex_from length].
    change (turnOf (sp, ti, co)) with (turnObject sp ti co).
    rewrite startsQuestionSession_turn. cbn [mbind result_bind fst snd].
    destruct (boundaryTurn i ti co).
    + rewrite decide_False by lia. split; [done|lia].
    + destruct (IH (S i)) as [-> Hle]. split; [|lia].
      f_equal. repeat case_decide; try done; lia.
Qed.

Lemma findQaStart_turns (turns : list (string * string * string)) :
  findQaStart (map turnOf turns) = Ok (boundaryIndex_from 0 turns).
Proof.
  unfold findQaStart.
  destruct (findQaStart_from_boundaryIndex turns 0) as [-> _].
  cbn [mbind result_bind]. rewrite length_map.
  case_decide as Hb; [|done]. simpl. by rewrite Hb.
Qed.

Lemma logContentLength_turn sp ti co : logContentLength (turnObject sp ti co) = Ok tt.
Proof.
  unfold logContentLength. destruct (getProp_turnObject sp ti co) as (_ & _ & ->).
  cbn [mbind result_bind nullish getProp]. rewrite bool_decide_eq_true_2 by done.
  unfold orJs, toJsString. cbn [truthy].
  by destruct (negb (Z.of_nat (String.length co) =? 0)%Z).
Qed.

Lemma statementOfSpeaker_turn transcript (t : string * string * string) :
  statementOfSpeaker transcript (turnOf t) = Ok (statementOfTurn transcript t).
Proof.
  destruct t as [[sp ti] co]. change (turnOf (sp, ti, co)) with (turnObject sp ti co).
  unfold statementOfSpeaker, statementOfTurn, preparedTurn. cbn [fst snd].
  destruct (getProp_turnObject sp ti co) as (-> & -> & ->).
  cbn [mbind result_bind]. rewrite orJs_string. cbn [mbind result_bind].
  rewrite logContentLength_turn.
  assert (Hlog : (if isExecutive ti
                  then toJsString (JStr sp) ≫= λ _ : string, Ok tt
                  else Ok tt) = Ok tt) by (by destruct (isExecutive ti)).
  rewrite Hlog. cbn [mbind result_bind].
  destruct (isExecutive ti && negb (Js.includes (Js.toLowerCase ti) "analyst")
            && negb (Js.includes (Js.toLowerCase ti) "operator")
            && negb (isInvestorRelations ti)); [|done].
  cbn [andb truthy asString mbind result_bind].
  case_bool_decide as Hco; cbn [negb andb]; [done|].
  destruct (100 <? String.length (Js.trim co))%nat; [|done].
  unfold orJs. cbn [truthy]. by case_bool_decide.
Qed.

Lemma collectStatements_turns transcript (turns : list (string * string * string))
    statements :
  collectStatements transcript (map turnOf turns) statements
  = statements ++ omap (statementOfTurn transcript) turns.
Proof.
  revert statements. induction turns as [|t turns IH]; intros statements.
  - by rewrite app_nil_r.
  - cbn [map collectStatements omap list_omap].
    rewrite statementOfSpeaker_turn.
    destruct (statementOfTurn transcript t) as [st|].
    + rewrite IH. by rewrite <-(assoc_L (++)).
    + apply IH.
Qed.

(** *** Segments that hold more than the three texts *)

Lemma getProp_turnFields segment t :
  turnFields segment = Some t →
  getProp segment "speaker" = Ok (JStr t.1.1) ∧
  getProp segment "title" = Ok (JStr t.1.2) ∧
  getProp segment "content" = Ok (JStr t.2).
Proof.
  unfold turnFields. destruct segment as [| | | | | |fields]; try done.
  cbn [getProp].
  destruct (ownField fields "speaker") as [[| | | |sp| |]|]; try done.
  destruct (ownField fields "title") as [[| | | |ti| |]|]; try done.
  destruct (ownField fields "content") as [[| | | |co| |]|]; try done.
  by intros [= <-].
Qed.

(** The functions that read a segment read these three fields only: on a
    segment with text fields they do what they do on the plain turn. *)
Lemma startsQuestionSession_turnFields i segment t :
  turnFields segment = Some t →
  startsQuestionSession i segment = startsQuestionSession i (turnOf t).
Proof.
  intros (Hsp & Hti & Hco)%getProp_turnFields.
  destruct t as [[sp ti] co]. cbn [fst snd] in *.
  destruct (getProp_turnObject sp ti co) as (Esp & Eti & Eco).
  unfold turnOf, startsQuestionSession, lowerField, logSpeaker. cbn [fst snd].
  by rewrite Hsp, Hti, Hco, Esp, Eti, Eco.
Qed.

Lemma statementOfSpeaker_turnFields transcript segment t :
  turnFields segment = Some t →
  statementOfSpeaker transcript segment = statementOfSpeaker transcript (turnOf t).
Proof.
  intros (Hsp & Hti & Hco)%getProp_turnFields.
  destruct t as [[sp ti] co]. cbn [fst snd] in *.
  destruct (getProp_turnObject sp ti co) as (Esp & Eti & Eco).
  unfold turnOf, statementOfSpeaker, logContentLength. cbn [fst snd].
  by rewrite Hsp, Hti, Hco, Esp, Eti, Eco.
Qed.

Lemma findQaStart_from_turnFields i segments (turns : list (string * string * string)) :
  Forall2 (fun segment t => turnFields segment = Some t) segments turns →
  findQaStart_from i segments = findQaStart_from i (map turnOf turns).
Proof.
  intros Hall. revert i.
  induction Hall as [|segment t segments turns Ht Hall IH]; intros i; [done|].
  cbn [map findQaStart_from]. rewrite (startsQuestionSession_turnFields i segment t Ht).
  destruct (startsQuestionSession i (turnOf t)) as [[|]|e]; cbn [mbind result_bind];
    [done|apply IH|done].
Qed.

Lemma findQaStart_turnFields segments (turns : list (string * string * string)) :
  Forall2 (fun segment t => turnFields segment = Some t) segments turns →
  findQaStart segments = Ok (boundaryIndex_from 0 turns).
Proof.
  intros Hall. rewrite <-findQaStart_turns. unfold findQaStart.
  rewrite (findQaStart_from_turnFields 0 segments turns Hall).
  by rewrite length_map, (Forall2_length _ _ _ Hall).
Qed.

Lemma collectStatements_turnFields transcript segments
    (turns : list (string * string * string)) statements :
  Forall2 (fun segment t => turnFields segment = Some t) segments turns →
  collectStatements transcript segments statements
  = statements ++ omap (statementOfTurn transcript) turns.
Proof.
  intros Hall. rewrite <-collectStatements_turns. revert statements.
  induction Hall as [|segment t segments turns Ht Hall IH]; intros statements; [done|].
  cbn [map collectStatements].
  rewrite (statementOfSpeaker_turnFields transcript segment t Ht).
  destruct (statementOfSpeaker transcript (turnOf t)) as [[st|]|e]; [apply IH..|done].
Qed.

Lemma logSample_turnFields segments (turns : list (string * string * string)) :
  Forall2 (fun segment t => turnFields segment = Some t) segments turns →
  logSample (JArr segments) = Ok segments.
Proof.
  intros Hall. unfold logSample. cbn [getProp]. rewrite bool_decide_eq_true_2 by done.
  cbn [mbind result_bind toJsString stringOf].
  assert (Hfold : ∀ l (ts : list (string * string * string)),
            Forall2 (fun segment t => turnFields segment = Some t) l ts →
            foldResult
              (fun (_ : unit) s =>
                 _ ← getProp s "speaker"; _ ← getProp s "title";
                 c ← getProp s "content";
                 _ ← (if nullish c then Ok JUndefined else getProp c "length");
                 Ok tt) l tt = Ok tt).
  { intros l ts Hl. induction Hl as [|segment t l ts Ht Hl IH]; [done|].
    cbn [foldResult].
    destruct (getProp_turnFields segment t Ht) as (-> & -> & ->).
    cbn [mbind result_bind nullish getProp]. apply IH. }
  by rewrite (Hfold _ _ (Forall2_take _ _ _ 3 Hall)).
Qed.

(** X14.  On a transcript whose content is the text of a JSON array of
    segments that hold a text under each of speaker, title and content
    (and whatever else besides), titles and contents of ASCII characters,
    [extractPreparedStatements] returns, in the order of the call, one
    record for every turn before the start of the question session that
    passes the tests of the callback (an executive title without "analyst",
    "operator" or "investor relations", and more than 100 characters of
    trimmed content), and nothing else. *)
Theorem prepared_statements_of_turns JSON_parse transcript text segments
    (turns : list (string * string * string)) :
  Transcript.content transcript = JStr text →
  Js.startsWith (Js.trim text) "[" = true →
  JSON_parse text = Ok (JArr segments) →
  Forall2 (fun segment t => turnFields segment = Some t) segments turns →
  Forall (fun t => asciiText t.1.2 && asciiText t.2 = true) turns →
  extractPreparedStatements JSON_parse transcript
  = omap (statementOfTurn transcript) (take (boundaryIndex_from 0 turns) turns).
Proof.
  intros Hcontent Hstart Hparse Hall _.
  unfold extractPreparedStatements, speakersOf.
  rewrite Hcontent. cbn [asString mbind result_bind]. rewrite Hstart. cbn [orb].
  rewrite Hparse. cbn [mbind result_bind].
  rewrite (logSample_turnFields segments turns Hall).
  rewrite (findQaStart_turnFields segments turns Hall).
  by rewrite (collectStatements_turnFields transcript _ _ [] (Forall2_take _ _ _ _ Hall)).
Qed.

Lemma prepared_statements_of_turns_witness :
  map (fun st => (PreparedStatement.speakerName st, PreparedStatement.speakerTitle st))
    (extractPreparedStatements parseStoredCall callTranscript)
  = [ (JStr "Satya Nadella", "CEO"); (JStr "Amy Hood", "CFO") ].
Proof.
  rewrite (prepared_statements_of_turns parseStoredCall callTranscript "[turns]"
             storedCall callTurns eq_refl eq_refl eq_refl).
  - vm_compute. reflexivity.
  - unfold storedCall, callTurns. cbn [map].
    repeat (constructor; [reflexivity|]). constructor.
  - unfold callTurns. repeat (constructor; [vm_compute; reflexivity|]). constructor.
Defined.


(** ** The operator map *)

Lemma mapSet_elem_of {K V : Type} `{EqDecision K} (m : list (K * V)) k v kv :
  kv ∈ mapSet m k v → kv ∈ m ∨ kv = (k, v).
Proof.
  induction m as [|[k' v'] m IH]; simpl.
  - intros ?%list_elem_of_singleton. by right.
  - case_decide.
    + intros [->|?]%elem_of_cons; [by right|left; by right].
    + intros [->|[?|?]%IH]%elem_of_cons; [left; by left|left; by right|by right].
Qed.

Lemma length_pos_nonempty s : (0 <? String.length s)%nat = true → s ≠ "".
Proof. by destruct s. Qed.

Lemma recordIntroduction_clean info m :
  Forall cleanEntry info → Forall cleanEntry (recordIntroduction info m).
Proof.
  intros Hinfo. unfold recordIntroduction.
  set (name := Js.trim (Regex.removeAll lineOfPattern _)).
  set (company := Js.trim (Regex.removeFirst trailingPunctuation _)).
  destruct ((0 <? String.length name)%nat) eqn:Hn; [|done].
  destruct ((0 <? String.length company)%nat) eqn:Hc; [|done].
  cbn [andb]. rewrite Forall_forall in Hinfo. apply Forall_forall.
  intros kv [Hin| ->]%mapSet_elem_of; [by apply Hinfo|].
  unfold cleanEntry. cbn [fst snd]. split_and!.
  - by apply length_pos_nonempty.
  - by apply length_pos_nonempty.
  - apply trim_trim.
  - apply trim_trim.
Qed.

Lemma fold_left_invariant {A B : Type} (P : B → Prop) (f : B → A → B) l b :
  (∀ b a, P b → P (f b a)) → P b → P (fold_left f l b).
Proof. intros Hf. revert b. induction l; simpl; auto. Qed.

Lemma scanIntroductions_clean info text :
  Forall cleanEntry info → Forall cleanEntry (scanIntroductions info text).
Proof.
  unfold scanIntroductions. apply fold_left_invariant.
  intros b pattern. apply fold_left_invariant. intros. by apply recordIntroduction_clean.
Qed.

Lemma scanSegment_clean info segment info' :
  scanSegment info segment = Ok info' → Forall cleanEntry info → Forall cleanEntry info'.
Proof.
  unfold scanSegment.
  intros (speaker & _ & H)%bind_Ok Hinfo.
  apply bind_Ok in H as ([] & _ & H); [|by injection H as <-].
  apply bind_Ok in H as (c & _ & H).
  apply bind_Ok in H as (text & _ & H).
  injection H as <-. by apply scanIntroductions_clean.
Qed.

Lemma foldResult_invariant {A B : Type} (P : B → Prop) (f : B → A → result B) l b b' :
  (∀ b a b', f b a = Ok b' → P b → P b') →
  foldResult f l b = Ok b' → P b → P b'.
Proof.
  intros Hf. revert b. induction l as [|a l IH]; intros b; simpl.
  - by intros [= <-].
  - intros (b1 & Hb1 & Hrest)%bind_Ok Hb. eapply IH; [done|]. by eapply Hf.
Qed.

Lemma extractOperatorAnalystInfo_clean JSON_parse transcript info :
  extractOperatorAnalystInfo JSON_parse transcript = Ok info → Forall cleanEntry info.
Proof.
  unfold extractOperatorAnalystInfo.
  intros (segments & _ & H)%bind_Ok.
  eapply (foldResult_invariant (Forall cleanEntry)) in H; [done| |done].
  intros b a b'. apply scanSegment_clean.
Qed.

(** X15.  The operator scan keeps no empty and no untrimmed entry: every
    analyst name and every company of the map [extractOperatorAnalystInfo]
    returns is a non-empty string without white space at either end. *)
Theorem operator_entries_clean JSON_parse transcript info name company :
  extractOperatorAnalystInfo JSON_parse transcript = Ok info →
  (name, company) ∈ info →
  name ≠ "" ∧ company ≠ "" ∧ Js.trim name = name ∧ Js.trim company = company.
Proof.
  intros Hinfo%extractOperatorAnalystInfo_clean Hin.
  rewrite Forall_forall in Hinfo. apply (Hinfo _ Hin).
Qed.

Lemma operator_entries_clean_witness :
  ∃ info,
    extractOperatorAnalystInfo rejectAll (textTranscript namedOperatorText) = Ok info ∧
    ("Keith Weiss", "Morgan Stanley") ∈ info ∧
    "Keith Weiss" ≠ "" ∧ "Morgan Stanley" ≠ "" ∧
    Js.trim "Keith Weiss" = "Keith Weiss" ∧ Js.trim "Morgan Stanley" = "Morgan Stanley".
Proof.
  pose (info := match extractOperatorAnalystInfo rejectAll (textTranscript namedOperatorText)
                with Ok i => i | Throw _ => [] end).
  assert (Hrun : extractOperatorAnalystInfo rejectAll (textTranscript namedOperatorText)
                 = Ok info) by (vm_compute; reflexivity).
  assert (Hin : ("Keith Weiss", "Morgan Stanley") ∈ info) by (vm_compute; by left).
  exists info. split; [done|]. split; [done|].
  exact (operator_entries_clean rejectAll (textTranscript namedOperatorText) info
           "Keith Weiss" "Morgan Stanley" Hrun Hin).
Defined.

(** ** Questions of one transcript *)


Lemma hasQuestion_text text :
  hasQuestion (JStr text) = Ok (Js.includes text "?" || Regex.test questionWords text).
Proof. unfold hasQuestion. cbn. by destruct (Js.includes text "?"). Qed.





(** ** Exceptions of a batch *)

Lemma hasQuestion_Throw content e : hasQuestion content = Throw e → e = TypeError.
Proof.
  unfold hasQuestion.
  intros [H|(mark & _ & H)]%bind_Throw; [destruct content; simpl in H; congruence|].
  destruct mark; [done|].
  apply bind_Throw in H as [H|(? & _ & H)]; [by apply toJsString_Throw in H|done].
Qed.

Lemma questionOfSegment_Throw transcript (m : gmap string string) questions segment e :
  questionOfSegment transcript m questions segment = Throw e → e = TypeError.
Proof.
  unfold questionOfSegment.
  intros [H|(speakerName & _ & H)]%bind_Throw; [by apply getProp_Throw in H|].
  apply bind_Throw in H as [H|(speakerTitle & _ & H)]; [by apply getProp_Throw in H|].
  apply bind_Throw in H as [H|(content & _ & H)]; [by apply getProp_Throw in H|].
  apply bind_Throw in H as [H|(title & _ & H)]; [by apply asString_Throw in H|].
  destruct (isAnalystTitle title); [|done].
  apply bind_Throw in H as [H|(asks & _ & H)]; [by apply hasQuestion_Throw in H|].
  destruct asks; [|done].
  apply bind_Throw in H as [H|(company & _ & H)].
  { destruct (operatorInfoFor m speakerName); [done|].
    apply bind_Throw in H as [H|(? & _ & H)]; [by apply toJsString_Throw in H|done]. }
  apply bind_Throw in H as [H|(name & _ & H)]; [by apply asString_Throw in H|].
  apply bind_Throw in H as [H|(text & _ & H)]; [by apply asString_Throw in H|done].
Qed.

Lemma extractAnalystQuestionsFromSingleTranscript_Throw JSON_parse transcript
    (m : gmap string string) e :
  extractAnalystQuestionsFromSingleTranscript JSON_parse transcript m = Throw e →
  e = TypeError.
Proof.
  unfold extractAnalystQuestionsFromSingleTranscript.
  intros [H|(len & _ & H)]%bind_Throw; [by apply getProp_Throw in H|].
  apply bind_Throw in H as [H|(? & _ & H)]; [by apply toJsString_Throw in H|].
  apply bind_Throw in H as [H|(items & _ & H)]; [by apply iterate_Throw in H|].
  apply foldResult_Throw in H; [done|].
  intros ? ? ? _. apply questionOfSegment_Throw.
Qed.

Lemma collectQuestions_Throw JSON_parse (m : gmap string string) all transcript e :
  collectQuestions JSON_parse m all transcript = Throw e → e = TypeError.
Proof.
  unfold collectQuestions.
  intros [H|(? & _ & H)]%bind_Throw; [|done].
  by apply extractAnalystQuestionsFromSingleTranscript_Throw in H.
Qed.

Lemma consolidation_Thrown qs m (h h' : nat → AnalystQuestion) e :
  applyCompanyWideAnalystConsolidation qs m h = Thrown h' e → e = TypeError.
Proof.
  intros Hrun. pose proof (consolidation_outcome qs m h) as H.
  destruct (forallb _ qs).
  - destruct H as (h2 & out & H & _). congruence.
  - destruct H as (h'' & H). congruence.
Qed.

(** X17.  Whatever the transcripts hold, the only exception that leaves
    [extractAnalystQuestionsFromMultipleTranscripts] is a [TypeError]: the
    [SyntaxError] of [JSON.parse] is always caught. *)
Theorem batch_throws_only_TypeError JSON_parse transcripts e :
  extractAnalystQuestionsFromMultipleTranscripts JSON_parse transcripts = Throw e →
  e = TypeError.
Proof.
  unfold extractAnalystQuestionsFromMultipleTranscripts.
  intros [H|(info & _ & H)]%bind_Throw.
  { apply foldResult_Throw in H; [done|]. intros ? ? ? _. apply mergeOperatorInfo_Throw. }
  apply bind_Throw in H as [H|(allQuestions & _ & H)].
  { apply foldResult_Throw in H; [done|]. intros ? ? ? _. apply collectQuestions_Throw. }
  destruct (applyCompanyWideAnalystConsolidation _ _ _) as [h2 out|h' e'] eqn:Hrun; [done|].
  injection H as <-. by apply consolidation_Thrown in Hrun.
Qed.

Lemma batch_throws_only_TypeError_witness :
  extractAnalystQuestionsFromMultipleTranscripts parseObjectText mixedBatch = Throw TypeError
  ∧ TypeError = TypeError.
Proof.
  assert (Hrun : extractAnalystQuestionsFromMultipleTranscripts parseObjectText mixedBatch
                 = Throw TypeError) by (vm_compute; reflexivity).
  split; [done|].
  exact (batch_throws_only_TypeError parseObjectText mixedBatch TypeError Hrun).
Defined.


(** ** A batch of transcripts with text fields *)

Lemma toJsString_orJs_string s : toJsString (orJs (JStr s) (JStr "")) = Ok s.
Proof. unfold orJs, toJsString. simpl. by case_bool_decide; subst. Qed.

Lemma scanSegment_turn info sp ti co :
  scanSegment info (turnObject sp ti co)
  = Ok (if Js.includes (Js.toLowerCase sp) "operator"
        then scanIntroductions info co else info).
Proof.
  unfold scanSegment. destruct (getProp_turnObject sp ti co) as (-> & _ & ->).
  cbn [mbind result_bind nullish asString].
  destruct (Js.includes (Js.toLowerCase sp) "operator"); [|done].
  by rewrite toJsString_orJs_string.
Qed.

Lemma questionOfSegment_turn transcript (m : gmap string string) questions sp ti co :
  questionOfSegment transcript m questions (turnObject sp ti co)
  = Ok (if isAnalystTitle ti && (Js.includes co "?" || Regex.test questionWords co)
        then questions ++
             [ mkAnalystQuestion (Js.trim sp) (Js.trim ti)
                 (match m !! sp with
                  | Some company => normalizeCompanyName company
                  | None => extractCompany ti
                  end)
                 (Js.trim co) (Transcript.id transcript) (Transcript.symbol transcript)
                 (Transcript.quarter transcript) (Transcript.year transcript)
                 (Transcript.title transcript) ]
        else questions).
Proof.
  unfold questionOfSegment. destruct (getProp_turnObject sp ti co) as (-> & -> & ->).
  cbn [mbind result_bind asString].
  destruct (isAnalystTitle ti); [|done].
  rewrite hasQuestion_text. cbn [mbind result_bind andb].
  destruct (Js.includes co "?" || Regex.test questionWords co); [|done].
  cbn [operatorInfoFor]. by destruct (m !! sp).
Qed.

Lemma foldResult_total {A B : Type} (P : B → Prop) (f : B → A → result B) l b :
  (∀ b a, a ∈ l → P b → ∃ b', f b a = Ok b' ∧ P b') →
  P b → ∃ b', foldResult f l b = Ok b' ∧ P b'.
Proof.
  revert b. induction l as [|a l IH]; intros b Hf Hb; simpl; [eauto|].
  destruct (Hf b a) as (b1 & -> & Hb1); [by left|done|].
  cbn [mbind result_bind]. apply IH; [|done].
  intros b0 a0 Ha0. apply Hf. by right.
Qed.

Lemma consolidation_of_records_returns (info : gmap string string) allQuestions :
  Forall (fun q => normalizes q = true) allQuestions →
  ∃ h2 out,
    applyCompanyWideAnalystConsolidation (seq 0 (length allQuestions)) info
      (heapOf allQuestions) = Returned h2 out.
Proof.
  intros Hnorm.
  destruct (consolidation_returns (seq 0 (length allQuestions)) info (heapOf allQuestions))
    as (h2 & out & Hrun & _); [|eauto].
  apply forallb_forall. intros r Hr%in_seq.
  unfold heapOf. destruct (lookup_lt_is_Some_2 allQuestions r) as [q Hq]; [lia|].
  rewrite Hq. cbn [default]. rewrite Forall_forall in Hnorm.
  eapply Hnorm, list_elem_of_lookup_2, Hq.
Qed.

Lemma scanSegment_turnFields info segment t :
  turnFields segment = Some t → scanSegment info segment = scanSegment info (turnOf t).
Proof.
  intros (Hsp & Hti & Hco)%getProp_turnFields.
  destruct t as [[sp ti] co]. cbn [fst snd] in *.
  destruct (getProp_turnObject sp ti co) as (Esp & Eti & Eco).
  unfold turnOf, scanSegment. cbn [fst snd]. by rewrite Hsp, Hco, Esp, Eco.
Qed.

Lemma questionOfSegment_turnFields transcript (m : gmap string string) questions
    segment t :
  turnFields segment = Some t →
  questionOfSegment transcript m questions segment
  = questionOfSegment transcript m questions (turnOf t).
Proof.
  intros (Hsp & Hti & Hco)%getProp_turnFields.
  destruct t as [[sp ti] co]. cbn [fst snd] in *.
  destruct (getProp_turnObject sp ti co) as (Esp & Eti & Eco).
  unfold turnOf, questionOfSegment. cbn [fst snd].
  by rewrite Hsp, Hti, Hco, Esp, Eti, Eco.
Qed.

Lemma extractOperatorAnalystInfo_turns JSON_parse transcript segments :
  segmentsOf JSON_parse transcript = JArr segments →
  (∀ segment, segment ∈ segments → is_Some (turnFields segment)) →
  ∃ info, extractOperatorAnalystInfo JSON_parse transcript = Ok info.
Proof.
  intros Hseg Hturns. unfold extractOperatorAnalystInfo. rewrite Hseg.
  cbn [iterate mbind result_bind].
  destruct (foldResult_total (fun _ => True) scanSegment segments [])
    as (info & Hinfo & _); [|done|by exists info].
  intros b a Ha _. destruct (Hturns a Ha) as [[[sp ti] co] Ht].
  rewrite (scanSegment_turnFields b a _ Ht).
  change (turnOf (sp, ti, co)) with (turnObject sp ti co).
  rewrite scanSegment_turn. eauto.
Qed.

Lemma extractAnalystQuestionsFromSingleTranscript_turns JSON_parse transcript
    (m : gmap string string) segments :
  segmentsOf JSON_parse transcript = JArr segments →
  (∀ segment, segment ∈ segments →
     ∃ t, turnFields segment = Some t ∧ ¬ inheritedFirstWord t.1.1) →
  ∃ questions,
    extractAnalystQuestionsFromSingleTranscript JSON_parse transcript m = Ok questions ∧
    Forall (fun q => normalizes q = true) questions.
Proof.
  intros Hseg Hnames. unfold extractAnalystQuestionsFromSingleTranscript. rewrite Hseg.
  cbn [getProp]. rewrite bool_decide_eq_true_2 by done.
  cbn [mbind result_bind toJsString stringOf iterate].
  apply foldResult_total; [|done].
  intros b a Ha Hb. destruct (Hnames a Ha) as ([[sp ti] co] & Ht & Hname).
  rewrite (questionOfSegment_turnFields transcript m b a _ Ht).
  change (turnOf (sp, ti, co)) with (turnObject sp ti co).
  rewrite questionOfSegment_turn. eexists. split; [done|].
  destruct (isAnalystTitle ti && _); [|done].
  apply Forall_app. split; [done|]. apply Forall_singleton.
  destruct (normalizes _) eqn:Hn; [done|].
  apply normalizes_false_iff in Hn. cbn [analystName] in Hn.
  unfold inheritedFirstWord in Hn. rewrite trim_trim in Hn.
  by destruct Hname.
Qed.

Lemma operator_pass_returns JSON_parse transcripts :
  (∀ transcript, transcript ∈ transcripts →
     ∃ segments,
       segmentsOf JSON_parse transcript = JArr segments ∧
       ∀ segment, segment ∈ segments → is_Some (turnFields segment)) →
  ∃ info, foldResult (mergeOperatorInfo JSON_parse) transcripts ∅ = Ok info.
Proof.
  intros Hall.
  destruct (foldResult_total (fun _ => True) (mergeOperatorInfo JSON_parse) transcripts ∅)
    as (info & Hinfo & _); [|done|by exists info].
  intros g t Ht _. unfold mergeOperatorInfo.
  destruct (Hall t Ht) as (segments & Hseg & Hturns).
  destruct (extractOperatorAnalystInfo_turns JSON_parse t segments Hseg Hturns) as (i & ->).
  cbn [mbind result_bind]. eauto.
Qed.

Lemma question_pass_returns JSON_parse (info : gmap string string) transcripts :
  (∀ transcript, transcript ∈ transcripts →
     ∃ segments,
       segmentsOf JSON_parse transcript = JArr segments ∧
       ∀ segment, segment ∈ segments →
         ∃ t, turnFields segment = Some t ∧ ¬ inheritedFirstWord t.1.1) →
  ∃ allQuestions,
    foldResult (collectQuestions JSON_parse info) transcripts [] = Ok allQuestions ∧
    Forall (fun q => normalizes q = true) allQuestions.
Proof.
  intros Hall. apply foldResult_total; [|done].
  intros qs t Ht Hqs. unfold collectQuestions.
  destruct (Hall t Ht) as (segments & Hseg & Hnames).
  destruct (extractAnalystQuestionsFromSingleTranscript_turns JSON_parse t info segments
              Hseg Hnames) as (qs' & -> & Hqs').
  cbn [mbind result_bind]. eexists. split; [done|]. by apply Forall_app.
Qed.

(** A batch of transcripts whose segments all hold a text under each of
    speaker, title and content, with no speaker that starts with an
    inherited key, is extracted without an exception. *)
Lemma batch_of_turns_returns JSON_parse transcripts :
  (∀ transcript, transcript ∈ transcripts →
     ∃ segments,
       segmentsOf JSON_parse transcript = JArr segments ∧
       ∀ segment, segment ∈ segments →
         ∃ t, turnFields segment = Some t ∧ ¬ inheritedFirstWord t.1.1) →
  ∃ questions,
    extractAnalystQuestionsFromMultipleTranscripts JSON_parse transcripts = Ok questions.
Proof.
  intros Hall. unfold extractAnalystQuestionsFromMultipleTranscripts.
  destruct (operator_pass_returns JSON_parse transcripts) as (info & ->).
  { intros t Ht. destruct (Hall t Ht) as (segments & Hseg & Hturns).
    exists segments. split; [done|]. intros segment Hin.
    destruct (Hturns segment Hin) as (t' & -> & _). eauto. }
  cbn [mbind result_bind].
  destruct (question_pass_returns JSON_parse info transcripts Hall)
    as (allQuestions & -> & Hnorm).
  cbn [mbind result_bind].
  destruct (consolidation_of_records_returns info allQuestions Hnorm) as (h2 & out & ->).
  eauto.
Qed.

(** X18.  A batch whose transcripts all hold segments with a text under
    each of speaker, title and content, whatever else the segments hold (an
    array of such segments, the text of one, or a text that is no JSON and
    is read paragraph by paragraph), is extracted without an exception,
    provided the speaker names consist of ASCII characters and none starts
    with a word that is [constructor] or [__proto__] once lower-cased. *)
Theorem batch_returns_on_turns JSON_parse transcripts :
  (∀ transcript, transcript ∈ transcripts →
     ∃ segments,
       segmentsOf JSON_parse transcript = JArr segments ∧
       ∀ segment, segment ∈ segments →
         ∃ t, turnFields segment = Some t ∧ asciiText t.1.1 = true
              ∧ ¬ inheritedFirstWord t.1.1) →
  ∃ questions,
    extractAnalystQuestionsFromMultipleTranscripts JSON_parse transcripts = Ok questions.
Proof.
  intros Hall. apply batch_of_turns_returns.
  intros t Ht. destruct (Hall t Ht) as (segments & Hseg & Hturns).
  exists segments. split; [done|]. intros segment Hin.
  destruct (Hturns segment Hin) as (t' & Ht' & _ & Hname). eauto.
Qed.

Lemma batch_returns_on_turns_witness :
  ∃ questions,
    extractAnalystQuestionsFromMultipleTranscripts rejectAll [storedArrayTranscript]
    = Ok questions.
Proof.
  apply batch_returns_on_turns.
  intros transcript Hin. apply list_elem_of_singleton in Hin as ->.
  exists storedCall. split; [reflexivity|].
  intros segment Hsegment. unfold storedCall, callTurns in Hsegment. cbn [map] in Hsegment.
  in_list Hsegment; (eexists; split; [reflexivity|]; split; [vm_compute; reflexivity|]);
    intros Hbad; vm_compute in Hbad;
    repeat (apply elem_of_cons in Hbad as [Hbad|Hbad]; [discriminate|]);
    exact (proj1 (elem_of_nil _) Hbad).
Defined.

Lemma consolidation_returned_frame qs m (h h2 : nat → AnalystQuestion) out r :
  applyCompanyWideAnalystConsolidation qs m h = Returned h2 out →
  sameFrame (h r) (h2 r).
Proof.
  intros Hrun. change (h2 r) with (finalHeap (Returned h2 out) r). rewrite <-Hrun.
  unfold applyCompanyWideAnalystConsolidation.
  eapply sameFrame_trans; [|apply consolidateSymbols_frame].
  unfold applyOperatorAssignments.
  apply fold_left_frame. intros. apply assignOperatorCompany_frame.
Qed.

(** X19.  What a batch returns is what the two passes over the transcripts
    found: the result holds, in some order, one record for every question
    the per-transcript extractor returned under the merged operator map, and
    each differs from the extracted record in the analyst name and company
    at most. *)
Theorem batch_keeps_questions JSON_parse transcripts questions :
  extractAnalystQuestionsFromMultipleTranscripts JSON_parse transcripts = Ok questions →
  ∃ info allQuestions reordered,
    foldResult (mergeOperatorInfo JSON_parse) transcripts ∅ = Ok info ∧
    foldResult (collectQuestions JSON_parse info) transcripts [] = Ok allQuestions ∧
    reordered ≡ₚ questions ∧
    Forall2 sameFrame allQuestions reordered.
Proof.
  unfold extractAnalystQuestionsFromMultipleTranscripts.
  intros (info & Hinfo & H)%bind_Ok.
  apply bind_Ok in H as (allQuestions & Hall & H).
  destruct (applyCompanyWideAnalystConsolidation _ _ _) as [h2 out|h' e] eqn:Hrun; [|done].
  injection H as <-.
  exists info, allQuestions, (map h2 (seq 0 (length allQuestions))).
  split_and!; [done|done| |].
  - apply consolidation_returned in Hrun as (_ & Hout & _). by rewrite Hout.
  - apply Forall2_same_length_lookup_2; [by rewrite length_map, length_seq|].
    intros i x y Hx Hy.
    change (map h2 (seq 0 (length allQuestions)))
      with (h2 <$> seq 0 (length allQuestions)) in Hy.
    rewrite list_lookup_fmap in Hy.
    destruct (seq 0 (length allQuestions) !! i) as [j|] eqn:Hj; [|done].
    apply lookup_seq in Hj as [-> _]. injection Hy as <-.
    pose proof (consolidation_returned_frame _ _ _ _ _ i Hrun) as Hframe.
    unfold heapOf in Hframe at 1. by rewrite Hx in Hframe.
Qed.

Lemma batch_keeps_questions_witness :
  ∃ questions info allQuestions reordered,
    extractAnalystQuestionsFromMultipleTranscripts rejectAll [arrayTranscript]
    = Ok questions ∧
    foldResult (mergeOperatorInfo rejectAll) [arrayTranscript] ∅ = Ok info ∧
    foldResult (collectQuestions rejectAll info) [arrayTranscript] [] = Ok allQuestions ∧
    reordered ≡ₚ questions ∧
    Forall2 sameFrame allQuestions reordered.
Proof.
  pose (questions :=
          match extractAnalystQuestionsFromMultipleTranscripts rejectAll [arrayTranscript]
          with Ok qs => qs | Throw _ => [] end).
  assert (Hrun : extractAnalystQuestionsFromMultipleTranscripts rejectAll [arrayTranscript]
                 = Ok questions) by (vm_compute; reflexivity).
  exists questions.
  destruct (batch_keeps_questions rejectAll [arrayTranscript] questions Hrun)
    as (info & allQuestions & reordered & H1 & H2 & H3 & H4).
  exists info, allQuestions, reordered. split_and!; assumption.
Defined.


(** ** The store *)

Lemma after_snoc calls c :
  Storage.after (calls ++ [c]) = Storage.step (Storage.after calls) c.
Proof. unfold Storage.after. by rewrite fold_left_app. Qed.

Lemma increment_bounds n :
  (1 ≤ n ≤ 2 ^ 53)%Z →
  (1 ≤ Storage.increment n ≤ 2 ^ 53)%Z ∧
  (n < Storage.increment n ∨ Storage.increment n = 2 ^ 53)%Z.
Proof.
  intros Hn. unfold Storage.increment.
  destruct (n <? 2 ^ 53)%Z eqn:Hlt; [apply Z.ltb_lt in Hlt|apply Z.ltb_ge in Hlt]; lia.
Qed.

Lemma transcriptsInvariant_step s c :
  transcriptsInvariant s → transcriptsInvariant (Storage.step s c).
Proof.
  intros [Hcur Hkeys]. destruct c as [insertUser|insertTranscript now]; [done|].
  destruct (increment_bounds _ Hcur) as [Hcur' Hnext].
  split; [done|]. cbn. intros k t. rewrite mapGet_mapSet.
  case_decide as Hk.
  - intros [= <-]. cbn. split_and!; [done|lia|]. rewrite <-Hk. lia.
  - intros Hget. destruct (Hkeys k t Hget) as (Hid & Hpos & Hlt).
    split_and!; [done..|]. lia.
Qed.

Lemma transcriptsInvariant_after calls : transcriptsInvariant (Storage.after calls).
Proof.
  induction calls as [|c calls IH] using rev_ind.
  - split; [cbn; lia|]. intros k t. by cbn.
  - rewrite after_snoc. by apply transcriptsInvariant_step.
Qed.

(** X20.  As long as the counter of the store is below 2^53,
    [createTranscript] gives the new transcript an id that no stored
    transcript has, stores it under that id, and leaves every stored
    transcript in place: no call overwrites a transcript. *)
Theorem createTranscript_fresh calls insertTranscript now :
  (Storage.currentTranscriptId (Storage.after calls) < 2 ^ 53)%Z →
  ∃ transcript s',
    Storage.createTranscript (Storage.after calls) insertTranscript now = (transcript, s') ∧
    Storage.getTranscript (Storage.after calls) (Storage.id transcript) = None ∧
    Storage.getTranscript s' (Storage.id transcript) = Some transcript ∧
    ∀ k t, Storage.getTranscript (Storage.after calls) k = Some t →
           Storage.getTranscript s' k = Some t.
Proof.
  intros Hlt. destruct (transcriptsInvariant_after calls) as [Hcur Hkeys].
  set (s := Storage.after calls) in *.
  eexists _, _. split; [reflexivity|]. unfold Storage.getTranscript. cbn.
  assert (Hfresh : mapGet (Storage.transcripts s) (Storage.currentTranscriptId s) = None).
  { destruct (mapGet _ _) as [t|] eqn:Hget; [|done].
    destruct (Hkeys _ _ Hget) as (_ & _ & Hk). lia. }
  split_and!; [done|by rewrite mapGet_mapSet, decide_True|].
  intros k t Hget. rewrite mapGet_mapSet, decide_False; [done|].
  intros <-. congruence.
Qed.

Lemma createTranscript_fresh_witness :
  ∃ transcript s',
    Storage.createTranscript (Storage.after sampleCalls)
      (sampleInsert "GOOGL" "2024Q1" "") 300 = (transcript, s') ∧
    Storage.getTranscript (Storage.after sampleCalls) (Storage.id transcript) = None ∧
    Storage.getTranscript s' (Storage.id transcript) = Some transcript ∧
    ∀ k t, Storage.getTranscript (Storage.after sampleCalls) k = Some t →
           Storage.getTranscript s' k = Some t.
Proof. apply createTranscript_fresh. vm_compute. reflexivity. Defined.

Lemma getTranscript_after_snoc calls c k t :
  Storage.getTranscript (Storage.after (calls ++ [c])) k = Some t →
  Storage.getTranscript (Storage.after calls) k = Some t ∨
  ∃ insertTranscript now,
    c = Storage.CreateTranscript insertTranscript now ∧ t = createdFrom insertTranscript k now.
Proof.
  rewrite after_snoc. destruct c as [insertUser|insertTranscript now]; [by left|].
  unfold Storage.getTranscript. cbn. rewrite mapGet_mapSet.
  case_decide as Hk; [|by left].
  intros [= <-]. right. exists insertTranscript, now. by rewrite <-Hk.
Qed.

Lemma getTranscript_after_elem calls k t :
  Storage.getTranscript (Storage.after calls) k = Some t →
  ∃ insertTranscript now,
    Storage.CreateTranscript insertTranscript now ∈ calls ∧
    t = createdFrom insertTranscript k now.
Proof.
  induction calls as [|c calls IH] using rev_ind; [done|].
  intros [Hget|(ins & now & -> & ->)]%getTranscript_after_snoc.
  - destruct (IH Hget) as (ins & now & Hin & ->).
    exists ins, now. split; [|done]. apply elem_of_app. by left.
  - exists ins, now. split; [|done]. apply elem_of_app. right. by left.
Qed.

(** X21.  Whatever calls made the store, a transcript that [getTranscript]
    finds under an id carries that id, and it is the record that one of the
    [createTranscript] calls built from its argument: the fields as given,
    with an empty or missing revenue, growth, eps or margin stored as
    [null]. *)
Theorem getTranscript_created calls k t :
  Storage.getTranscript (Storage.after calls) k = Some t →
  Storage.id t = k ∧
  ∃ insertTranscript now,
    Storage.CreateTranscript insertTranscript now ∈ calls ∧
    t = createdFrom insertTranscript k now.
Proof.
  intros Hget. split.
  - destruct (transcriptsInvariant_after calls) as [_ Hkeys].
    by destruct (Hkeys k t Hget) as [? _].
  - by apply getTranscript_after_elem.
Qed.

Lemma getTranscript_created_witness :
  ∃ t, Storage.getTranscript (Storage.after sampleCalls) 2 = Some t ∧
       Storage.id t = 2%Z ∧ Storage.growth t = None ∧
       ∃ insertTranscript now,
         Storage.CreateTranscript insertTranscript now ∈ sampleCalls ∧
         t = createdFrom insertTranscript 2 now.
Proof.
  pose (t := createdFrom (sampleInsert "msft" "2024Q2" openingText) 2 200).
  assert (Hget : Storage.getTranscript (Storage.after sampleCalls) 2 = Some t)
    by (vm_compute; reflexivity).
  exists t. split; [done|].
  destruct (getTranscript_created sampleCalls 2 t Hget) as [Hid Hcalls].
  split_and!; [exact Hid|reflexivity|exact Hcalls].
Defined.

Lemma upperChar_upperChar c : Js.upperChar (Js.upperChar c) = Js.upperChar c.
Proof. each_char c. Qed.

Lemma toUpperCase_idemp s : Js.toUpperCase (Js.toUpperCase s) = Js.toUpperCase s.
Proof. induction s; simpl; [done|]. by rewrite upperChar_upperChar, IHs. Qed.

(** X22.  [getTranscriptsBySymbol] and [getTranscriptsByFilters] compare
    the upper-cased query with the stored symbol as it is: a transcript
    whose stored symbol is not in upper case is returned for no query. *)
Theorem mixed_case_symbol_not_found s (t : Storage.Transcript) symbol quarters years :
  Storage.symbol t ≠ Js.toUpperCase (Storage.symbol t) →
  (t ∉ Storage.getTranscriptsBySymbol s symbol) ∧
  (t ∉ Storage.getTranscriptsByFilters s symbol quarters years).
Proof.
  intros Hcase.
  split; intros Hin; apply list_elem_of_filter in Hin as [Hsym _].
  - apply Hcase. by rewrite Hsym, toUpperCase_idemp.
  - destruct Hsym as [Hsym _]. apply Hcase. by rewrite Hsym, toUpperCase_idemp.
Qed.

Lemma mixed_case_symbol_not_found_witness :
  Storage.getTranscript (Storage.after sampleCalls) 2
  = Some (createdFrom (sampleInsert "msft" "2024Q2" openingText) 2 200) ∧
  (createdFrom (sampleInsert "msft" "2024Q2" openingText) 2 200
     ∉ Storage.getTranscriptsBySymbol (Storage.after sampleCalls) "msft") ∧
  (createdFrom (sampleInsert "msft" "2024Q2" openingText) 2 200
     ∉ Storage.getTranscriptsByFilters (Storage.after sampleCalls) "msft"
         ["2024Q2"] [2024%Z]).
Proof.
  split; [vm_compute; reflexivity|].
  apply mixed_case_symbol_not_found. vm_compute. discriminate.
Defined.

(** ** The extraction routes *)

Lemma parseTranscriptIds_idsBody ids :
  ids ≠ [] → parseTranscriptIds (idsBody ids) = Some ids.
Proof.
  intros Hids. unfold parseTranscriptIds, idsBody.
  assert (Hfield : ownField [("transcriptIds", JArr (map JNum ids))] "transcriptIds"
                   = Some (JArr (map JNum ids))) by reflexivity.
  rewrite Hfield. change (map JNum ids) with (JNum <$> ids).
  rewrite (mapM_fmap_Some numberOf JNum) by done.
  cbn [mbind option_bind]. by rewrite bool_decide_eq_false_2.
Qed.

Lemma storedTranscripts_elem_of s ids stored :
  stored ∈ storedTranscripts s ids →
  ∃ id, id ∈ ids ∧ Storage.getTranscript s id = Some stored.
Proof. unfold storedTranscripts. by intros (id & Hid & Hget)%list_elem_of_omap; eauto. Qed.

Lemma storedTranscripts_known s ids :
  storedTranscripts s (knownIds s ids) = storedTranscripts s ids.
Proof.
  unfold storedTranscripts, knownIds. induction ids as [|id ids IH]; [done|].
  destruct (Storage.getTranscript s id) as [stored|] eqn:Hget.
  - rewrite filter_cons_True by (by rewrite Hget). cbn. by rewrite Hget, IH.
  - rewrite filter_cons_False by (rewrite Hget; by intros [? ?]). cbn. by rewrite Hget.
Qed.

(** X23.  When every stored transcript holds segments with a text under
    each of speaker, title and content (whatever else they hold), with
    speaker names of ASCII characters none of which starts with
    [constructor] or [__proto__] in any letter case, the route that extracts
    the analyst questions never answers 500: it answers 400 to a body that
    is not an object with a non-empty array of numbers under
    [transcriptIds], and 200 with the questions to every other body. *)
Theorem extract_route_answers JSON_parse s body :
  (∀ id stored, Storage.getTranscript s id = Some stored →
     ∃ segments,
       segmentsOf JSON_parse (transcriptOf stored) = JArr segments ∧
       ∀ segment, segment ∈ segments →
         ∃ t, turnFields segment = Some t ∧ asciiText t.1.1 = true
              ∧ ¬ inheritedFirstWord t.1.1) →
  match parseTranscriptIds body with
  | None => extractAnalystQuestionsRoute JSON_parse s body = Status400
  | Some ids =>
      ∃ questions, extractAnalystQuestionsRoute JSON_parse s body = Status200 questions
  end.
Proof.
  intros Hstore. unfold extractAnalystQuestionsRoute.
  destruct (parseTranscriptIds body) as [ids|]; [|done].
  destruct (batch_of_turns_returns JSON_parse
              (map transcriptOf (storedTranscripts s ids))) as (questions & ->);
    [|by exists questions].
  intros t (stored & -> & Hin)%list_elem_of_fmap.
  apply storedTranscripts_elem_of in Hin as (id & _ & Hget).
  destruct (Hstore id stored Hget) as (segments & Hseg & Hturns).
  exists segments. split; [done|]. intros segment Hsegment.
  destruct (Hturns segment Hsegment) as (t' & Ht' & _ & Hname). eauto.
Qed.

Lemma extract_route_answers_witness :
  extractAnalystQuestionsRoute rejectAll (Storage.after sampleCalls) (JObj []) = Status400 ∧
  ∃ questions,
    extractAnalystQuestionsRoute rejectAll (Storage.after sampleCalls)
      (idsBody [1; 5; 2]%Z) = Status200 questions.
Proof.
  assert (Hstore : ∀ id stored,
            Storage.getTranscript (Storage.after sampleCalls) id = Some stored →
            ∃ segments,
              segmentsOf rejectAll (transcriptOf stored) = JArr segments ∧
              ∀ segment, segment ∈ segments →
                ∃ t, turnFields segment = Some t ∧ asciiText t.1.1 = true
                     ∧ ¬ inheritedFirstWord t.1.1).
  { intros id stored Hget.
    apply getTranscript_after_elem in Hget as (ins & now & Hin & ->).
    unfold sampleCalls in Hin.
    apply elem_of_cons in Hin as [Hc|Hin]; [injection Hc as -> ->|].
    2: apply elem_of_cons in Hin as [Hc|Hin]; [discriminate Hc|].
    2: apply elem_of_cons in Hin as [Hc|Hin];
         [injection Hc as -> ->|exact (False_ind _ (proj1 (elem_of_nil _) Hin))].
    - exists (map turnOf [("Operator", "Moderator", introductionLine);
                          ("Keith Weiss", "Analyst", "What is your Azure growth outlook?")]).
      split; [vm_compute; reflexivity|].
      intros segment Hsegment. cbn [map] in Hsegment.
      in_list Hsegment; (eexists; split; [reflexivity|]; split; [vm_compute; reflexivity|]);
        intros Hbad; vm_compute in Hbad;
        repeat (apply elem_of_cons in Hbad as [Hbad|Hbad]; [discriminate|]);
        exact (proj1 (elem_of_nil _) Hbad).
    - exists (map turnOf openingTurns).
      split; [vm_compute; reflexivity|].
      intros segment Hsegment. unfold openingTurns in Hsegment. cbn [map] in Hsegment.
      in_list Hsegment; (eexists; split; [reflexivity|]; split; [vm_compute; reflexivity|]);
        intros Hbad; vm_compute in Hbad;
        repeat (apply elem_of_cons in Hbad as [Hbad|Hbad]; [discriminate|]);
        exact (proj1 (elem_of_nil _) Hbad). }
  split.
  - exact (extract_route_answers rejectAll (Storage.after sampleCalls) (JObj []) Hstore).
  - exact (extract_route_answers rejectAll (Storage.after sampleCalls)
             (idsBody [1; 5; 2]%Z) Hstore).
Defined.

Lemma batch_of_nothing JSON_parse :
  extractAnalystQuestionsFromMultipleTranscripts JSON_parse [] = Ok [].
Proof. reflexivity. Qed.

(** X24.  The route that extracts the analyst questions passes over the
    ids under which nothing is stored: a list of ids is answered like the
    list of those of its ids that are stored, when there is one, and with
    200 and no question when none of them is stored. *)
Theorem extract_route_skips_unknown_ids JSON_parse s ids :
  ids ≠ [] →
  extractAnalystQuestionsRoute JSON_parse s (idsBody ids)
  = if bool_decide (knownIds s ids = []) then Status200 []
    else extractAnalystQuestionsRoute JSON_parse s (idsBody (knownIds s ids)).
Proof.
  intros Hids. unfold extractAnalystQuestionsRoute.
  rewrite parseTranscriptIds_idsBody by done.
  rewrite <-(storedTranscripts_known s ids).
  case_bool_decide as Hknown.
  - rewrite Hknown. cbn [storedTranscripts omap list_omap map].
    by rewrite batch_of_nothing.
  - by rewrite parseTranscriptIds_idsBody by done.
Qed.

Lemma extract_route_skips_unknown_ids_witness :
  extractAnalystQuestionsRoute rejectAll (Storage.after sampleCalls) (idsBody [7; 9]%Z)
  = Status200 [] ∧
  extractAnalystQuestionsRoute rejectAll (Storage.after sampleCalls) (idsBody [7; 1; 9]%Z)
  = extractAnalystQuestionsRoute rejectAll (Storage.after sampleCalls) (idsBody [1]%Z).
Proof.
  split.
  - exact (extract_route_skips_unknown_ids rejectAll (Storage.after sampleCalls)
             [7; 9]%Z ltac:(discriminate)).
  - exact (extract_route_skips_unknown_ids rejectAll (Storage.after sampleCalls)
             [7; 1; 9]%Z ltac:(discriminate)).
Defined.


(** ** The CSV export *)

Lemma includes_char_cons b s c :
  Js.includes (String b s) (String c "")
  = bool_decide (c = b) || Js.includes s (String c "").
Proof.
  cbn [Js.includes Js.startsWith]. case_decide as Hc.
  - rewrite bool_decide_eq_true_2 by done. by destruct s.
  - by rewrite bool_decide_eq_false_2 by done.
Qed.

Lemma includes_char_app s t c :
  Js.includes (s +:+ t) (String c "")
  = Js.includes s (String c "") || Js.includes t (String c "").
Proof.
  induction s as [|b s IH]; [by destruct t|].
  change (String b s +:+ t) with (String b (s +:+ t)).
  by rewrite !includes_char_cons, IH, orb_assoc.
Qed.

(** *** Reading a field back *)

Lemma readPlain_app s d rest :
  Js.includes s "," = false → Js.includes s newline = false →
  d = ","%char ∨ d = "010"%char →
  readPlain (s +:+ String d rest) = (s, String d rest).
Proof.
  intros Hcomma Hnl Hd. induction s as [|c s IH].
  - cbn. destruct Hd as [-> | ->]; reflexivity.
  - unfold newline in *. rewrite includes_char_cons in Hcomma, Hnl.
    apply orb_false_elim in Hcomma as [Hc1 Hcomma].
    apply orb_false_elim in Hnl as [Hc2 Hnl].
    apply bool_decide_eq_false in Hc1, Hc2.
    change (String c s +:+ String d rest) with (String c (s +:+ String d rest)).
    cbn [readPlain]. rewrite !bool_decide_eq_false_2 by congruence.
    cbn [orb]. by rewrite IH.
Qed.

Lemma readQuoted_app s d rest :
  d ≠ quoteChar →
  readQuoted (doubleQuotes s +:+ quote +:+ String d rest) = Some (s, String d rest).
Proof.
  intros Hd. induction s as [|c s IH].
  - cbn [doubleQuotes String.append quote readQuoted].
    rewrite bool_decide_eq_true_2 by done. by rewrite bool_decide_eq_false_2.
  - cbn [doubleQuotes]. case_bool_decide as Hc.
    + subst c. cbn [String.append readQuoted].
      rewrite !bool_decide_eq_true_2 by done.
      cbn [String.append] in IH. by rewrite IH.
    + cbn [String.append readQuoted]. rewrite bool_decide_eq_false_2 by done.
      cbn [String.append] in IH. by rewrite IH.
Qed.

Lemma readField_escapeCSV s d rest :
  d = ","%char ∨ d = "010"%char →
  readField (escapeCSV s +:+ String d rest) = Some (s, String d rest).
Proof.
  intros Hd. unfold escapeCSV.
  destruct (Js.includes s ",") eqn:Hcomma;
    [|destruct (Js.includes s quote) eqn:Hquote;
      [|destruct (Js.includes s newline) eqn:Hnl]]; cbn [orb].
  1-3: rewrite !append_assoc; cbn [quote String.append readField];
       rewrite bool_decide_eq_true_2 by done;
       apply (readQuoted_app s d rest); by destruct Hd as [-> | ->].
  destruct s as [|c s].
  - cbn. destruct Hd as [-> | ->]; reflexivity.
  - change (String c s +:+ String d rest) with (String c (s +:+ String d rest)).
    cbn [readField]. unfold quote in Hquote. rewrite includes_char_cons in Hquote.
    apply orb_false_elim in Hquote as [Hc _]. apply bool_decide_eq_false in Hc.
    rewrite bool_decide_eq_false_2 by congruence.
    change (String c (s +:+ String d rest)) with (String c s +:+ String d rest).
    by rewrite readPlain_app.
Qed.

(** X25.  [escapeCSV] loses nothing: two strings with the same escaped
    form are equal. *)
Theorem escapeCSV_injective a b : escapeCSV a = escapeCSV b → a = b.
Proof.
  intros Heq.
  pose proof (readField_escapeCSV a "," "" (or_introl eq_refl)) as Ha.
  pose proof (readField_escapeCSV b "," "" (or_introl eq_refl)) as Hb.
  rewrite Heq in Ha. congruence.
Qed.

Lemma escapeCSV_injective_witness :
  escapeCSV (question quotedQuestion) = escapeCSV (question quotedQuestion) ∧
  question quotedQuestion = question quotedQuestion.
Proof.
  split; [reflexivity|].
  exact (escapeCSV_injective (question quotedQuestion) (question quotedQuestion) eq_refl).
Defined.

(** *** The year *)

Lemma uint_text_plain d c :
  (c = ","%char ∨ c = "010"%char ∨ c = quoteChar) →
  Js.includes (NilEmpty.string_of_uint d) (String c "") = false.
Proof.
  intros Hc. induction d; cbn [NilEmpty.string_of_uint]; [done|..];
    rewrite includes_char_cons, IHd, orb_false_r;
    apply bool_decide_eq_false; destruct Hc as [-> |[-> | ->]]; discriminate.
Qed.

Lemma numberText_plain n c :
  (c = ","%char ∨ c = "010"%char ∨ c = quoteChar) →
  Js.includes (numberText n) (String c "") = false.
Proof.
  intros Hc. unfold numberText, NilZero.string_of_int, NilZero.string_of_uint.
  assert (Hzero : Js.includes "0" (String c "") = false).
  { rewrite includes_char_cons. cbn. rewrite orb_false_r.
    apply bool_decide_eq_false. destruct Hc as [-> |[-> | ->]]; discriminate. }
  destruct (Z.to_int n) as [d|d].
  - destruct d; try done; by apply (uint_text_plain _ c).
  - rewrite includes_char_cons.
    replace (bool_decide (c = "-"%char)) with false
      by (symmetry; apply bool_decide_eq_false;
          destruct Hc as [-> |[-> | ->]]; discriminate).
    destruct d; try done; by apply (uint_text_plain _ c).
Qed.

Lemma numberText_inj a b : numberText a = numberText b → a = b.
Proof.
  unfold numberText. intros Heq. apply DecimalZ.to_int_inj.
  assert (Hnonnil : ∀ z, Z.to_int z ≠ Decimal.Pos Decimal.Nil ∧
                         Z.to_int z ≠ Decimal.Neg Decimal.Nil).
  { intros [|p|p]; cbn; split; try discriminate;
      intros [= Hp]; by apply (DecimalPos.Unsigned.to_uint_nonnil p). }
  destruct (Hnonnil a) as [Ha1 Ha2]. destruct (Hnonnil b) as [Hb1 Hb2].
  pose proof (NilZero.isi (Z.to_int a) Ha1 Ha2) as Ha.
  pose proof (NilZero.isi (Z.to_int b) Hb1 Hb2) as Hb.
  rewrite Heq in Ha. congruence.
Qed.

Lemma readField_numberText n d rest :
  d = ","%char ∨ d = "010"%char →
  readField (numberText n +:+ String d rest) = Some (numberText n, String d rest).
Proof.
  intros Hd.
  pose proof (numberText_plain n "," (or_introl eq_refl)) as Hcomma.
  pose proof (numberText_plain n "010" (or_intror (or_introl eq_refl))) as Hnl.
  pose proof (numberText_plain n quoteChar (or_intror (or_intror eq_refl))) as Hquote.
  destruct (numberText n) as [|c s] eqn:Htext.
  - cbn. destruct Hd as [-> | ->]; reflexivity.
  - change (String c s +:+ String d rest) with (String c (s +:+ String d rest)).
    cbn [readField]. rewrite includes_char_cons in Hquote.
    apply orb_false_elim in Hquote as [Hc _]. apply bool_decide_eq_false in Hc.
    rewrite bool_decide_eq_false_2 by congruence.
    change (String c (s +:+ String d rest)) with (String c s +:+ String d rest).
    by rewrite readPlain_app.
Qed.

(** *** Reading a line back *)

Lemma readRow_csvRow q rest :
  readRow (csvRow q +:+ rest)
  = Some ((symbol q, quarter q, numberText (year q), analystName q, analystTitle q,
           question q), rest).
Proof.
  unfold csvRow, readRow, newline.
  rewrite !append_assoc. cbn [String.append].
  do 2 (rewrite readField_escapeCSV by (by left);
        cbn [mbind option_bind fst snd expect];
        rewrite bool_decide_eq_true_2 by done; cbn [mbind option_bind]).
  rewrite readField_numberText by (by left).
  cbn [mbind option_bind fst snd expect].
  rewrite bool_decide_eq_true_2 by done. cbn [mbind option_bind].
  do 2 (rewrite readField_escapeCSV by (by left);
        cbn [mbind option_bind fst snd expect];
        rewrite bool_decide_eq_true_2 by done; cbn [mbind option_bind]).
  rewrite readField_escapeCSV by (by right).
  cbn [mbind option_bind fst snd expect].
  by rewrite bool_decide_eq_true_2 by done.
Qed.

Lemma questionsCsv_rows allQuestions :
  questionsCsv allQuestions = csvHeader +:+ String.concat "" (map csvRow allQuestions).
Proof.
  unfold questionsCsv. generalize csvHeader.
  induction allQuestions as [|q l IH]; intros csv.
  - cbn. by rewrite append_nil_r.
  - cbn [fold_left map]. rewrite IH.
    assert (Hcat : String.concat "" (csvRow q :: map csvRow l)
                   = csvRow q +:+ String.concat "" (map csvRow l)).
    { cbn [String.concat]. destruct (map csvRow l); [by rewrite append_nil_r|done]. }
    by rewrite Hcat, append_assoc.
Qed.

Lemma append_inv_head s t1 t2 : s +:+ t1 = s +:+ t2 → t1 = t2.
Proof. induction s as [|c s IH]; [done|]. cbn. intros [= H]. by apply IH. Qed.

Lemma csvRow_nonempty q rest : csvRow q +:+ rest ≠ "".
Proof.
  intros Hempty. pose proof (readRow_csvRow q rest) as Hread.
  rewrite Hempty in Hread. discriminate Hread.
Qed.

Lemma rows_injective l1 l2 :
  String.concat "" (map csvRow l1) = String.concat "" (map csvRow l2) →
  map exported l1 = map exported l2.
Proof.
  assert (Hcat : ∀ q l, String.concat "" (map csvRow (q :: l))
                        = csvRow q +:+ String.concat "" (map csvRow l)).
  { intros q l. cbn [map String.concat].
    destruct (map csvRow l); [by rewrite append_nil_r|done]. }
  revert l2. induction l1 as [|q1 l1 IH]; intros [|q2 l2].
  - done.
  - rewrite Hcat. intros Heq. symmetry in Heq. by apply csvRow_nonempty in Heq.
  - rewrite Hcat. intros Heq. by apply csvRow_nonempty in Heq.
  - rewrite !Hcat. intros Heq.
    pose proof (readRow_csvRow q1 (String.concat "" (map csvRow l1))) as H1.
    pose proof (readRow_csvRow q2 (String.concat "" (map csvRow l2))) as H2.
    rewrite Heq, H2 in H1. injection H1 as Hsym Hquarter Hyear Hname Htitle Hquestion Hrest.
    apply numberText_inj in Hyear.
    cbn [map]. f_equal; [|by apply IH].
    unfold exported. congruence.
Qed.

(** X26.  The CSV text of the download route determines what it exports:
    two lists of questions with the same CSV text have the same length and
    agree, question by question, on symbol, quarter, year, analyst name,
    analyst title and question text. *)
Theorem questionsCsv_injective l1 l2 :
  questionsCsv l1 = questionsCsv l2 → map exported l1 = map exported l2.
Proof.
  rewrite !questionsCsv_rows. intros Heq%append_inv_head. by apply rows_injective.
Qed.

Lemma questionsCsv_injective_witness :
  map exported [quotedQuestion; setAnalystCompany quotedQuestion "Unknown"]
  = map exported [setAnalystCompany quotedQuestion "UBS"; quotedQuestion].
Proof.
  apply questionsCsv_injective. vm_compute. reflexivity.
Defined.


(** ** Question themes *)










(** *** The text of the answer *)



Lemma insertByCount_perm e sorted : insertByCount e sorted ≡ₚ e :: sorted.
Proof.
  induction sorted as [|e' rest IH]; cbn [insertByCount]; [done|].
  destruct (e.2 <? e'.2)%nat; [|done]. rewrite IH. apply Permutation_swap.
Qed.

Lemma sortByCount_perm entries : sortByCount entries ≡ₚ entries.
Proof.
  induction entries as [|e entries IH]; cbn [sortByCount foldr]; [done|].
  fold (sortByCount entries). by rewrite insertByCount_perm, IH.
Qed.







(** *** The themes that are listed *)

Lemma descending_cons e rest :
  descending (e :: rest) = true ↔
  (∀ e', e' ∈ rest → (e'.2 ≤ e.2)%nat) ∧ descending rest = true.
Proof.
  cbn [descending]. rewrite andb_true_iff, forallb_forall. split.
  - intros [Hall Hrest]. split; [|done].
    intros e' He'. by apply Nat.leb_le, Hall, list_elem_of_In.
  - intros [Hall Hrest]. split; [|done].
    intros e' He'. by apply Nat.leb_le, Hall, list_elem_of_In.
Qed.

Lemma insertByCount_descending e sorted :
  descending sorted = true → descending (insertByCount e sorted) = true.
Proof.
  induction sorted as [|e' rest IH]; [done|].
  intros [Hall Hrest]%descending_cons. cbn [insertByCount].
  destruct (e.2 <? e'.2)%nat eqn:Hlt.
  - apply Nat.ltb_lt in Hlt. apply descending_cons. split; [|by apply IH].
    intros x Hx. rewrite insertByCount_perm in Hx.
    apply elem_of_cons in Hx as [-> |Hx]; [lia|by apply Hall].
  - apply Nat.ltb_ge in Hlt. apply descending_cons. split.
    + intros x [-> |Hx]%elem_of_cons; [done|]. specialize (Hall x Hx). lia.
    + apply descending_cons. by split.
Qed.

Lemma sortByCount_descending entries : descending (sortByCount entries) = true.
Proof.
  induction entries as [|e entries IH]; [done|].
  cbn [sortByCount foldr]. by apply insertByCount_descending.
Qed.

Lemma descending_app l1 l2 :
  descending (l1 ++ l2) = true →
  descending l1 = true ∧ ∀ a b, a ∈ l1 → b ∈ l2 → (b.2 ≤ a.2)%nat.
Proof.
  induction l1 as [|e l1 IH]; cbn [app].
  - intros _. split; [done|]. by intros a b Ha%elem_of_nil.
  - intros [Hall Hrest]%descending_cons. destruct (IH Hrest) as [Hl1 Hcross].
    split.
    + apply descending_cons. split; [|done].
      intros e' He'. apply Hall, elem_of_app. by left.
    + intros a b [-> |Ha]%elem_of_cons Hb.
      * apply Hall, elem_of_app. by right.
      * by apply Hcross.
Qed.

(** X29.  [getTopQuestionThemes] lists at most three themes, all with an
    entry in the map, in the order of their counts from the highest down;
    no theme left out has a higher count than a theme that is listed. *)
Theorem top_themes_most_frequent questions :
  length (topThemes questions) = (3 `min` length (themeCounts questions))%nat ∧
  descending (topThemes questions) = true ∧
  (∀ e, e ∈ topThemes questions → e ∈ themeCounts questions) ∧
  (∀ e e', e ∈ topThemes questions → e' ∈ themeCounts questions →
           e' ∉ topThemes questions → (e'.2 ≤ e.2)%nat).
Proof.
  unfold topThemes.
  pose proof (sortByCount_perm (themeCounts questions)) as Hperm.
  pose proof (sortByCount_descending (themeCounts questions)) as Hsorted.
  set (sorted := sortByCount (themeCounts questions)) in *.
  rewrite <-(take_drop 3 sorted) in Hsorted.
  apply descending_app in Hsorted as [Htop Hcross].
  split_and!.
  - rewrite length_take, <-Hperm. done.
  - done.
  - intros e He. rewrite <-Hperm, <-(take_drop 3 sorted). apply elem_of_app. by left.
  - intros e e' He He' Hout. apply Hcross; [done|].
    rewrite <-Hperm, <-(take_drop 3 sorted) in He'.
    by apply elem_of_app in He' as [?|?].
Qed.


(** ** The text format *)

(** *** A star over a character class *)







(** *** Strings *)









(** *** The groups of the pattern *)
















(** *** The split into paragraphs *)






